(** * School_WordSearch: crawler, URL cache and term matcher

    A shallow embedding of [src/term_searcher.py] and [src/web_scraper.py]
    together with the properties stated about them.

    Conventions.
    - A Python [str] is a [list ascii]; every text is taken to be ASCII, so
      [str.lower] and [re.IGNORECASE] fold the letters A-Z only.
    - A Python [int] is a [Z]; lengths and positions are [nat] where the
      source can only produce non-negative values.
    - A Python [dict] with string keys is a [gmap], a [set] a [gset].
    - The network, the HTML parser and the clock are not part of the
      repository: they appear as parameters of the functions that use them. *)

From Stdlib Require Import ZArith Ascii List Bool Lia QArith Qminmax Lqa Sorted Permutation.
From stdpp Require Import gmap strings list fin_maps.

Local Open Scope Z_scope.

(** ** Python strings *)

Module PyStr.

Abbreviation str := (list ascii).

(** A string literal of the source. *)
Definition L (s : String.string) : str := String.list_ascii_of_string s.

Definition code (c : ascii) : N := N_of_ascii c.

(** [str.lower] on one ASCII character. *)
Definition lower_char (c : ascii) : ascii :=
  if ((65 <=? code c) && (code c <=? 90))%N
  then ascii_of_N (code c + 32) else c.

Definition lower (s : str) : str := map lower_char s.

Definition char_eqb (a b : ascii) : bool := Ascii.eqb a b.

Fixpoint str_eqb (a b : str) : bool :=
  match a, b with
  | [], [] => true
  | x :: a', y :: b' => char_eqb x y && str_eqb a' b'
  | _, _ => false
  end.

(** [str.isspace] on one ASCII character: TAB, LF, VT, FF, CR, FS, GS, RS,
    US and SPACE. *)
Definition is_space (c : ascii) : bool :=
  (((9 <=? code c) && (code c <=? 13)) ||
   ((28 <=? code c) && (code c <=? 32)))%N.

Fixpoint lstrip_ws (s : str) : str :=
  match s with
  | c :: s' => if is_space c then lstrip_ws s' else s
  | [] => []
  end.

Definition rstrip_ws (s : str) : str := rev (lstrip_ws (rev s)).

(** [s.strip()] *)
Definition strip (s : str) : str := rstrip_ws (lstrip_ws s).

(** [s.split()]: the maximal runs of non-whitespace characters.
    [cur] is the run being read, in reverse. *)
Fixpoint split_ws_aux (s : str) (cur : str) : list str :=
  match s with
  | [] => match cur with [] => [] | _ => [rev cur] end
  | c :: s' =>
      if is_space c
      then match cur with
           | [] => split_ws_aux s' []
           | _ => rev cur :: split_ws_aux s' []
           end
      else split_ws_aux s' (c :: cur)
  end.

Definition split_ws (s : str) : list str := split_ws_aux s [].

(** [sep.join(parts)] *)
Fixpoint join (sep : str) (parts : list str) : str :=
  match parts with
  | [] => []
  | [p] => p
  | p :: ps => p ++ sep ++ join sep ps
  end.

(** One bound of a slice [s[i:j]] on a string of length [n]: a negative
    index counts from the end, and the result is clamped to [0, n]. *)
Definition slice_bound (n : nat) (k : Z) : nat :=
  if k <? 0 then Z.to_nat (Z.max 0 (k + Z.of_nat n))
  else Z.to_nat (Z.min k (Z.of_nat n)).

(** [s[i:j]] *)
Definition slice (s : str) (i j : Z) : str :=
  let a := slice_bound (length s) i in
  let b := slice_bound (length s) j in
  take (b - a)%nat (drop a s).

(** [s.startswith(p)] *)
Fixpoint startswith (s p : str) {struct p} : bool :=
  match p, s with
  | [], _ => true
  | x :: p', y :: s' => char_eqb x y && startswith s' p'
  | _ :: _, [] => false
  end.

(** [p in s] for strings: [p] occurs in [s] as a substring. *)
Fixpoint contains (s p : str) : bool :=
  startswith s p ||
  match s with
  | [] => false
  | _ :: s' => contains s' p
  end.

(** [s.rstrip(c)] for a single character [c]. *)
Fixpoint lstrip_char (c : ascii) (s : str) : str :=
  match s with
  | x :: s' => if char_eqb x c then lstrip_char c s' else s
  | [] => []
  end.

Definition rstrip_char (c : ascii) (s : str) : str :=
  rev (lstrip_char c (rev s)).

(** Lexicographic order on code points, the order of [sorted] on strings. *)
Fixpoint str_leb (a b : str) : bool :=
  match a, b with
  | [], _ => true
  | _ :: _, [] => false
  | x :: a', y :: b' =>
      if (code x <? code y)%N then true
      else if (code y <? code x)%N then false
      else str_leb a' b'
  end.

Fixpoint insert_sorted (x : str) (l : list str) : list str :=
  match l with
  | [] => [x]
  | y :: l' => if str_leb x y then x :: l else y :: insert_sorted x l'
  end.

(** [sorted(l)] on a list of strings. *)
Definition sorted (l : list str) : list str := foldr insert_sorted [] l.

End PyStr.
Import PyStr.

(** ** Literal, case-insensitive patterns ([re.compile(re.escape(t), re.IGNORECASE)]) *)

Module Regex.

(** The pattern matches at the head of [text]. *)
Fixpoint match_here (pat text : str) : bool :=
  match pat, text with
  | [], _ => true
  | p :: pat', c :: text' =>
      char_eqb (lower_char p) (lower_char c) && match_here pat' text'
  | _ :: _, [] => false
  end.

(** [pattern.finditer(text)]: the non-overlapping matches from left to
    right, as (start, end) pairs.  [pos] is the position of the head of
    [text]; [skip] counts the characters still covered by the last match.
    The empty pattern matches once at every position, the end included. *)
Fixpoint scan (pat text : str) (pos skip : nat) : list (nat * nat) :=
  match skip with
  | S k =>
      match text with
      | [] => []
      | _ :: text' => scan pat text' (S pos) k
      end
  | O =>
      if match_here pat text
      then (pos, (pos + length pat)%nat) ::
           match text with
           | [] => []
           | _ :: text' => scan pat text' (S pos) (length pat - 1)%nat
           end
      else match text with
           | [] => []
           | _ :: text' => scan pat text' (S pos) O
           end
  end.

Definition finditer (pat text : str) : list (nat * nat) := scan pat text O O.

(** The pattern matches [text] at position [i] (any position, overlapping
    or not). *)
Definition match_at (pat text : str) (i : nat) : bool :=
  (i <=? length text)%nat && match_here pat (drop i text).

End Regex.
Import Regex.

(** ** Configuration ([src/config.py]) *)

Module Config.

Definition SEARCH_TERMS : list str :=
  [ L "restorative justice"; L "race equity"; L "restorative practices";
    L "restorative discipline"; L "alternatives to suspension";
    L "non-punitive discipline"; L "student-centered discipline";
    L "discipline equity"; L "equitable discipline";
    L "closing discipline gaps"; L "discipline disparities";
    L "disproportionate discipline" ].

(** [SCRAPING_CONFIG['context_snippet_length']] *)
Definition context_snippet_length : Z := 200.

End Config.

(** ** Pages *)

(** The page dictionary built by [scrape_page]; ['source'] is added later by
    [scrape_school_urls], so it may be absent. *)
Record Page := mkPage {
  page_url : str;
  page_text : str;
  page_links : list str;
  page_status_code : Z;
  page_content_length : nat;
  page_source : option str
}.

(** ** The term matcher ([src/term_searcher.py]) *)

Module TermSearcher.

(** One entry of [find_term_occurrences]. *)
Record Occurrence := mkOccurrence {
  occ_term : str;
  occ_start : nat;
  occ_end : nat;
  occ_context : str;
  occ_matched_text : str
}.

(** The per-page result of [search_text]; ['source'] is set by
    [search_pages]. *)
Record SearchResult := mkSearchResult {
  res_url : str;
  res_terms_found : list str;
  res_occurrences : list Occurrence;
  res_total_matches : Z;
  res_source : option str
}.

(** The object state: [self.patterns] maps each term to its compiled
    pattern, here the literal that the pattern matches. *)
Record t := mkTermSearcher {
  search_terms : list str;
  context_length : Z;
  patterns : gmap str str
}.

(** [TermSearcher.__init__]: [x or default] takes the default for [None],
    for the empty list and for [0]. *)
Definition init (terms : option (list str)) (ctx : option Z) : t :=
  let terms' := match terms with
                | Some ((_ :: _) as l) => l
                | _ => Config.SEARCH_TERMS
                end in
  let ctx' := match ctx with
              | Some c => if c =? 0 then Config.context_snippet_length else c
              | None => Config.context_snippet_length
              end in
  {| search_terms := terms';
     context_length := ctx';
     patterns := fold_left (fun m term => <[term := term]> m) terms' ∅ |}.

(** The context of a match [start, end): the window of half-width
    [context_length // 2], stripped, with runs of whitespace collapsed. *)
Definition context_of (self : t) (text : str) (start end_ : nat) : str :=
  let context_start := Z.max 0 (Z.of_nat start - context_length self / 2) in
  let context_end :=
    Z.min (Z.of_nat (length text)) (Z.of_nat end_ + context_length self / 2) in
  join (L " ") (split_ws (strip (slice text context_start context_end))).

Definition find_term_occurrences (self : t) (text term : str)
  : list Occurrence :=
  match patterns self !! term with
  | None => []
  | Some pattern =>
      map (fun m : nat * nat =>
             {| occ_term := term;
                occ_start := fst m;
                occ_end := snd m;
                occ_context := context_of self text (fst m) (snd m);
                occ_matched_text :=
                  slice text (Z.of_nat (fst m)) (Z.of_nat (snd m)) |})
          (finditer pattern text)
  end.

(** The loop state of [search_text]: [found_terms], [results['occurrences']]
    and [results['total_matches']]. *)
Definition search_step (self : t) (text : str)
    (acc : gset str * list Occurrence * Z) (term : str)
  : gset str * list Occurrence * Z :=
  let '(found_terms, occurrences, total_matches) := acc in
  match find_term_occurrences self text term with
  | [] => acc
  | matches =>
      ({[term]} ∪ found_terms,
       occurrences ++ matches,
       total_matches + Z.of_nat (length matches))
  end.

Definition search_text (self : t) (text page_url : str) : SearchResult :=
  let '(found_terms, occurrences, total_matches) :=
    fold_left (search_step self text) (search_terms self) (∅, [], 0) in
  {| res_url := page_url;
     res_terms_found := elements found_terms;
     res_occurrences := occurrences;
     res_total_matches := total_matches;
     res_source := None |}.

(** [page.get('source', 'unknown')] *)
Definition source_or_unknown (s : option str) : str :=
  match s with Some x => x | None => L "unknown" end.

Definition search_pages (self : t) (pages : list Page) : list SearchResult :=
  flat_map
    (fun page =>
       let url := page_url page in
       let text := page_text page in
       let source := source_or_unknown (page_source page) in
       match text with
       | [] => []
       | _ =>
           let result := search_text self text url in
           let result := {| res_url := res_url result;
                            res_terms_found := res_terms_found result;
                            res_occurrences := res_occurrences result;
                            res_total_matches := res_total_matches result;
                            res_source := Some source |} in
           match res_terms_found result with
           | [] => []
           | _ => [result]
           end
       end)
    pages.

(** One entry of [aggregated['context_snippets']]. *)
Record Snippet := mkSnippet {
  snip_term : str;
  snip_context : str;
  snip_url : str;
  snip_source : str
}.

(** The values held by the aggregated dictionary. *)
Inductive pyval :=
| VInt (n : Z)
| VSet (s : gset str)
| VList (l : list str)
| VSnippets (l : list Snippet).

(** [d[k].update(xs)], [d[k].append(x)], [d[k] += n],
    [d[k].append(snippet)].  Every key used by [aggregate_results] is put
    in the dictionary by its initial literal, so the [KeyError] of a
    missing key does not arise; [alter] leaves such a dictionary alone. *)
Definition set_update (k : str) (xs : list str) (d : gmap str pyval)
  : gmap str pyval :=
  alter (fun v => match v with
                  | VSet s => VSet (s ∪ list_to_set xs)
                  | _ => v
                  end) k d.

Definition list_append (k : str) (x : str) (d : gmap str pyval)
  : gmap str pyval :=
  alter (fun v => match v with VList l => VList (l ++ [x]) | _ => v end) k d.

Definition int_add (k : str) (n : Z) (d : gmap str pyval)
  : gmap str pyval :=
  alter (fun v => match v with VInt m => VInt (m + n) | _ => v end) k d.

Definition snippets_append (k : str) (x : Snippet) (d : gmap str pyval)
  : gmap str pyval :=
  alter (fun v => match v with
                  | VSnippets l => VSnippets (l ++ [x])
                  | _ => v
                  end) k d.

(** [d[k] = sorted(list(d[k]))] *)
Definition sort_key (k : str) (d : gmap str pyval) : gmap str pyval :=
  match d !! k with
  | Some (VSet s) => <[k := VList (sorted (elements s))]> d
  | Some (VList l) => <[k := VList (sorted l)]> d
  | _ => d
  end.

(** The dictionary literal at the head of [aggregate_results]. *)
Definition aggregated_init (search_results : list SearchResult)
  : gmap str pyval :=
  <[L "terms_found" := VSet ∅]>
  (<[L "page_urls" := VList []]>
  (<[L "context_snippets" := VSnippets []]>
  (<[L "total_occurrences" := VInt 0]>
  (<[L "pages_with_terms" := VInt (Z.of_nat (length search_results))]>
  (<[L "school_terms_found" := VSet ∅]>
  (<[L "school_page_urls" := VList []]>
  (<[L "school_total_occurrences" := VInt 0]>
  (<[L "school_pages_with_terms" := VInt 0]>
  (<[L "district_terms_found" := VSet ∅]>
  (<[L "district_page_urls" := VList []]>
  (<[L "district_total_occurrences" := VInt 0]>
  (<[L "district_pages_with_terms" := VInt 0]> ∅)))))))))))).

(** The part of the loop body that depends on the source. *)
Definition aggregate_by_source (source : str) (result : SearchResult)
    (d : gmap str pyval) : gmap str pyval :=
  if str_eqb source (L "school") then
    int_add (L "school_pages_with_terms") 1
      (int_add (L "school_total_occurrences") (res_total_matches result)
        (list_append (L "school_page_urls") (res_url result)
          (set_update (L "school_terms_found") (res_terms_found result) d)))
  else if str_eqb source (L "district") then
    int_add (L "district_pages_with_terms") 1
      (int_add (L "district_total_occurrences") (res_total_matches result)
        (list_append (L "district_page_urls") (res_url result)
          (set_update (L "district_terms_found") (res_terms_found result) d)))
  else d.

(** One iteration of the loop of [aggregate_results]. *)
Definition aggregate_step (d : gmap str pyval) (result : SearchResult)
  : gmap str pyval :=
  let source := source_or_unknown (res_source result) in
  let d := set_update (L "terms_found") (res_terms_found result) d in
  let d := list_append (L "page_urls") (res_url result) d in
  let d := int_add (L "total_occurrences") (res_total_matches result) d in
  let d := aggregate_by_source source result d in
  fold_left
    (fun d occurrence =>
       snippets_append (L "context_snippets")
         {| snip_term := occ_term occurrence;
            snip_context := occ_context occurrence;
            snip_url := res_url result;
            snip_source := source |} d)
    (res_occurrences result) d.

Definition aggregate_results (self : t) (search_results : list SearchResult)
  : gmap str pyval :=
  let d := fold_left aggregate_step search_results
             (aggregated_init search_results) in
  sort_key (L "district_terms_found")
    (sort_key (L "school_terms_found")
      (sort_key (L "terms_found") d)).

(** [if k not in d: d[k] = v] *)
Definition setdefault (k : str) (v : pyval) (d : gmap str pyval)
  : gmap str pyval :=
  match d !! k with
  | None => <[k := v]> d
  | Some _ => d
  end.

Definition search_school_content (pages : list Page)
    (terms : option (list str)) : gmap str pyval :=
  let searcher := init terms None in
  let search_results := search_pages searcher pages in
  let aggregated := aggregate_results searcher search_results in
  setdefault (L "district_pages_with_terms") (VInt 0)
  (setdefault (L "district_total_occurrences") (VInt 0)
  (setdefault (L "district_page_urls") (VList [])
  (setdefault (L "district_terms_found") (VList [])
  (setdefault (L "school_pages_with_terms") (VInt 0)
  (setdefault (L "school_total_occurrences") (VInt 0)
  (setdefault (L "school_page_urls") (VList [])
  (setdefault (L "school_terms_found") (VList []) aggregated))))))).

(** The thirteen keys of the aggregated dictionary. *)
Definition aggregated_keys : list str :=
  [ L "terms_found"; L "page_urls"; L "context_snippets";
    L "total_occurrences"; L "pages_with_terms";
    L "school_terms_found"; L "school_page_urls";
    L "school_total_occurrences"; L "school_pages_with_terms";
    L "district_terms_found"; L "district_page_urls";
    L "district_total_occurrences"; L "district_pages_with_terms" ].

End TermSearcher.

(** ** [urllib.parse.urlparse]

    The standard library's parser, restricted to ASCII input, following
    CPython's [urlsplit] and [urlparse].  The only [ValueError] modelled is
    the one for a netloc with an unmatched bracket ("Invalid IPv6 URL"); the
    validation of a well-bracketed address literal is left out. *)

Module UrlParse.

Record ParseResult := mkParseResult {
  scheme : str;
  netloc : str;
  path : str;
  params : str;
  query : str;
  fragment : str
}.

(** The longest prefix without a character satisfying [p], and the rest
    (which starts at the first such character, if there is one). *)
Fixpoint break (p : ascii -> bool) (s : str) : str * str :=
  match s with
  | [] => ([], [])
  | c :: s' =>
      if p c then ([], s)
      else let '(a, b) := break p s' in (c :: a, b)
  end.

(** The prefix up to and including the last character satisfying [p], and
    the rest after it. *)
Definition rbreak (p : ascii -> bool) (s : str) : str * str :=
  let '(a, b) := break p (rev s) in (rev b, rev a).

Definition is_char (c : ascii) (x : ascii) : bool := char_eqb x c.

(** [c in s] for a single character. *)
Definition has_char (c : ascii) (s : str) : bool := existsb (is_char c) s.

(** [_WHATWG_C0_CONTROL_OR_SPACE] *)
Definition is_c0_or_space (c : ascii) : bool := (code c <=? 32)%N.

(** [_UNSAFE_URL_BYTES_TO_REMOVE]: TAB, CR and LF. *)
Definition is_unsafe (c : ascii) : bool :=
  ((code c =? 9) || (code c =? 13) || (code c =? 10))%N.

Fixpoint lstrip_c0 (s : str) : str :=
  match s with
  | c :: s' => if is_c0_or_space c then lstrip_c0 s' else s
  | [] => []
  end.

Definition is_alpha (c : ascii) : bool :=
  (((65 <=? code c) && (code c <=? 90)) ||
   ((97 <=? code c) && (code c <=? 122)))%N.

Definition is_digit (c : ascii) : bool :=
  ((48 <=? code c) && (code c <=? 57))%N.

(** [scheme_chars]: letters, digits, [+], [-] and [.]. *)
Definition is_scheme_char (c : ascii) : bool :=
  is_alpha c || is_digit c ||
  ((code c =? 43) || (code c =? 45) || (code c =? 46))%N.

(** [_splitnetloc]'s delimiters. *)
Definition is_netloc_delim (c : ascii) : bool :=
  is_char "/" c || is_char "?" c || is_char "#" c.

(** The scheme test of [urlsplit]: the text before the first colon is a
    scheme when it is non-empty, starts with a letter and has only scheme
    characters.  Returns the lowered scheme and the rest. *)
Definition split_scheme (url : str) : str * str :=
  match break (is_char ":") url with
  | ((c :: _) as pre, _ :: rest) =>
      if is_alpha c && forallb is_scheme_char pre
      then (lower pre, rest)
      else ([], url)
  | _ => ([], url)
  end.

(** [url.split(c, 1)] when [c in url], else [url] and the empty string. *)
Definition split_once (c : ascii) (url : str) : str * str :=
  match break (is_char c) url with
  | (a, _ :: b) => (a, b)
  | (a, []) => (a, [])
  end.

Definition urlsplit (url0 : str) : option (str * str * str * str * str) :=
  let url := filter (fun c => negb (is_unsafe c)) (lstrip_c0 url0) in
  let '(scheme, url) := split_scheme url in
  let '(netloc, url) :=
    if startswith url (L "//")
    then break is_netloc_delim (drop 2 url)
    else ([], url) in
  if (has_char "[" netloc && negb (has_char "]" netloc)) ||
     (has_char "]" netloc && negb (has_char "[" netloc))
  then None
  else
    let '(url, fragment) := split_once "#" url in
    let '(url, query) := split_once "?" url in
    Some (scheme, netloc, url, query, fragment).

(** [uses_params] *)
Definition uses_params : list str :=
  [ []; L "ftp"; L "hdl"; L "prospero"; L "http"; L "imap"; L "https";
    L "shttp"; L "rtsp"; L "rtspu"; L "sip"; L "sips"; L "mms"; L "sftp";
    L "tel" ].

(** [_splitparams] *)
Definition splitparams (url : str) : str * str :=
  if has_char "/" url then
    let '(head, seg) := rbreak (is_char "/") url in
    match break (is_char ";") seg with
    | (_, []) => (url, [])
    | (a, _ :: p) => (head ++ a, p)
    end
  else
    match break (is_char ";") url with
    | (a, _ :: p) => (a, p)
    | (a, []) => (a, [])
    end.

(** [urlparse(url)]; [None] stands for the [ValueError]. *)
Definition urlparse (url : str) : option ParseResult :=
  match urlsplit url with
  | None => None
  | Some (scheme, netloc, url, query, fragment) =>
      let '(url, params) :=
        if existsb (str_eqb scheme) uses_params && has_char ";" url
        then splitparams url
        else (url, []) in
      Some {| scheme := scheme; netloc := netloc; path := url;
              params := params; query := query; fragment := fragment |}
  end.

(** [urlparse(url).netloc] *)
Definition netloc_of (url : str) : option str :=
  match urlparse url with
  | Some r => Some (netloc r)
  | None => None
  end.

End UrlParse.

(** ** URL helpers of [WebScraper] that need no scraper state *)

Module Url.

Import UrlParse.

(** [WebScraper.normalize_url_for_cache] *)
Definition normalize_url_for_cache (url : str) : str :=
  match url with
  | [] => []
  | _ =>
      match urlparse url with
      | Some parsed =>
          let scheme0 := match scheme parsed with
                         | [] => L "https"
                         | s => lower s
                         end in
          let scheme1 :=
            if str_eqb scheme0 (L "http") || str_eqb scheme0 (L "https")
            then scheme0 else L "https" in
          let netloc1 := match netloc parsed with
                         | [] => []
                         | n => lower n
                         end in
          let path1 := if str_eqb (path parsed) (L "/") then L "/"
                       else rstrip_char "/" (path parsed) in
          let normalized := scheme1 ++ L "://" ++ netloc1 ++ path1 in
          match query parsed with
          | [] => normalized
          | q => normalized ++ L "?" ++ q
          end
      | None => rstrip_char "/" (lower url)
      end
  end.

(** [WebScraper.is_valid_url] *)
Definition is_valid_url (url : str) : bool :=
  match url with
  | [] => false
  | _ =>
      if startswith url (L "mailto:") || startswith url (L "tel:")
      then false
      else if has_char "@" url &&
              negb (startswith url (L "http://") ||
                    startswith url (L "https://") ||
                    startswith url (L "mailto:"))
      then false
      else
        match urlparse url with
        | None => false
        | Some parsed =>
            match scheme parsed, netloc parsed with
            | [], _ => false
            | _, [] => false
            | s, n =>
                if negb (str_eqb s (L "http") || str_eqb s (L "https"))
                then false
                else if has_char "@" n && negb (startswith n (L "["))
                then false
                else true
            end
        end
  end.

(** [WebScraper.is_same_domain] *)
Definition is_same_domain (url1 url2 : str) : bool :=
  match netloc_of url1, netloc_of url2 with
  | Some domain1, Some domain2 => str_eqb domain1 domain2
  | _, _ => false
  end.

End Url.

(** ** The URL cache ([URLCache] in [src/web_scraper.py]) *)

Module URLCache.

Import UrlParse.

Record Entry := mkEntry {
  pages : list Page;
  scraped_at : str;
  schools : gset str
}.

(** The object state: [_cache] and [_normalizer].  The lock only serialises
    the calls; each method below is one critical section. *)
Record t := mkURLCache {
  _cache : gmap str Entry;
  _normalizer : option (str -> str)
}.

(** [URLCache()] *)
Definition new : t := {| _cache := ∅; _normalizer := None |}.

Definition set_normalizer (self : t) (normalizer_func : str -> str) : t :=
  {| _cache := _cache self; _normalizer := Some normalizer_func |}.

Definition normalize_key (self : t) (url : str) : str :=
  match _normalizer self with
  | Some f => f url
  | None =>
      match urlparse (rstrip_char "/" (lower url)) with
      | Some parsed =>
          scheme parsed ++ L "://" ++ netloc parsed ++
          rstrip_char "/" (path parsed)
      | None => rstrip_char "/" (lower url)
      end
  end.

Definition get (self : t) (url : str) : option (list Page) :=
  let key := normalize_key self url in
  match _cache self !! key with
  | Some entry => Some (pages entry)
  | None => None
  end.

(** [URLCache.set]; [now] is [datetime.now().isoformat()].  [if school_id:]
    holds for a string that is neither [None] nor empty. *)
Definition set (self : t) (now : str) (url : str) (pages_ : list Page)
    (school_id : option str) : t :=
  let key := normalize_key self url in
  let cache1 :=
    match _cache self !! key with
    | None => <[key := {| pages := pages_; scraped_at := now;
                           schools := ∅ |}]> (_cache self)
    | Some _ => _cache self
    end in
  let cache2 :=
    match school_id with
    | Some ((_ :: _) as sid) =>
        alter (fun e => {| pages := pages e; scraped_at := scraped_at e;
                           schools := {[sid]} ∪ schools e |}) key cache1
    | _ => cache1
    end in
  {| _cache := cache2; _normalizer := _normalizer self |}.

Definition get_schools_for_url (self : t) (url : str) : gset str :=
  let key := normalize_key self url in
  match _cache self !! key with
  | Some entry => schools entry
  | None => ∅
  end.

Definition clear (self : t) : t :=
  {| _cache := ∅; _normalizer := _normalizer self |}.

Definition size (self : t) : nat := base.size (_cache self).

End URLCache.

(** ** The HTTP clients and the HTML parser

    [requests], [cloudscraper], [BeautifulSoup] and [urllib.parse.urljoin]
    are libraries; the scraper is a function of what they answer. *)

Module Net.

(** What the scraper reads of a [requests.Response]: [status_code],
    [headers.get('Location', '')], [url], and [text], which is [None] when
    reading it raises [UnicodeDecodeError]; [text_reencoded] is [text] once
    [response.encoding] has been set to the apparent encoding. *)
Record Response := mkResponse {
  status_code : Z;
  location : str;
  url : str;
  text : option str;
  text_reencoded : option str
}.

(** The exceptions that [scrape_page] tells apart.  Its handlers for
    [ConnectionError], [Timeout], [TooManyRedirects], [InvalidURL],
    [MissingSchema], [InvalidSchema], [ChunkedEncodingError],
    [ContentDecodingError], [UnicodeDecodeError], [RequestException] and
    [Exception] differ in what they log only, and all return [None]: these
    are [OtherError]. *)
Inductive Exn :=
| SSLError (msg : str)
| HTTPError (response : option Response)
| OtherError (msg : str).

(** [self.cloudscraper_session] and [self.session]. *)
Inductive Client := Cloudscraper | Session.

(** The environment of a scraper over a network whose state has type [W]:
    - [http_get client url allow_redirects verify] is
      [client.get(url, timeout=..., allow_redirects=..., verify=...)], with
      [verify = None] when the argument is not passed;
    - [urljoin base url], [None] when it raises;
    - [extract_text html] is [WebScraper.extract_text], which is made of
      calls to the HTML parser and never raises;
    - [find_hrefs html] is the [href] values of
      [soup.find_all('a', href=True)]. *)
Record Env (W : Type) := mkEnv {
  http_get : Client -> str -> bool -> option bool -> W ->
             (Response + Exn) * W;
  urljoin : str -> str -> option str;
  extract_text : str -> str;
  find_hrefs : str -> list str
}.

Arguments http_get {W}.
Arguments urljoin {W}.
Arguments extract_text {W}.
Arguments find_hrefs {W}.

(** [bool(response)], which is [response.ok]. *)
Definition ok (r : Response) : bool :=
  negb ((400 <=? status_code r) && (status_code r <? 600)).

End Net.

(** ** The scraper ([WebScraper] in [src/web_scraper.py]) *)

Module WebScraper.

Import UrlParse Url Net.

(** [self.config], every key present. *)
Record Config := mkConfig {
  cfg_max_depth : Z;
  cfg_max_pages_per_site : Z;
  cfg_delay : Q;
  cfg_min_delay : Q;
  cfg_max_delay : Q;
  cfg_verify_ssl : bool;
  cfg_ssl_fallback_unverified : bool;
  cfg_ssl_retry_with_unverified : bool;
  cfg_min_content_length : Z;
  (** each compiled pattern [p] as [fun s => re.search(p, s, re.IGNORECASE)] *)
  cfg_skip_url_patterns : list (str -> bool);
  cfg_quick_content_check : bool;
  cfg_require_relevant_content : bool
}.

(** The object state.  [has_cloudscraper] says that
    [self.cloudscraper_session] is not [None]. *)
Record t := mkScraper {
  config : Config;
  has_cloudscraper : bool;
  visited_urls : gset str;
  scraped_pages : list Page;
  current_delay : Q;
  min_delay : Q;
  max_delay : Q;
  consecutive_errors : nat;
  consecutive_successes : nat
}.

(** [WebScraper.__init__] *)
Definition init (cfg : Config) (cloudscraper_ok : bool) : t :=
  {| config := cfg;
     has_cloudscraper := cloudscraper_ok;
     visited_urls := ∅;
     scraped_pages := [];
     current_delay := cfg_delay cfg;
     min_delay := cfg_min_delay cfg;
     max_delay := cfg_max_delay cfg;
     consecutive_errors := 0;
     consecutive_successes := 0 |}.

Definition should_skip_url (self : t) (url : str) : bool :=
  existsb (fun pattern => pattern (lower url))
          (cfg_skip_url_patterns (config self)).

Definition has_relevant_content (text : str) : bool :=
  match text with
  | [] => false
  | _ =>
      if (length text <? 50)%nat then false
      else existsb (fun term => contains (lower text) (lower term))
                   Config.SEARCH_TERMS
  end.

Definition is_minimal_content_page (self : t) (text : str) : bool :=
  Z.of_nat (length text) <? cfg_min_content_length (config self).

Definition bot_indicators : list str :=
  [ L "client challenge"; L "javascript challenge"; L "cloudflare";
    L "ddos protection"; L "checking your browser";
    L "please enable javascript"; L "cf-browser-verification";
    L "challenge-platform"; L "cf-ray"; L "just a moment";
    L "enable javascript and cookies"; L "bot protection";
    L "client challenge javascript is disabled" ].

(** Control flow of [scrape_page].

    A computation over the network either yields a value, leaves
    [scrape_page] through a [return], or raises. *)

Inductive Ctl (A : Type) :=
| Val (a : A)
| Return (r : option Page)
| Raise (e : Exn).

Arguments Val {A}.
Arguments Return {A}.
Arguments Raise {A}.

Section WithEnv.

Context {W : Type}.
Variable env : Env W.

Definition is_bot_protection_page (html_content : str) : bool :=
  match html_content with
  | [] => true
  | _ =>
      let content_lower := lower html_content in
      if (length html_content <? 1000)%nat &&
         (length (find_hrefs env html_content) =? 0)%nat &&
         existsb (contains content_lower) (take 5 bot_indicators)
      then true
      else existsb (contains content_lower) bot_indicators
  end.

(** [WebScraper.normalize_url] *)
Definition normalize_url (url base_url : str) : str :=
  match urljoin env base_url url with
  | Some joined => rstrip_char "/" (fst (break (is_char "#") joined))
  | None => url
  end.

(** [WebScraper.extract_links]; [list(set(links))] is the elements of the
    set, in no particular order. *)
Definition extract_links (html_content base_url : str)
    (base_domain : option str) : list str :=
  match html_content with
  | [] => []
  | _ =>
      let base_domain :=
        match base_domain with
        | None => netloc_of base_url
        | Some d => Some d
        end in
      let keep (href : str) : list str :=
        match href with
        | [] => []
        | _ =>
            if startswith href (L "mailto:") || startswith href (L "tel:")
            then []
            else
              let full_url := normalize_url href base_url in
              if negb (is_valid_url full_url) then []
              else
                match base_domain with
                | Some ((_ :: _) as d) =>
                    match netloc_of full_url with
                    | Some link_domain =>
                        if str_eqb link_domain d then [full_url] else []
                    | None => []
                    end
                | _ =>
                    if is_same_domain full_url base_url
                    then [full_url] else []
                end
        end in
      elements (list_to_set (flat_map keep (find_hrefs env html_content))
                : gset str)
  end.

(** *** The computations of [scrape_page] *)

Definition M (A : Type) : Type := W -> Ctl A * W.

Definition ret {A} (a : A) : M A := fun w => (Val a, w).

Definition bind {A B} (m : M A) (k : A -> M B) : M B :=
  fun w =>
    match m w with
    | (Val a, w') => k a w'
    | (Return r, w') => (Return r, w')
    | (Raise e, w') => (Raise e, w')
    end.

(** [return r] *)
Definition return_ {A} (r : option Page) : M A := fun w => (Return r, w).

(** [raise e] *)
Definition raise {A} (e : Exn) : M A := fun w => (Raise e, w).

(** [try: m  except Exception as e: h e] *)
Definition catch {A} (m : M A) (h : Exn -> M A) : M A :=
  fun w =>
    match m w with
    | (Raise e, w') => h e w'
    | r => r
    end.

Notation "'let*' p := m 'in' k" := (bind m (fun p => k))
  (at level 10, p pattern, m at level 100, k at level 200).

(** [client.get(url, timeout=..., allow_redirects=..., verify=...)] *)
Definition get (client : Client) (url : str) (allow_redirects : bool)
    (verify : option bool) : M Response :=
  fun w =>
    match http_get env client url allow_redirects verify w with
    | (inl r, w') => (Val r, w')
    | (inr e, w') => (Raise e, w')
    end.

(** [response.raise_for_status()] *)
Definition raise_for_status (response : Response) : M unit :=
  if ok response then ret tt else raise (HTTPError (Some response)).

(** The helper [is_external_redirect] of [scrape_page]. *)
Definition is_external_redirect (base_domain : option str) (check_url : str)
  : bool :=
  match base_domain with
  | Some ((_ :: _) as d) =>
      match netloc_of check_url with
      | Some check_domain => negb (str_eqb check_domain d)
      | None => false
      end
  | _ => false
  end.

(** [base_domain and base_domain not in str(e)] *)
Definition from_external_domain (base_domain : option str) (msg : str)
  : bool :=
  match base_domain with
  | Some ((_ :: _) as d) => negb (contains msg d)
  | _ => false
  end.

(** [if e.response and base_domain: ... if error_domain != base_domain] *)
Definition http_error_is_external (base_domain : option str)
    (response : option Response) : bool :=
  match response, base_domain with
  | Some r, Some ((_ :: _) as d) =>
      if ok r then
        match netloc_of (url r) with
        | Some error_domain => negb (str_eqb error_domain d)
        | None => false
        end
      else false
  | _, _ => false
  end.

Definition is_redirect_status (s : Z) : bool :=
  (s =? 301) || (s =? 302) || (s =? 303) || (s =? 307) || (s =? 308).

(** The request with a manual check of the first redirect, written four
    times in [scrape_page]: a first [get] without following redirects (with
    [verify = v1]); on a redirect status with a [Location], the target is
    resolved and checked, then fetched following redirects (with
    [verify = v2]); then [raise_for_status] and the check of the final URL.
    Yields [response] and [final_url]. *)
Definition fetch_checked (client : Client) (v1 v2 : option bool)
    (url : str) (base_domain : option str) : M (Response * str) :=
  let* response := get client url false v1 in
  let* response :=
    (if is_redirect_status (status_code response) then
       match location response with
       | [] => ret response
       | redirect_url =>
           match urljoin env url redirect_url with
           | None => raise (OtherError [])
           | Some redirect_url =>
               if is_external_redirect base_domain redirect_url
               then return_ None
               else get client redirect_url true v2
           end
       end
     else ret response) in
  let* _ := raise_for_status response in
  let final_url := Net.url response in
  if is_external_redirect base_domain final_url
  then return_ None
  else ret (response, final_url).

Definition is_handshake (msg : str) : bool :=
  contains (lower msg) (L "handshake").

(** Lines 607-692: the attempt with cloudscraper first.  Yields the
    response and final URL when it succeeded, [None] when the regular
    session has to be tried. *)
Definition try_cloudscraper_first (self : t) (url : str)
    (base_domain : option str) : M (option (Response * str)) :=
  catch
    (let* r := fetch_checked Cloudscraper None None url base_domain in
     ret (Some r))
    (fun e =>
       match e with
       | SSLError msg =>
           if from_external_domain base_domain msg then return_ None
           else if cfg_ssl_fallback_unverified (config self) &&
                   is_handshake msg
           then
             catch
               (let* r := fetch_checked Cloudscraper (Some false) (Some false)
                            url base_domain in
                ret (Some r))
               (fun _ => ret None)
           else ret None
       | HTTPError response =>
           if http_error_is_external base_domain response
           then return_ None
           else ret None
       | OtherError _ => ret None
       end).

(** Lines 695-773: the regular session. *)
Definition try_regular_session (self : t) (url : str)
    (base_domain : option str) : M (Response * str) :=
  catch
    (fetch_checked Session None (Some (cfg_verify_ssl (config self)))
       url base_domain)
    (fun e =>
       match e with
       | SSLError msg =>
           if from_external_domain base_domain msg then return_ None
           else if cfg_ssl_fallback_unverified (config self) &&
                   is_handshake msg
           then
             (* the bare [raise] of the inner handler re-raises the
                exception being handled there, the fallback's *)
             fetch_checked Session (Some false) (Some false) url base_domain
           else raise e
       | HTTPError response =>
           if http_error_is_external base_domain response
           then return_ None
           else raise e
       | OtherError _ => raise e
       end).

(** Lines 796-878: the retry with cloudscraper once bot protection has been
    detected.  [response] is assigned as soon as a [get] answers, before
    [raise_for_status]; the handlers that go on keep that assignment. *)
Definition retry_unverified (url : str) (base_domain : option str)
    (response : Response) (final_url : str) : M (Response * str) :=
  fun w =>
    match get Cloudscraper url true (Some false) w with
    | (Val response', w') =>
        if ok response' then
          if is_external_redirect base_domain (Net.url response')
          then (Return None, w')
          else (Val (response', Net.url response'), w')
        else (Val (response', final_url), w')
    | (Return r, w') => (Return r, w')
    | (Raise _, w') => (Val (response, final_url), w')
    end.

Definition bot_protection_retry (self : t) (url : str)
    (base_domain : option str) (response : Response) (final_url : str)
  : M (Response * str) :=
  fun w =>
    match get Cloudscraper url true None w with
    | (Val response', w') =>
        if ok response' then
          if is_external_redirect base_domain (Net.url response')
          then (Return None, w')
          else (Val (response', Net.url response'), w')
        else
          (* [raise_for_status] raised [HTTPError] with this response, whose
             truth value is [False]: the handler goes on *)
          if http_error_is_external base_domain (Some response')
          then (Return None, w')
          else (Val (response', final_url), w')
    | (Return r, w') => (Return r, w')
    | (Raise (SSLError msg), w') =>
        if from_external_domain base_domain msg then (Return None, w')
        else if cfg_ssl_fallback_unverified (config self) && is_handshake msg
        then retry_unverified url base_domain response final_url w'
        else (Val (response, final_url), w')
    | (Raise (HTTPError r), w') =>
        if http_error_is_external base_domain r then (Return None, w')
        else (Val (response, final_url), w')
    | (Raise (OtherError _), w') => (Val (response, final_url), w')
    end.

(** Lines 880-927 and 949-969: build the page, mark the URLs visited and
    record the page. *)
Definition page_of (response : Response) (html_content final_url : str)
    (base_domain : option str) : Page :=
  let text_content := extract_text env html_content in
  let links := extract_links html_content final_url base_domain in
  {| page_url := final_url;
     page_text := text_content;
     page_links := links;
     page_status_code := status_code response;
     page_content_length := length text_content;
     page_source := None |}.

Definition record_page (self : t) (url : str) (add_to_scraped_pages : bool)
    (page_data : Page) : t :=
  {| config := config self;
     has_cloudscraper := has_cloudscraper self;
     visited_urls := {[page_url page_data]} ∪ ({[url]} ∪ visited_urls self);
     scraped_pages := if add_to_scraped_pages
                      then scraped_pages self ++ [page_data]
                      else scraped_pages self;
     current_delay := current_delay self;
     min_delay := min_delay self;
     max_delay := max_delay self;
     consecutive_errors := consecutive_errors self;
     consecutive_successes := consecutive_successes self |}.

(** Lines 605-927: the body of the outer [try]. *)
Definition scrape_page_body (self : t) (url : str)
    (use_cloudscraper_first : bool) (base_domain : option str) : M Page :=
  let* first :=
    (if use_cloudscraper_first && has_cloudscraper self
     then try_cloudscraper_first self url base_domain
     else ret None) in
  let* (response, final_url, used_cloudscraper) :=
    match first with
    | Some (response, final_url) => ret (response, final_url, true)
    | None =>
        let* r := try_regular_session self url base_domain in
        ret (fst r, snd r, false)
    end in
  let* _ :=
    (if is_external_redirect base_domain final_url
     then return_ None else ret tt) in
  let response_text := match text response with Some s => s | None => [] end in
  let* (response, final_url) :=
    (if is_bot_protection_page response_text && negb used_cloudscraper
     then if has_cloudscraper self
          then bot_protection_retry self url base_domain response final_url
          else ret (response, final_url)
     else ret (response, final_url)) in
  match text response with
  | Some html_content => ret (page_of response html_content final_url base_domain)
  | None =>
      match text_reencoded response with
      | Some html_content =>
          ret (page_of response html_content final_url base_domain)
      | None => return_ None
      end
  end.

(** Lines 929-973: the handler of [SSLError] of the outer [try]. *)
Definition ssl_last_resort (self : t) (url : str)
    (base_domain : option str) (msg : str) : M Page :=
  if from_external_domain base_domain msg then return_ None
  else if cfg_ssl_retry_with_unverified (config self) && is_handshake msg
  then
    catch
      (let* response := get Session url true (Some false) in
       let* _ := raise_for_status response in
       let final_url := Net.url response in
       if is_external_redirect base_domain final_url then return_ None
       else
         match text response with
         | Some html_content =>
             ret (page_of response html_content final_url base_domain)
         | None =>
             match text_reencoded response with
             | Some html_content =>
                 ret (page_of response html_content final_url base_domain)
             | None => raise (OtherError [])
             end
         end)
      (fun _ => return_ None)
  else return_ None.

(** [WebScraper.scrape_page]: the result, the scraper and the network
    afterwards. *)
Definition scrape_page (self : t) (url : str) (use_cloudscraper_first : bool)
    (add_to_scraped_pages : bool) (base_domain : option str) (w : W)
  : option Page * t * W :=
  if negb (is_valid_url url) then (None, self, w)
  else if bool_decide (url ∈ visited_urls self) then (None, self, w)
  else
    let body :=
      catch (scrape_page_body self url use_cloudscraper_first base_domain)
        (fun e =>
           match e with
           | SSLError msg => ssl_last_resort self url base_domain msg
           | _ => return_ None
           end) in
    match body w with
    | (Val page_data, w') =>
        (Some page_data,
         record_page self url add_to_scraped_pages page_data, w')
    | (Return r, w') => (r, self, w')
    | (Raise _, w') => (None, self, w')
    end.

(** *** [scrape_site] *)

(** What is fixed during one crawl. *)
Record Job := mkJob {
  base_domain : str;
  max_depth : Z;
  max_pages : Z
}.

(** The state of the loop of [scrape_site]: the scraper, the network and
    [url_queue], with two records of what the loop did: [sleeps], the
    arguments of [time.sleep], latest first, and [fetches], the URLs taken
    from the queue for which [scrape_page] went to the network, latest
    first, each with whether it returned a page.  The target of a redirect
    that [scrape_page] requests on the way is not in [fetches]. *)
Record Crawl := mkCrawl {
  scraper : t;
  world : W;
  url_queue : list (str * Z);
  sleeps : list Q;
  fetches : list (str * bool)
}.

Definition Qgtb (a b : Q) : bool :=
  match (a ?= b)%Q with Gt => true | _ => false end.

Definition set_delay (self : t) (delay : Q) (errors successes : nat) : t :=
  {| config := config self;
     has_cloudscraper := has_cloudscraper self;
     visited_urls := visited_urls self;
     scraped_pages := scraped_pages self;
     current_delay := delay;
     min_delay := min_delay self;
     max_delay := max_delay self;
     consecutive_errors := errors;
     consecutive_successes := successes |}.

(** The delays are Python floats.  Comparing two of them, [max] and [min]
    are exact operations on the numbers they stand for; a product is
    rounded.  The functions whose name ends in [_with] take the product as
    an argument: [times a b] is [a * b] as the machine computes it, with
    [9 # 10] and [3 # 2] for the literals [0.9] and [1.5].  The functions
    without the suffix are these at the exact product of rationals. *)

(** Lines 1140-1146: the adaptive delay after a page was returned. *)
Definition on_success_with (times : Q -> Q -> Q) (self : t) : t :=
  let successes := S (consecutive_successes self) in
  if (5 <? successes)%nat && Qgtb (current_delay self) (min_delay self)
  then set_delay self
         (Qmax (min_delay self) (times (current_delay self) (9 # 10))) 0 0
  else set_delay self (current_delay self) 0 successes.

Definition on_success (self : t) : t := on_success_with Qmult self.

(** Lines 1195-1199: the adaptive delay after no page was returned. *)
Definition on_failure_with (times : Q -> Q -> Q) (self : t) : t :=
  let errors := S (consecutive_errors self) in
  if (2 <? errors)%nat
  then set_delay self
         (Qmin (max_delay self) (times (current_delay self) (3 # 2))) errors 0
  else set_delay self (current_delay self) errors 0.

Definition on_failure (self : t) : t := on_failure_with Qmult self.

(** Lines 1148-1149: [if self.current_delay > 0: time.sleep(...)]. *)
Definition sleep_after (self : t) (log : list Q) : list Q :=
  if Qgtb (current_delay self) 0 then current_delay self :: log else log.

(** Lines 1152-1175: whether the links of the page are followed. *)
Definition should_follow_links (self : t) (should_skip_content : bool)
    (text_content : str) : bool :=
  if negb should_skip_content then
    if cfg_quick_content_check (config self) then
      let is_minimal := is_minimal_content_page self text_content in
      let has_relevant := has_relevant_content text_content in
      if is_minimal && negb has_relevant then false
      else if cfg_require_relevant_content (config self)
      then has_relevant
      else true
    else true
  else true.

(** Lines 1181-1188: the links appended to the queue. *)
Definition links_to_enqueue (self : t) (links : list str) : list str :=
  filter (fun link =>
            negb (bool_decide (link ∈ visited_urls self)) &&
            negb (should_skip_url self link))
         links.

(** One iteration of the [while] loop; [None] when the loop is over.  The
    [break] that ends the body tests the second half of the loop
    condition, which the next iteration tests again. *)
Definition loop_step_with (times : Q -> Q -> Q) (job : Job) (c : Crawl)
  : option Crawl :=
  match url_queue c with
  | [] => None
  | (current_url, depth) :: queue =>
      let self := scraper c in
      if negb (Z.of_nat (length (scraped_pages self)) <? max_pages job)
      then None
      else
        let skipped :=
          Some {| scraper := self; world := world c; url_queue := queue;
                  sleeps := sleeps c; fetches := fetches c |} in
        if bool_decide (current_url ∈ visited_urls self) ||
           (max_depth job <? depth)
        then skipped
        else
          let should_skip_content :=
            should_skip_url self current_url && (0 <? depth) in
          let use_cloudscraper_first :=
            (depth =? 0) && has_cloudscraper self in
          match netloc_of current_url with
          | None => skipped
          | Some current_domain =>
              if negb (str_eqb current_domain (base_domain job))
              then skipped
              else
                let add_to_scraped := negb should_skip_content in
                let '(page_data, self, w) :=
                  scrape_page self current_url use_cloudscraper_first
                    add_to_scraped (Some (base_domain job)) (world c) in
                let fetches :=
                  if is_valid_url current_url
                  then (current_url, bool_decide (is_Some page_data))
                       :: fetches c
                  else fetches c in
                match page_data with
                | Some page_data =>
                    let self := on_success_with times self in
                    let sleeps := sleep_after self (sleeps c) in
                    let follow :=
                      should_follow_links self should_skip_content
                        (page_text page_data) in
                    let queue :=
                      if (depth <? max_depth job) && follow
                      then queue ++
                           map (fun link => (link, depth + 1))
                               (links_to_enqueue self (page_links page_data))
                      else queue in
                    Some {| scraper := self; world := w; url_queue := queue;
                            sleeps := sleeps; fetches := fetches |}
                | None =>
                    Some {| scraper := on_failure_with times self; world := w;
                            url_queue := queue; sleeps := sleeps c;
                            fetches := fetches |}
                end
          end
  end.

Definition loop_step (job : Job) (c : Crawl) : option Crawl :=
  loop_step_with Qmult job c.

(** The loop, for at most [n] iterations. *)
Fixpoint run (job : Job) (n : nat) (c : Crawl) : Crawl :=
  match n with
  | O => c
  | S n' =>
      match loop_step job c with
      | None => c
      | Some c' => run job n' c'
      end
  end.

(** [x or default] on an optional integer. *)
Definition or_default (x : option Z) (default : Z) : Z :=
  match x with
  | Some v => if v =? 0 then default else v
  | None => default
  end.

(** Lines 1085-1103: the job and the state at the head of the loop, [None]
    when [scrape_site] returns the empty list at once. *)
Definition scrape_site_start (self : t) (w : W) (base_url : str)
    (max_depth max_pages : option Z) : option (Job * Crawl) :=
  if negb (is_valid_url base_url) then None
  else
    let max_depth := or_default max_depth (cfg_max_depth (config self)) in
    let max_pages :=
      or_default max_pages (cfg_max_pages_per_site (config self)) in
    match netloc_of base_url with
    | None => None
    | Some base_domain =>
        Some ({| base_domain := base_domain; max_depth := max_depth;
                 max_pages := max_pages |},
              {| scraper :=
                   {| config := config self;
                      has_cloudscraper := has_cloudscraper self;
                      visited_urls := ∅;
                      scraped_pages := [];
                      current_delay := current_delay self;
                      min_delay := min_delay self;
                      max_delay := max_delay self;
                      consecutive_errors := consecutive_errors self;
                      consecutive_successes := consecutive_successes self |};
                 world := w;
                 url_queue := [(base_url, 0)];
                 sleeps := [];
                 fetches := [] |})
    end.

(** [WebScraper.scrape_site], run for at most [fuel] iterations of its
    loop: the pages returned and the state reached, or [None] when the
    loop has not ended by then. *)
Definition scrape_site (fuel : nat) (self : t) (w : W) (base_url : str)
    (max_depth max_pages : option Z) : option (list Page * Crawl) :=
  match scrape_site_start self w base_url max_depth max_pages with
  | None =>
      Some ([], {| scraper := self; world := w; url_queue := [];
                   sleeps := []; fetches := [] |})
  | Some (job, c) =>
      let c' := run job fuel c in
      match loop_step job c' with
      | None => Some (scraped_pages (scraper c'), c')
      | Some _ => None
      end
  end.

End WithEnv.

End WebScraper.

(** ** [scrape_school_urls]: pages and lists as shared objects

    [scrape_school_urls] hands the list [scraper.scraped_pages] itself to
    the cache, and sets ['source'] on page dictionaries that the cache may
    hold too.  Here a list of pages and a page dictionary are objects in a
    memory: a list holds the addresses of its pages, and the cache holds
    the address of a list.  An address is the index at which the object
    was created. *)

Module Shared.

Import UrlParse Url.

Record Mem := mkMem {
  page_objs : list Page;
  list_objs : list (list nat)
}.

(** [[]]: a new list. *)
Definition new_list (m : Mem) : nat * Mem :=
  (length (list_objs m),
   {| page_objs := page_objs m; list_objs := list_objs m ++ [[]] |}).

(** New page dictionaries, one for each page of [ps]. *)
Definition new_pages (ps : list Page) (m : Mem) : list nat * Mem :=
  (seq (length (page_objs m)) (length ps),
   {| page_objs := page_objs m ++ ps; list_objs := list_objs m |}).

Definition read_list (m : Mem) (l : nat) : list nat :=
  match list_objs m !! l with
  | Some refs => refs
  | None => []
  end.

Definition write_list (l : nat) (refs : list nat) (m : Mem) : Mem :=
  {| page_objs := page_objs m; list_objs := <[l := refs]> (list_objs m) |}.

(** The dictionary [page] once [page['source'] = source] has run. *)
Definition with_source (source : str) (page : Page) : Page :=
  {| page_url := page_url page;
     page_text := page_text page;
     page_links := page_links page;
     page_status_code := page_status_code page;
     page_content_length := page_content_length page;
     page_source := Some source |}.

(** [for page in pages: page['source'] = source] *)
Definition set_sources (source : str) (refs : list nat) (m : Mem) : Mem :=
  {| page_objs :=
       fold_left (fun objs p => alter (with_source source) p objs) refs
         (page_objs m);
     list_objs := list_objs m |}.

(** The pages that a list of addresses stands for. *)
Definition deref (m : Mem) (refs : list nat) : list Page :=
  omap (fun p => page_objs m !! p) refs.

(** [URLCache], an entry holding the address of its list of pages. *)
Record Entry := mkEntry {
  pages : nat;
  scraped_at : str;
  schools : gset str
}.

Record Cache := mkCache {
  _cache : gmap str Entry;
  _normalizer : option (str -> str)
}.

Definition set_normalizer (self : Cache) (normalizer_func : str -> str)
  : Cache :=
  {| _cache := _cache self; _normalizer := Some normalizer_func |}.

Definition normalize_key (self : Cache) (url : str) : str :=
  match _normalizer self with
  | Some f => f url
  | None =>
      match urlparse (rstrip_char "/" (lower url)) with
      | Some parsed =>
          scheme parsed ++ L "://" ++ netloc parsed ++
          rstrip_char "/" (path parsed)
      | None => rstrip_char "/" (lower url)
      end
  end.

Definition get (self : Cache) (url : str) : option nat :=
  match _cache self !! normalize_key self url with
  | Some entry => Some (pages entry)
  | None => None
  end.

Definition set (self : Cache) (now : str) (url : str) (pages_ : nat)
    (school_id : option str) : Cache :=
  let key := normalize_key self url in
  let cache1 :=
    match _cache self !! key with
    | None => <[key := {| pages := pages_; scraped_at := now;
                           schools := ∅ |}]> (_cache self)
    | Some _ => _cache self
    end in
  let cache2 :=
    match school_id with
    | Some ((_ :: _) as sid) =>
        alter (fun e => {| pages := pages e; scraped_at := scraped_at e;
                           schools := {[sid]} ∪ schools e |}) key cache1
    | _ => cache1
    end in
  {| _cache := cache2; _normalizer := _normalizer self |}.

Section WithEnv.

Context {W : Type}.
Variable env : Net.Env W.
(** [datetime.now().isoformat()] *)
Variable clock : W -> str.

(** The memory, [_global_url_cache] and the network. *)
Record State := mkState {
  mem : Mem;
  cache : Cache;
  net : W
}.

(** [scraper.scrape_site(url)] for a scraper whose [scraped_pages] is the
    list at [l]: the address of the list returned, which is a new empty
    list when the URL is refused and [l] otherwise, cleared and filled with
    the new pages of this crawl. *)
Definition scrape_site (fuel : nat) (self : WebScraper.t) (l : nat)
    (url : str) (st : State) : option (nat * WebScraper.t * State) :=
  match WebScraper.scrape_site env fuel self (net st) url None None with
  | None => None
  | Some (pages, c) =>
      match WebScraper.scrape_site_start self (net st) url None None with
      | None =>
          let '(r, m) := new_list (mem st) in
          Some (r, self, {| mem := m; cache := cache st; net := net st |})
      | Some _ =>
          let '(refs, m) := new_pages pages (mem st) in
          Some (l, WebScraper.scraper c,
                {| mem := write_list l refs m; cache := cache st;
                   net := WebScraper.world c |})
      end
  end.

(** The helper [normalize_url] of [scrape_school_urls]. *)
Definition normalize_url (url : option str) : option str :=
  match url with
  | Some ((_ :: _) as u) => Some (lower (rstrip_char "/" u))
  | _ => None
  end.

(** Lines 1266-1275 and 1278-1287: look [url] up in the cache.  The state,
    [cached_pages] and [urls_to_scrape]. *)
Definition from_cache (source url : str) (school_id : option str)
    (acc : State * list nat * list (str * str))
  : State * list nat * list (str * str) :=
  let '(st, cached_pages, urls_to_scrape) := acc in
  let miss := (st, cached_pages, urls_to_scrape ++ [(source, url)]) in
  match get (cache st) url with
  | Some cached =>
      match read_list (mem st) cached with
      | [] => miss
      | refs =>
          ({| mem := set_sources source refs (mem st);
              cache := set (cache st) (clock (net st)) url cached school_id;
              net := net st |},
           cached_pages ++ refs, urls_to_scrape)
      end
  | None => miss
  end.

(** Lines 1295-1307: the loop over [urls_to_scrape]. *)
Fixpoint scrape_all (fuel : nat) (scraper : WebScraper.t) (l : nat)
    (school_id : option str) (urls_to_scrape : list (str * str))
    (st : State) (all_pages : list nat) : option (State * list nat) :=
  match urls_to_scrape with
  | [] => Some (st, all_pages)
  | (url_type, url) :: rest =>
      match url with
      | [] => scrape_all fuel scraper l school_id rest st all_pages
      | _ =>
          match scrape_site fuel scraper l url st with
          | None => None
          | Some (pages, scraper, st) =>
              let refs := read_list (mem st) pages in
              let st :=
                {| mem := set_sources url_type refs (mem st);
                   cache := set (cache st) (clock (net st)) url pages
                              school_id;
                   net := net st |} in
              let scraper :=
                if str_eqb url_type (L "district")
                then {| WebScraper.config := WebScraper.config scraper;
                        WebScraper.has_cloudscraper :=
                          WebScraper.has_cloudscraper scraper;
                        WebScraper.visited_urls := ∅;
                        WebScraper.scraped_pages :=
                          WebScraper.scraped_pages scraper;
                        WebScraper.current_delay :=
                          WebScraper.current_delay scraper;
                        WebScraper.min_delay := WebScraper.min_delay scraper;
                        WebScraper.max_delay := WebScraper.max_delay scraper;
                        WebScraper.consecutive_errors :=
                          WebScraper.consecutive_errors scraper;
                        WebScraper.consecutive_successes :=
                          WebScraper.consecutive_successes scraper |}
                else scraper in
              scrape_all fuel scraper l school_id rest st (all_pages ++ refs)
          end
      end
  end.

(** [scrape_school_urls(school_url, district_url, use_cache, school_id)],
    for a scraper configured by [cfg]: the addresses of the pages returned
    and the state afterwards, [None] when a crawl has not ended within
    [fuel] iterations.  [use_cache] is not read by the function.  The
    optional file cache, which is off by default and only writes a file, is
    left out. *)
Definition scrape_school_urls (cfg : WebScraper.Config)
    (cloudscraper_ok : bool) (fuel : nat)
    (school_url district_url : option str) (school_id : option str)
    (st : State) : option (list nat * State) :=
  let scraper := WebScraper.init cfg cloudscraper_ok in
  let '(l, m) := new_list (mem st) in
  let st := {| mem := m;
               cache := set_normalizer (cache st) normalize_url_for_cache;
               net := net st |} in
  let school_url_norm := normalize_url school_url in
  let district_url_norm := normalize_url district_url in
  let acc := (st, [], []) in
  let acc :=
    match school_url with
    | Some ((_ :: _) as u) => from_cache (L "school") u school_id acc
    | _ => acc
    end in
  let acc :=
    match district_url with
    | Some ((_ :: _) as u) =>
        if bool_decide (district_url_norm <> school_url_norm)
        then from_cache (L "district") u school_id acc
        else acc
    | _ => acc
    end in
  let '(st, cached_pages, urls_to_scrape) := acc in
  match urls_to_scrape, cached_pages with
  | [], _ :: _ => Some (cached_pages, st)
  | _, _ =>
      match scrape_all fuel scraper l school_id urls_to_scrape st [] with
      | None => None
      | Some (st, all_pages) => Some (cached_pages ++ all_pages, st)
      end
  end.

End WithEnv.

End Shared.

(** * Vocabulary of the statements *)

Import TermSearcher UrlParse Url.

(** The positions at which [term] matches [text], overlapping or not. *)
Definition match_positions (term text : str) : list nat :=
  List.filter (match_at term text) (seq 0 (S (length text))).

(** [term] occurs in [text]. *)
Definition occurs (term text : str) : bool :=
  match match_positions term text with [] => false | _ => true end.

(** Successive positions are at least [n] apart. *)
Fixpoint spaced (n : nat) (ps : list nat) : Prop :=
  match ps with
  | [] => True
  | p :: ps' => Forall (fun q => (p + n <= q)%nat) ps' /\ spaced n ps'
  end.

(** A non-empty run of non-whitespace characters. *)
Definition is_word (w : str) : Prop :=
  w <> [] /\ forallb (fun c => negb (is_space c)) w = true.

(** Whitespace is collapsed: the only whitespace characters are single
    spaces between two words. *)
Fixpoint collapsed_from (after_space : bool) (s : str) : bool :=
  match s with
  | [] => negb after_space
  | c :: s' =>
      if is_space c
      then negb after_space && char_eqb c " " && collapsed_from true s'
      else collapsed_from false s'
  end.

Definition collapsed (s : str) : bool :=
  match s with [] => true | _ => collapsed_from true s end.

(** The occurrence expected for a match of [term] at position [p]: its
    context is the window from [p - h] to [p + |term| + h], cut at the
    bounds of the text, with [h] half the context length. *)
Definition expected_occurrence (self : TermSearcher.t) (text term : str)
    (p : nat) : Occurrence :=
  let n := length term in
  let h := Z.to_nat (context_length self / 2) in
  let lo := (p - h)%nat in
  let hi := Nat.min (length text) (p + n + h) in
  {| occ_term := term;
     occ_start := p;
     occ_end := (p + n)%nat;
     occ_context :=
       join (L " ") (split_ws (strip (take (hi - lo) (drop lo text))));
     occ_matched_text := take n (drop p text) |}.

(** Some configured term occurs in the text of the page. *)
Definition page_has_term (self : TermSearcher.t) (page : Page) : bool :=
  existsb (fun term => occurs term (page_text page)) (search_terms self).

(** The result that [search_pages] keeps for a page. *)
Definition result_of_page (self : TermSearcher.t) (page : Page)
  : SearchResult :=
  let result := search_text self (page_text page) (page_url page) in
  {| res_url := res_url result;
     res_terms_found := res_terms_found result;
     res_occurrences := res_occurrences result;
     res_total_matches := res_total_matches result;
     res_source := Some (source_or_unknown (page_source page)) |}.

(** The results whose source tag is [source]. *)
Definition results_from (source : str) (rs : list SearchResult)
  : list SearchResult :=
  List.filter (fun r => str_eqb (source_or_unknown (res_source r)) source) rs.

(** The terms found on some page of [rs]. *)
Definition terms_of (rs : list SearchResult) : gset str :=
  list_to_set (flat_map res_terms_found rs).

(** The sum of the match counts of [rs]. *)
Definition matches_of (rs : list SearchResult) : Z :=
  foldr (fun r acc => res_total_matches r + acc) 0 rs.

(** The snippets of the occurrences of [rs], page by page. *)
Definition snippet_of (r : SearchResult) (o : Occurrence) : Snippet :=
  {| snip_term := occ_term o;
     snip_context := occ_context o;
     snip_url := res_url r;
     snip_source := source_or_unknown (res_source r) |}.

Definition snippets_of (rs : list SearchResult) : list Snippet :=
  flat_map (fun r => map (snippet_of r) (res_occurrences r)) rs.

(** The entries of the aggregated dictionary once the results [rs] have
    gone through the loop, [n] being the value given to
    ['pages_with_terms']. *)
Definition entries_after (n : Z) (rs : list SearchResult)
  : list (str * pyval) :=
  [ (L "terms_found", VSet (terms_of rs));
    (L "page_urls", VList (map res_url rs));
    (L "context_snippets", VSnippets (snippets_of rs));
    (L "total_occurrences", VInt (matches_of rs));
    (L "pages_with_terms", VInt n);
    (L "school_terms_found", VSet (terms_of (results_from (L "school") rs)));
    (L "school_page_urls",
     VList (map res_url (results_from (L "school") rs)));
    (L "school_total_occurrences",
     VInt (matches_of (results_from (L "school") rs)));
    (L "school_pages_with_terms",
     VInt (Z.of_nat (length (results_from (L "school") rs))));
    (L "district_terms_found",
     VSet (terms_of (results_from (L "district") rs)));
    (L "district_page_urls",
     VList (map res_url (results_from (L "district") rs)));
    (L "district_total_occurrences",
     VInt (matches_of (results_from (L "district") rs)));
    (L "district_pages_with_terms",
     VInt (Z.of_nat (length (results_from (L "district") rs)))) ].

(** The entries of the dictionary that [aggregate_results] returns: the
    three sets of terms have become sorted lists. *)
Definition entries_final (rs : list SearchResult) : list (str * pyval) :=
  [ (L "terms_found", VList (sorted (elements (terms_of rs))));
    (L "page_urls", VList (map res_url rs));
    (L "context_snippets", VSnippets (snippets_of rs));
    (L "total_occurrences", VInt (matches_of rs));
    (L "pages_with_terms", VInt (Z.of_nat (length rs)));
    (L "school_terms_found",
     VList (sorted (elements (terms_of (results_from (L "school") rs)))));
    (L "school_page_urls",
     VList (map res_url (results_from (L "school") rs)));
    (L "school_total_occurrences",
     VInt (matches_of (results_from (L "school") rs)));
    (L "school_pages_with_terms",
     VInt (Z.of_nat (length (results_from (L "school") rs))));
    (L "district_terms_found",
     VList (sorted (elements (terms_of (results_from (L "district") rs)))));
    (L "district_page_urls",
     VList (map res_url (results_from (L "district") rs)));
    (L "district_total_occurrences",
     VInt (matches_of (results_from (L "district") rs)));
    (L "district_pages_with_terms",
     VInt (Z.of_nat (length (results_from (L "district") rs)))) ].

(** Updates and lookups on a list of entries, the first entry of a key
    being the one that counts. *)
Definition alist_alter (f : pyval -> pyval) (k : str)
    (l : list (str * pyval)) : list (str * pyval) :=
  map (fun kv => if str_eqb (fst kv) k then (fst kv, f (snd kv)) else kv) l.

Fixpoint alist_lookup (k : str) (l : list (str * pyval)) : option pyval :=
  match l with
  | [] => None
  | kv :: l' => if str_eqb (fst kv) k then Some (snd kv) else alist_lookup k l'
  end.

(** One roll-up read off an aggregated dictionary: the terms, the page
    URLs, the number of occurrences and the number of pages with terms
    stored under the keys that start with [prefix]; [None] when one of them
    is missing or is not of its type. *)
Definition rollup (d : gmap str pyval) (prefix : str)
  : option (list str * list str * Z * Z) :=
  match d !! (prefix ++ L "terms_found"), d !! (prefix ++ L "page_urls"),
        d !! (prefix ++ L "total_occurrences"),
        d !! (prefix ++ L "pages_with_terms") with
  | Some (VList terms), Some (VList urls), Some (VInt total), Some (VInt n) =>
      Some (terms, urls, total, n)
  | _, _, _, _ => None
  end.

(** The roll-up expected for the results [rs]. *)
Definition expected_rollup (rs : list SearchResult)
  : list str * list str * Z * Z :=
  (sorted (elements (terms_of rs)), map res_url rs, matches_of rs,
   Z.of_nat (length rs)).

(** The order of [sorted]. *)
Definition str_le (a b : str) : Prop := str_leb a b = true.

(** The dictionary [d] holds, under the keys that start with [prefix], the
    roll-up of the results [rs]: their terms as a sorted list without
    duplicates, their page URLs in order, the sum of their match counts and
    their number. *)
Definition is_rollup_of (d : gmap str pyval) (prefix : str)
    (rs : list SearchResult) : Prop :=
  exists terms,
    rollup d prefix =
      Some (terms, map res_url rs, matches_of rs, Z.of_nat (length rs)) /\
    Sorted str_le terms /\ NoDup terms /\
    forall t, t ∈ terms <-> exists r, r ∈ rs /\ t ∈ res_terms_found r.

(** A result without a source tag, as [search_text] returns it. *)
Definition untagged_result : SearchResult :=
  {| res_url := L "https://ex.org/a";
     res_terms_found := [L "race equity"];
     res_occurrences := [];
     res_total_matches := 1;
     res_source := None |}.

(** The arguments of one call of [URLCache.set], with the time of the
    call. *)
Record SetCall := mkSetCall {
  call_now : str;
  call_url : str;
  call_pages : list Page;
  call_school_id : option str
}.

(** A sequence of calls of [URLCache.set]. *)
Definition apply_sets (c : URLCache.t) (calls : list SetCall) : URLCache.t :=
  fold_left
    (fun c k =>
       URLCache.set c (call_now k) (call_url k) (call_pages k)
         (call_school_id k))
    calls c.

(** The schools of an entry after a call of [set] with [school_id]. *)
Definition schools_with (school_id : option str) (schools : gset str)
  : gset str :=
  match school_id with
  | Some [] => schools
  | Some sid => {[sid]} ∪ schools
  | None => schools
  end.

(** A page to store. *)
Definition page_a : Page :=
  mkPage (L "https://ex.org/a") (L "About race equity") [] 200 17 None.

Definition page_b : Page :=
  mkPage (L "https://ex.org/b") (L "Lunch menu") [] 200 10 None.

(** The query of a canonical URL, with its question mark. *)
Definition query_suffix (q : str) : str :=
  match q with [] => [] | _ => L "?" ++ q end.

(** The netloc passes the bracket test of [urlsplit]. *)
Definition brackets_ok (n : str) : bool :=
  negb ((has_char "[" n && negb (has_char "]" n)) ||
        (has_char "]" n && negb (has_char "[" n))).

(** The path is empty or starts with a slash. *)
Definition rooted (p : str) : Prop :=
  match p with [] => True | c :: _ => c = "/"%char end.

(** A computation of [scrape_page] is guarded by [Q] when every value it
    yields satisfies [Q] and every [return] in it returns [None]. *)
Definition guarded {W A : Type} (m : W -> WebScraper.Ctl A * W)
    (Q : A -> Prop) : Prop :=
  forall w,
    match fst (m w) with
    | WebScraper.Val a => Q a
    | WebScraper.Return r => r = None
    | WebScraper.Raise _ => True
    end.

(** The URL passed the check of [is_external_redirect]. *)
Definition internal (base_domain : option str) (final_url : str) : Prop :=
  WebScraper.is_external_redirect base_domain final_url = false.

(** *** A small site

    The site [https://ex.org]: its home page links to [/b], [/c] and
    [/files/list]; [/c] links to [/b]; the server refuses the connections
    for [/b]; [/r] redirects to another host.  The network has no state. *)

Definition url_home : str := L "https://ex.org".
Definition url_b : str := L "https://ex.org/b".
Definition url_c : str := L "https://ex.org/c".
Definition url_files : str := L "https://ex.org/files/list".
Definition url_r : str := L "https://ex.org/r".

Definition example_get (client : Net.Client) (url : str)
    (allow_redirects : bool) (verify : option bool) (w : unit)
  : (Net.Response + Net.Exn) * unit :=
  if str_eqb url url_b then
    (inr (Net.OtherError (L "connection to ex.org refused")), tt)
  else if str_eqb url url_r then
    (inl {| Net.status_code := 302;
            Net.location := L "https://other.example/";
            Net.url := url;
            Net.text := Some [];
            Net.text_reencoded := None |}, tt)
  else
    (inl {| Net.status_code := 200;
            Net.location := [];
            Net.url := url;
            Net.text := Some (L "page " ++ url);
            Net.text_reencoded := None |}, tt).

Definition example_hrefs (html : str) : list str :=
  if str_eqb html (L "page https://ex.org") then [url_b; url_c; url_files]
  else if str_eqb html (L "page https://ex.org/c") then [url_b]
  else [].

(** Every link of the site is absolute, so [urljoin] returns it. *)
Definition example_env : Net.Env unit :=
  {| Net.http_get := example_get;
     Net.urljoin := fun _ href => Some href;
     Net.extract_text := fun html => html;
     Net.find_hrefs := example_hrefs |}.

(** A configuration with one skip pattern, [/files/], no delay and no
    content filter. *)
Definition example_config : WebScraper.Config :=
  {| WebScraper.cfg_max_depth := 3;
     WebScraper.cfg_max_pages_per_site := 10;
     WebScraper.cfg_delay := 0;
     WebScraper.cfg_min_delay := 0;
     WebScraper.cfg_max_delay := 0;
     WebScraper.cfg_verify_ssl := true;
     WebScraper.cfg_ssl_fallback_unverified := true;
     WebScraper.cfg_ssl_retry_with_unverified := true;
     WebScraper.cfg_min_content_length := 200;
     WebScraper.cfg_skip_url_patterns := [fun s => contains s (L "/files/")];
     WebScraper.cfg_quick_content_check := false;
     WebScraper.cfg_require_relevant_content := false |}.

Definition example_scraper : WebScraper.t :=
  WebScraper.init example_config false.

(** *** A page behind a bot protection

    [https://ex.org/p] answers the plain session with a challenge page.
    The cloudscraper session is redirected to another host, which answers
    [403 Forbidden]. *)

Definition url_p : str := L "https://ex.org/p".

Definition challenge_reply : Net.Response :=
  {| Net.status_code := 200;
     Net.location := [];
     Net.url := url_p;
     Net.text := Some (L "Just a moment...");
     Net.text_reencoded := None |}.

Definition foreign_reply : Net.Response :=
  {| Net.status_code := 403;
     Net.location := [];
     Net.url := L "https://evil.example/denied";
     Net.text := Some (L "forbidden by evil.example");
     Net.text_reencoded := None |}.

Definition protected_env : Net.Env unit :=
  {| Net.http_get := fun client _ _ _ w =>
       match client with
       | Net.Session => (inl challenge_reply, w)
       | Net.Cloudscraper => (inl foreign_reply, w)
       end;
     Net.urljoin := fun _ href => Some href;
     Net.extract_text := fun html => html;
     Net.find_hrefs := fun _ => [] |}.

(** *** The loop of [scrape_site] *)

(** In a record of fetches, latest first: once a fetch of a URL has returned
    a page, that URL is not fetched again. *)
Definition no_refetch (log : list (str * bool)) : Prop :=
  forall later u earlier,
    log = later ++ (u, true) :: earlier -> u ∉ map fst later.

(** What the loop of [scrape_site] keeps true, for a scraper configured by
    [cfg]: the URLs whose fetch returned a page are visited, and so are the
    URLs of the collected pages; no such URL is fetched again; the pages
    passed the domain check and are at most [max_pages]; the queue holds no URL that matches a skip
    pattern below the depth of the base URL. *)
Definition crawl_inv {W : Type} (cfg : WebScraper.Config)
    (job : WebScraper.Job) (c : WebScraper.Crawl (W:=W)) : Prop :=
  let self := WebScraper.scraper c in
  WebScraper.config self = cfg /\
  (forall u, (u, true) ∈ WebScraper.fetches c ->
             u ∈ WebScraper.visited_urls self) /\
  no_refetch (WebScraper.fetches c) /\
  (forall page, page ∈ WebScraper.scraped_pages self ->
                page_url page ∈ WebScraper.visited_urls self) /\
  (forall page, page ∈ WebScraper.scraped_pages self ->
                internal (Some (WebScraper.base_domain job)) (page_url page)) /\
  Z.of_nat (length (WebScraper.scraped_pages self))
    <= Z.max 0 (WebScraper.max_pages job) /\
  (forall link depth,
     (link, depth) ∈ WebScraper.url_queue c ->
     0 <= depth /\
     (0 < depth -> WebScraper.should_skip_url self link = false)).

(** The crawl of the small site from its home page, as
    [scrape_site(url_home)] starts it. *)
Definition example_job : WebScraper.Job :=
  {| WebScraper.base_domain := L "ex.org";
     WebScraper.max_depth := 3;
     WebScraper.max_pages := 10 |}.

Definition example_start : WebScraper.Crawl (W:=unit) :=
  {| WebScraper.scraper := example_scraper;
     WebScraper.world := tt;
     WebScraper.url_queue := [(url_home, 0)];
     WebScraper.sleeps := [];
     WebScraper.fetches := [] |}.

(** *** A chain of pages

    A site where the page at [u] has one link, to [u/n], crawled with a
    delay of one second that may go down to half a second and up to four
    seconds. *)
Definition chain_env : Net.Env unit :=
  {| Net.http_get := example_get;
     Net.urljoin := fun _ href => Some href;
     Net.extract_text := fun html => html;
     Net.find_hrefs := fun html => [drop 5 html ++ L "/n"] |}.

Definition chain_config : WebScraper.Config :=
  {| WebScraper.cfg_max_depth := 10;
     WebScraper.cfg_max_pages_per_site := 50;
     WebScraper.cfg_delay := 1;
     WebScraper.cfg_min_delay := 1 # 2;
     WebScraper.cfg_max_delay := 4;
     WebScraper.cfg_verify_ssl := true;
     WebScraper.cfg_ssl_fallback_unverified := true;
     WebScraper.cfg_ssl_retry_with_unverified := true;
     WebScraper.cfg_min_content_length := 200;
     WebScraper.cfg_skip_url_patterns := [];
     WebScraper.cfg_quick_content_check := false;
     WebScraper.cfg_require_relevant_content := false |}.

Definition chain_scraper : WebScraper.t :=
  WebScraper.init chain_config false.

Definition chain_job : WebScraper.Job :=
  {| WebScraper.base_domain := L "ex.org";
     WebScraper.max_depth := 10;
     WebScraper.max_pages := 50 |}.

Definition chain_start : WebScraper.Crawl (W:=unit) :=
  {| WebScraper.scraper := chain_scraper;
     WebScraper.world := tt;
     WebScraper.url_queue := [(url_home, 0)];
     WebScraper.sleeps := [];
     WebScraper.fetches := [] |}.

(** *** The requests of a crawl *)

(** A computation of [scrape_page] keeps the property [P] of the
    network. *)
Definition preserves {W A : Type} (P : W -> Prop)
    (m : W -> WebScraper.Ctl A * W) : Prop :=
  forall w, P w -> P (snd (m w)).

(** The network [env] with a record of the requests: the state is paired
    with the URLs passed to [get], latest first. *)
Definition recording {W : Type} (env : Net.Env W) : Net.Env (W * list str) :=
  {| Net.http_get := fun client url allow_redirects verify w =>
       let '(r, w') :=
         Net.http_get env client url allow_redirects verify (fst w) in
       (r, (w', url :: snd w));
     Net.urljoin := Net.urljoin env;
     Net.extract_text := Net.extract_text env;
     Net.find_hrefs := Net.find_hrefs env |}.

(** *** The pages of a crawl *)

(** The page was built by [scrape_page] from a response whose final URL
    passed the domain check. *)
Definition built {W : Type} (env : Net.Env W) (base_domain : option str)
    (page : Page) : Prop :=
  exists response html_content final_url,
    internal base_domain final_url /\
    page = WebScraper.page_of env response html_content final_url base_domain.

(** The queue of a breadth-first search: the depths do not go down along
    the queue, and are all one of two consecutive depths. *)
Definition breadth_first (queue : list (str * Z)) : Prop :=
  StronglySorted Z.le (map snd queue) /\
  exists lo, Forall (fun d => lo <= d <= lo + 1) (map snd queue).

(** The page has a text, and some configured term occurs in it. *)
Definition page_kept (self : TermSearcher.t) (page : Page) : bool :=
  match page_text page with
  | [] => false
  | _ => page_has_term self page
  end.

(** * Properties *)

(** ** The pattern scanner *)

Lemma match_here_length pat text :
  match_here pat text = true → (length pat ≤ length text)%nat.
Proof.
  revert text. induction pat as [|p pat IH]; intros [|c text]; simpl; try lia; try discriminate.
  intros H. apply andb_true_iff in H as [_ H]. apply IH in H. lia.
Qed.

Lemma scan_skip pat text pos k :
  (k ≤ length text)%nat →
  scan pat text pos k = scan pat (drop k text) (pos + k)%nat O.
Proof.
  revert text pos. induction k as [|k IH]; intros text pos Hk.
  - rewrite drop_0, Nat.add_0_r. reflexivity.
  - destruct text as [|c text]; simpl in Hk; [lia|].
    simpl. rewrite IH by lia. f_equal. lia.
Qed.

Lemma scan_miss pat c text pos :
  match_here pat (c :: text) = false →
  scan pat (c :: text) pos O = scan pat text (S pos) O.
Proof. intros H. simpl scan. rewrite H. reflexivity. Qed.

Lemma scan_hit pat text pos :
  pat ≠ [] →
  match_here pat text = true →
  scan pat text pos O =
  (pos, (pos + length pat)%nat) :: scan pat (drop (length pat) text) (pos + length pat)%nat O.
Proof.
  intros Hne Hm. pose proof (match_here_length _ _ Hm) as Hlen.
  destruct pat as [|p pat]; [done|].
  destruct text as [|c text]; [simpl in Hlen; lia|].
  cbn [scan]. rewrite Hm. f_equal.
  cbn [length] in *. rewrite scan_skip by lia.
  replace (S (length pat) - 1)%nat with (length pat) by lia.
  cbn [drop]. f_equal. lia.
Qed.

Lemma scan_gap pat text pos j :
  (j ≤ length text)%nat →
  (∀ i, (i < j)%nat → match_here pat (drop i text) = false) →
  scan pat text pos O = scan pat (drop j text) (pos + j)%nat O.
Proof.
  revert text pos. induction j as [|j IH]; intros text pos Hj Hno.
  - rewrite drop_0, Nat.add_0_r. reflexivity.
  - destruct text as [|c text]; simpl in Hj; [lia|].
    rewrite scan_miss by (apply (Hno O); lia).
    rewrite (IH text (S pos)); [|lia|].
    + cbn [drop]. f_equal. lia.
    + intros i Hi. apply (Hno (S i)). lia.
Qed.

Lemma scan_none pat text pos :
  (∀ i, (i ≤ length text)%nat → match_here pat (drop i text) = false) →
  scan pat text pos O = [].
Proof.
  revert pos. induction text as [|c text IH]; intros pos Hno.
  - simpl. specialize (Hno O). simpl in Hno. rewrite Hno by lia. reflexivity.
  - rewrite scan_miss by (apply (Hno O); simpl; lia).
    apply IH. intros i Hi. apply (Hno (S i)). simpl. lia.
Qed.

Lemma match_at_drop pat text k i :
  (k + i ≤ length text)%nat →
  match_here pat (drop i (drop k text)) = match_at pat text (k + i).
Proof.
  intros H. unfold match_at. rewrite drop_drop.
  destruct (Nat.leb_spec (k + i) (length text)); [reflexivity | lia].
Qed.

Lemma scan_spaced pat text ps :
  pat ≠ [] →
  ∀ k, (k ≤ length text)%nat →
  (∀ i, (k ≤ i)%nat → match_at pat text i = true ↔ i ∈ ps) →
  Forall (λ q, (k ≤ q)%nat) ps →
  spaced (length pat) ps →
  scan pat (drop k text) k O = map (λ p, (p, (p + length pat)%nat)) ps.
Proof.
  intros Hne.
  assert (Hpos : (0 < length pat)%nat) by (destruct pat; [done | simpl; lia]).
  induction ps as [|p ps IH]; intros k Hk Hiff Hge Hsp.
  - apply scan_none. intros i Hi. rewrite length_drop in Hi.
    rewrite match_at_drop by lia.
    destruct (match_at pat text (k + i)) eqn:E; [|reflexivity].
    apply Hiff in E; [|lia]. by apply elem_of_nil in E.
  - destruct Hsp as [Hfar Hsp].
    apply Forall_cons in Hge as [Hkp Hge].
    assert (Hp : match_at pat text p = true).
    { apply Hiff; [lia|]. apply elem_of_cons. by left. }
    pose proof Hp as Hp'. unfold match_at in Hp'.
    apply andb_true_iff in Hp' as [Hple Hmh].
    apply Nat.leb_le in Hple.
    pose proof (match_here_length _ _ Hmh) as Hlen. rewrite length_drop in Hlen.
    rewrite (scan_gap pat (drop k text) k (p - k)).
    + rewrite drop_drop. replace (k + (p - k))%nat with p by lia.
      rewrite scan_hit by done. cbn [map]. f_equal.
      rewrite drop_drop. apply IH.
      * lia.
      * intros i Hi. rewrite Hiff by lia. rewrite elem_of_cons.
        split; [intros [->|H]; [lia|done] | by right].
      * done.
      * done.
    + rewrite length_drop. lia.
    + intros i Hi. rewrite match_at_drop by lia.
      destruct (match_at pat text (k + i)) eqn:E; [|reflexivity].
      apply Hiff in E; [|lia]. apply elem_of_cons in E as [E|E]; [lia|].
      rewrite Forall_forall in Hfar. apply Hfar in E. lia.
Qed.

Lemma match_positions_spec term text i :
  i ∈ match_positions term text ↔ match_at term text i = true.
Proof.
  unfold match_positions. rewrite list_elem_of_In, filter_In, in_seq.
  split; [tauto|]. intros H. split; [|done].
  unfold match_at in H. apply andb_true_iff in H as [H _].
  apply Nat.leb_le in H. lia.
Qed.

Lemma finditer_spaced pat text ps :
  pat ≠ [] → match_positions pat text = ps → spaced (length pat) ps →
  finditer pat text = map (λ p, (p, (p + length pat)%nat)) ps.
Proof.
  intros Hne Hps Hsp. unfold finditer.
  rewrite <- (drop_0 text) at 1. apply scan_spaced; try done; try lia.
  - intros i _. rewrite <- Hps. symmetry. apply match_positions_spec.
  - apply Forall_forall. intros; lia.
Qed.

Lemma finditer_none pat text :
  occurs pat text = false → finditer pat text = [].
Proof.
  unfold occurs. intros H. destruct (match_positions pat text) eqn:E; [|done].
  apply scan_none. intros i Hi.
  destruct (match_here pat (drop i text)) eqn:Em; [|done].
  assert (i ∈ match_positions pat text) as Hin.
  { apply match_positions_spec. unfold match_at. rewrite Em.
    apply andb_true_iff. split; [by apply Nat.leb_le | done]. }
  rewrite E in Hin. by apply elem_of_nil in Hin.
Qed.

Lemma scan_sound pat text pos skip m :
  m ∈ scan pat text pos skip →
  ∃ i, (skip ≤ i ≤ length text)%nat ∧ match_here pat (drop i text) = true ∧ m = ((pos + i)%nat, (pos + i + length pat)%nat).
Proof.
  revert pos skip. induction text as [|c text IH]; intros pos skip.
  - destruct skip; simpl.
    + destruct (match_here pat []) eqn:E.
      * intros H. apply list_elem_of_singleton in H. exists O. simpl.
        rewrite Nat.add_0_r. done.
      * intros H. by apply elem_of_nil in H.
    + intros H. by apply elem_of_nil in H.
  - destruct skip as [|k]; cbn [scan].
    + destruct (match_here pat (c :: text)) eqn:E.
      * intros H. apply elem_of_cons in H as [->|H].
        -- exists O. rewrite Nat.add_0_r. simpl. split; [lia|done].
        -- apply IH in H as (i & Hi & Hm & ->). exists (S i). simpl.
           split; [lia|]. split; [done|]. f_equal; lia.
      * intros H. apply IH in H as (i & Hi & Hm & ->). exists (S i). simpl.
        split; [lia|]. split; [done|]. f_equal; lia.
    + intros H. apply IH in H as (i & Hi & Hm & ->). exists (S i). simpl.
      split; [lia|]. split; [done|]. f_equal; lia.
Qed.

Lemma finditer_nonempty_iff pat text :
  finditer pat text ≠ [] ↔ occurs pat text = true.
Proof.
  split.
  - intros H. destruct (occurs pat text) eqn:E; [done|].
    by apply finditer_none in E.
  - intros H Hnil. unfold occurs in H.
    destruct (match_positions pat text) as [|p ps] eqn:E; [done|].
    assert (Hp : p ∈ match_positions pat text) by (rewrite E; apply elem_of_cons; by left).
    apply match_positions_spec in Hp.
    (* the first match position is found *)
    unfold finditer in Hnil.
    assert (Hgen : ∀ text pos, (∃ i, match_at pat text i = true) → scan pat text pos O ≠ []).
    { clear. induction text as [|c text IH]; intros pos [i Hi].
      - unfold match_at in Hi. apply andb_true_iff in Hi as [Hle Hm].
        apply Nat.leb_le in Hle. simpl in Hle. assert (i = O) by lia. subst.
        simpl in *. rewrite Hm. done.
      - cbn [scan]. destruct (match_here pat (c :: text)) eqn:E; [done|].
        apply IH. destruct i as [|i].
        + unfold match_at in Hi. simpl in Hi. congruence.
        + exists i. unfold match_at in *. simpl in Hi. exact Hi. }
    eapply Hgen; [|exact Hnil]. eauto.
Qed.

(** ** [search_text] *)

Lemma slice_window (text : str) (p e : nat) (h : Z) :
  0 ≤ h →
  slice text (Z.max 0 (Z.of_nat p - h)) (Z.min (Z.of_nat (length text)) (Z.of_nat e + h)) =
  take (Nat.min (length text) (e + Z.to_nat h) - (p - Z.to_nat h))
       (drop (p - Z.to_nat h) text).
Proof.
  intros Hh. unfold slice, slice_bound.
  destruct (Z.ltb_spec (Z.max 0 (Z.of_nat p - h)) 0); [lia|].
  destruct (Z.ltb_spec (Z.min (Z.of_nat (length text)) (Z.of_nat e + h)) 0); [lia|].
  set (lo := (p - Z.to_nat h)%nat).
  set (hi := Nat.min (length text) (e + Z.to_nat h)).
  replace (Z.to_nat (Z.min (Z.min (Z.of_nat (length text)) (Z.of_nat e + h)) (Z.of_nat (length text)))) with hi by (unfold hi; lia).
  replace (Z.to_nat (Z.min (Z.max 0 (Z.of_nat p - h)) (Z.of_nat (length text)))) with (Nat.min lo (length text)) by (unfold lo; lia).
  destruct (Nat.le_gt_cases lo (length text)) as [Hle|Hgt].
  - rewrite Nat.min_l by done. reflexivity.
  - rewrite Nat.min_r by lia. rewrite !drop_ge by lia. by rewrite !take_nil.
Qed.

Lemma slice_exact (text : str) (p n : nat) :
  (p + n ≤ length text)%nat →
  slice text (Z.of_nat p) (Z.of_nat (p + n)) = take n (drop p text).
Proof.
  intros H. unfold slice, slice_bound.
  destruct (Z.ltb_spec (Z.of_nat p) 0); [lia|].
  destruct (Z.ltb_spec (Z.of_nat (p + n)) 0); [lia|].
  replace (Z.to_nat (Z.min (Z.of_nat p) (Z.of_nat (length text)))) with p by lia.
  replace (Z.to_nat (Z.min (Z.of_nat (p + n)) (Z.of_nat (length text)))) with (p + n)%nat by lia.
  f_equal. lia.
Qed.

Lemma fold_patterns_lookup (l : list str) (m : gmap str str) (k : str) :
  fold_left (λ m term, <[term := term]> m) l m !! k =
  if decide (k ∈ l) then Some k else m !! k.
Proof.
  revert m. induction l as [|t l IH]; intros m; simpl.
  - destruct (decide (k ∈ [])) as [H|H]; [by apply elem_of_nil in H | done].
  - rewrite IH. destruct (decide (k ∈ l)) as [H|H].
    + rewrite decide_True; [done | by apply elem_of_cons; right].
    + destruct (decide (t = k)) as [->|Hne].
      * rewrite lookup_insert_eq. rewrite decide_True; [done | by apply elem_of_cons; left].
      * rewrite lookup_insert_ne by done.
        rewrite decide_False; [done|]. intros Hin. apply elem_of_cons in Hin as [->|?]; done.
Qed.

Lemma init_patterns terms ctx term :
  term ∈ search_terms (init terms ctx) →
  patterns (init terms ctx) !! term = Some term.
Proof.
  intros H. unfold init in *. cbn [patterns search_terms] in *.
  rewrite fold_patterns_lookup. by rewrite decide_True.
Qed.

Lemma find_term_occurrences_init terms ctx text term :
  let self := init terms ctx in
  term ∈ search_terms self →
  find_term_occurrences self text term =
  map (λ m : nat * nat,
         {| occ_term := term; occ_start := fst m; occ_end := snd m;
            occ_context := context_of self text (fst m) (snd m);
            occ_matched_text := slice text (Z.of_nat (fst m)) (Z.of_nat (snd m)) |})
      (finditer term text).
Proof.
  intros self H. subst self. unfold find_term_occurrences.
  by rewrite (init_patterns _ _ _ H).
Qed.

Lemma fold_search_step_skip self text l acc :
  (∀ t, t ∈ l → find_term_occurrences self text t = []) →
  fold_left (search_step self text) l acc = acc.
Proof.
  revert acc. induction l as [|t l IH]; intros acc H; simpl; [done|].
  assert (search_step self text acc t = acc) as ->.
  { unfold search_step. destruct acc as [[? ?] ?].
    rewrite (H t); [done | by apply elem_of_cons; left]. }
  apply IH. intros t' Ht'. apply H. by apply elem_of_cons; right.
Qed.

Lemma split_ws_aux_words s cur :
  forallb (λ c, negb (is_space c)) cur = true →
  Forall is_word (split_ws_aux s cur).
Proof.
  revert cur. induction s as [|c s IH]; intros cur Hcur; simpl.
  - destruct cur as [|x cur]; [constructor|].
    constructor; [|constructor]. split.
    + intros H. apply (f_equal length) in H. rewrite length_rev in H. done.
    + rewrite forallb_forall in *. intros y Hy. apply Hcur. by apply in_rev.
  - destruct (is_space c) eqn:E.
    + destruct cur as [|x cur]; [by apply IH|].
      constructor; [|by apply IH]. split.
      * intros H. apply (f_equal length) in H. rewrite length_rev in H. done.
      * rewrite forallb_forall in *. intros y Hy. apply Hcur. by apply in_rev.
    + apply IH. simpl. by rewrite E.
Qed.

Lemma collapsed_from_word b w rest :
  is_word w → collapsed_from b (w ++ rest) = collapsed_from false rest.
Proof.
  intros [Hne Hw]. revert b. induction w as [|c w IH]; intros b; [done|].
  simpl in Hw. apply andb_true_iff in Hw as [Hc Hw].
  apply negb_true_iff in Hc. simpl. rewrite Hc.
  destruct w as [|c' w]; [done|]. by apply IH.
Qed.

Lemma join_words_collapsed ws :
  Forall is_word ws → ws ≠ [] → collapsed_from true (join (L " ") ws) = true.
Proof.
  induction ws as [|w ws IH]; intros Hall Hne; [done|].
  apply Forall_cons in Hall as [Hw Hall].
  destruct ws as [|w' ws].
  - simpl. rewrite <- (app_nil_r w). by rewrite collapsed_from_word.
  - change (join (L " ") (w :: w' :: ws)) with (w ++ L " " ++ join (L " ") (w' :: ws)).
    rewrite collapsed_from_word by done.
    change (L " " ++ join (L " ") (w' :: ws)) with (" "%char :: join (L " ") (w' :: ws)).
    cbn [collapsed_from]. 
    replace (is_space " ") with true by reflexivity.
    replace (char_eqb " " " ") with true by reflexivity.
    simpl. by apply IH.
Qed.

Lemma collapse_collapsed s : collapsed (join (L " ") (split_ws s)) = true.
Proof.
  unfold collapsed.
  destruct (join (L " ") (split_ws s)) eqn:E; [done|]. rewrite <- E.
  apply join_words_collapsed.
  - by apply split_ws_aux_words.
  - intros H. by rewrite H in E.
Qed.

(** C8.  For a searcher built by [TermSearcher.__init__]: a text in which
    no configured term occurs gives [terms_found = []], [total_matches = 0]
    and no occurrence; a text in which one configured term matches (case
    folded) at exactly three positions, none overlapping the next, and in
    which no other configured term occurs, gives exactly three occurrences,
    each with the context window of half-width [context_length // 2] on
    each side, cut at the bounds of the text and with its whitespace
    collapsed. *)
Theorem search_text_matches (terms : option (list str)) (ctx : option Z)
    (text url : str) :
  let self := init terms ctx in
  let result := search_text self text url in
  (forallb (λ term, negb (occurs term text)) (search_terms self) = true →
   res_terms_found result = [] ∧ res_total_matches result = 0 ∧
   res_occurrences result = [])
  ∧
  (∀ (term : str) (before after : list str) (p1 p2 p3 : nat),
     search_terms self = before ++ term :: after →
     forallb (λ t, negb (occurs t text)) (before ++ after) = true →
     term ≠ [] →
     0 ≤ context_length self →
     match_positions term text = [p1; p2; p3] →
     (p1 + length term ≤ p2)%nat → (p2 + length term ≤ p3)%nat →
     res_terms_found result = [term] ∧ res_total_matches result = 3 ∧
     res_occurrences result =
       [ expected_occurrence self text term p1;
         expected_occurrence self text term p2;
         expected_occurrence self text term p3 ] ∧
     Forall (λ o, collapsed (occ_context o) = true) (res_occurrences result)).
Proof.
  intros self result. split.
  - intros Hno. rewrite forallb_forall in Hno.
    assert (Hskip : ∀ t, t ∈ search_terms self →
                         find_term_occurrences self text t = []).
    { intros t Ht. unfold self. rewrite find_term_occurrences_init by done.
      rewrite finditer_none; [done|].
      apply list_elem_of_In in Ht. apply Hno in Ht. by apply negb_true_iff in Ht. }
    unfold result, search_text.
    rewrite fold_search_step_skip by done. cbn.
    by rewrite elements_empty.
  - intros term before after p1 p2 p3 Hterms Hothers Hne Hctx Hpos H12 H23.
    rewrite forallb_forall in Hothers.
    assert (Hin : term ∈ search_terms self).
    { rewrite Hterms. apply elem_of_app. right. apply elem_of_cons. by left. }
    assert (Hskip : ∀ l acc, (∀ t, t ∈ l → t ∈ before ++ after) →
              fold_left (search_step self text) l acc = acc).
    { intros l acc Hl. apply fold_search_step_skip. intros t Ht.
      assert (t ∈ search_terms self) as Hts.
      { rewrite Hterms. apply Hl in Ht. apply elem_of_app in Ht as [?|?];
          apply elem_of_app; [by left | right; apply elem_of_cons; by right]. }
      unfold self. rewrite find_term_occurrences_init by done.
      rewrite finditer_none; [done|].
      apply Hl, list_elem_of_In, Hothers in Ht. by apply negb_true_iff in Ht. }
    assert (Hfind : find_term_occurrences self text term =
              [ expected_occurrence self text term p1;
                expected_occurrence self text term p2;
                expected_occurrence self text term p3 ]).
    { unfold self. rewrite find_term_occurrences_init by done.
      rewrite (finditer_spaced term text [p1; p2; p3]); try done.
      - assert (Hb : ∀ p, p ∈ [p1; p2; p3] → (p + length term ≤ length text)%nat).
        { intros p Hp. rewrite <- Hpos in Hp. apply match_positions_spec in Hp.
          unfold match_at in Hp. apply andb_true_iff in Hp as [Hle Hm].
          apply Nat.leb_le in Hle. apply match_here_length in Hm.
          rewrite length_drop in Hm. lia. }
        assert (Hh : 0 ≤ context_length (init terms ctx) / 2)
          by (apply Z.div_pos; [done | lia]).
        cbn [map fst snd]. unfold expected_occurrence, context_of.
        rewrite !slice_window by done.
        rewrite !slice_exact
          by (apply Hb; repeat first [apply list_elem_of_here | apply list_elem_of_further]).
        reflexivity.
      - simpl. repeat split; repeat constructor; lia. }
    assert (Hfold : fold_left (search_step self text) (search_terms self) (∅, [], 0) =
              ({[term]}, [ expected_occurrence self text term p1;
                expected_occurrence self text term p2;
                expected_occurrence self text term p3 ], 3)).
    { rewrite Hterms, fold_left_app.
      rewrite (Hskip before) by (intros t Ht; apply elem_of_app; by left).
      cbn [fold_left]. unfold search_step at 2. rewrite Hfind.
      rewrite (Hskip after) by (intros t Ht; apply elem_of_app; by right).
      f_equal. f_equal. apply union_empty_r_L. }
    unfold result, search_text. rewrite Hfold. cbn.
    rewrite elements_singleton. repeat split; try done.
    repeat constructor; apply collapse_collapsed.
Qed.

Lemma search_text_matches_witness :
  res_total_matches
    (search_text (init (Some [L "race equity"]) (Some 10))
       (L "nothing to see here") (L "https://ex.org/a")) = 0 /\
  map occ_context
    (res_occurrences
       (search_text (init (Some [L "discipline"; L "race equity"]) (Some 10))
          (L "Race Equity,  RACE EQUITY;  race equity!")
          (L "https://ex.org/b"))) =
  [ L "Race Equity, RA"; L "ty, RACE EQUITY; ra"; L "TY; race equity!" ].
Proof.
  split.
  - apply (proj1 (search_text_matches (Some [L "race equity"]) (Some 10)
                    (L "nothing to see here") (L "https://ex.org/a"))).
    reflexivity.
  - pose proof (proj2 (search_text_matches
                         (Some [L "discipline"; L "race equity"]) (Some 10)
                         (L "Race Equity,  RACE EQUITY;  race equity!")
                         (L "https://ex.org/b"))
                  (L "race equity") [L "discipline"] [] 0%nat 14%nat 28%nat) as H.
    destruct H as (_ & _ & H & _);
      [reflexivity | | discriminate | discriminate | reflexivity
      | simpl; lia | simpl; lia | rewrite H; reflexivity].
    reflexivity.
Defined.

(** ** [search_pages] and [aggregate_results] *)

Lemma fold_search_step_found self text l acc t :
  t ∈ (fold_left (search_step self text) l acc).1.1 ↔
  t ∈ acc.1.1 ∨ (t ∈ l ∧ find_term_occurrences self text t ≠ []).
Proof.
  revert acc. induction l as [|x l IH]; intros acc; simpl.
  - split; [by left | intros [?|[H _]]; [done | by apply elem_of_nil in H]].
  - rewrite IH. destruct acc as [[found occs] total]. unfold search_step.
    destruct (find_term_occurrences self text x) as [|o os] eqn:E; simpl.
    + split.
      * intros [?|[? ?]]; [by left | right; split; [by apply elem_of_cons; right | done]].
      * intros [?|[Hin Hne]]; [by left|].
        apply elem_of_cons in Hin as [->|?]; [by rewrite E in Hne | by right].
    + rewrite elem_of_union, elem_of_singleton. split.
      * intros [[->|?]|[? ?]].
        -- right. split; [by apply elem_of_cons; left | by rewrite E].
        -- by left.
        -- right. split; [by apply elem_of_cons; right | done].
      * intros [?|[Hin Hne]]; [left; by right|].
        apply elem_of_cons in Hin as [->|?]; [left; by left | by right].
Qed.

Lemma occurs_empty_text term : term ≠ [] → occurs term [] = false.
Proof. destruct term; [done|]. reflexivity. Qed.

Lemma search_text_found_iff terms ctx text url :
  let self := init terms ctx in
  res_terms_found (search_text self text url) ≠ [] ↔
  existsb (λ term, occurs term text) (search_terms self) = true.
Proof.
  intros self. unfold search_text.
  destruct (fold_left (search_step self text) (search_terms self) (∅, [], 0))
    as [[found occs] total] eqn:E. cbn [res_terms_found].
  assert (Hf : ∀ t, t ∈ found ↔
            t ∈ search_terms self ∧ find_term_occurrences self text t ≠ []).
  { intros t. pose proof (fold_search_step_found self text (search_terms self) (∅, [], 0) t) as H.
    rewrite E in H. simpl in H. rewrite H. split; [|by right].
    intros [Hin|?]; [|done]. by apply not_elem_of_empty in Hin. }
  rewrite existsb_exists. split.
  - intros Hne. destruct (elements found) as [|t ts] eqn:El; [done|].
    assert (t ∈ found) as Ht by (apply elem_of_elements; rewrite El; apply elem_of_cons; by left).
    apply Hf in Ht as [Hin Hocc]. exists t. split; [by apply list_elem_of_In|].
    unfold self in Hocc. rewrite find_term_occurrences_init in Hocc by done.
    apply finditer_nonempty_iff. intros Hnil. by rewrite Hnil in Hocc.
  - intros (t & Hin & Hocc) Hnil. apply list_elem_of_In in Hin.
    assert (t ∈ found) as Ht.
    { apply Hf. split; [done|]. unfold self. rewrite find_term_occurrences_init by done.
      apply finditer_nonempty_iff in Hocc. intros Hm. apply map_eq_nil in Hm. done. }
    apply elem_of_elements in Ht. rewrite Hnil in Ht. by apply elem_of_nil in Ht.
Qed.

Lemma str_eqb_eq a b : str_eqb a b = true ↔ a = b.
Proof.
  revert b. induction a as [|x a IH]; intros [|y b]; simpl; try done.
  unfold char_eqb. rewrite andb_true_iff, Ascii.eqb_eq, IH.
  split; [intros [-> ->]; done | intros [= -> ->]; done].
Qed.

Lemma matches_of_snoc rs r :
  matches_of (rs ++ [r]) = matches_of rs + res_total_matches r.
Proof. induction rs as [|x rs IH]; simpl; [lia | rewrite IH; lia]. Qed.

Lemma terms_of_snoc rs r :
  terms_of (rs ++ [r]) = terms_of rs ∪ list_to_set (res_terms_found r).
Proof.
  unfold terms_of. rewrite flat_map_app, list_to_set_app_L. simpl.
  by rewrite app_nil_r.
Qed.

Lemma snippets_of_snoc rs r :
  snippets_of (rs ++ [r]) = snippets_of rs ++ map (snippet_of r) (res_occurrences r).
Proof. unfold snippets_of. rewrite flat_map_app. simpl. by rewrite app_nil_r. Qed.

Lemma results_from_snoc source rs r :
  results_from source (rs ++ [r]) =
  results_from source rs ++
  (if str_eqb (source_or_unknown (res_source r)) source then [r] else []).
Proof. unfold results_from. rewrite List.filter_app. simpl. by destruct (str_eqb _ _). Qed.

Lemma str_eqb_false a b : str_eqb a b = false ↔ a ≠ b.
Proof.
  rewrite <- str_eqb_eq. destruct (str_eqb a b); split; congruence.
Qed.

Lemma alter_list_to_map f k (l : list (str * pyval)) :
  alter f k (list_to_map l : gmap str pyval) = list_to_map (alist_alter f k l).
Proof.
  induction l as [|[k' v] l IH]; simpl.
  - apply alter_empty.
  - destruct (str_eqb k' k) eqn:E; simpl.
    + apply str_eqb_eq in E as ->. rewrite alter_insert_eq.
      rewrite <- IH. by rewrite insert_alter_eq.
    + apply str_eqb_false in E. rewrite alter_insert_ne by done. by rewrite IH.
Qed.

Lemma lookup_list_to_map k (l : list (str * pyval)) :
  (list_to_map l : gmap str pyval) !! k = alist_lookup k l.
Proof.
  induction l as [|[k' v] l IH]; simpl; [apply lookup_empty|].
  destruct (str_eqb k' k) eqn:E.
  - apply str_eqb_eq in E as ->. apply lookup_insert_eq.
  - apply str_eqb_false in E. by rewrite lookup_insert_ne.
Qed.

Lemma insert_list_to_map k w (l : list (str * pyval)) :
  is_Some (alist_lookup k l) →
  <[k := w]> (list_to_map l : gmap str pyval) =
  list_to_map (alist_alter (λ _, w) k l).
Proof.
  intros [v Hv]. rewrite <- alter_list_to_map.
  apply map_eq. intros i. destruct (decide (k = i)) as [->|Hne].
  - rewrite lookup_insert_eq, lookup_alter_eq, lookup_list_to_map, Hv. done.
  - rewrite lookup_insert_ne, lookup_alter_ne by done. done.
Qed.

Lemma fold_snippets_append (d : gmap str pyval) k (f : Occurrence → Snippet) occs :
  fold_left (λ d o, snippets_append k (f o) d) occs d =
  alter (λ v, match v with
              | VSnippets l => VSnippets (l ++ map f occs)
              | _ => v
              end) k d.
Proof.
  revert d. induction occs as [|o occs IH]; intros d; simpl.
  - symmetry. apply map_eq. intros i. destruct (decide (k = i)) as [->|Hne].
    + rewrite lookup_alter_eq. destruct (d !! i) as [[]|]; simpl; try done.
      by rewrite app_nil_r.
    + by rewrite lookup_alter_ne.
  - rewrite IH. unfold snippets_append. apply map_eq. intros i.
    destruct (decide (k = i)) as [->|Hne].
    + rewrite !lookup_alter_eq. destruct (d !! i) as [[]|]; simpl; try done.
      by rewrite <- app_assoc.
    + by rewrite !lookup_alter_ne.
Qed.

Lemma aggregated_init_entries rs :
  aggregated_init rs = list_to_map (entries_after (Z.of_nat (length rs)) []).
Proof. reflexivity. Qed.

Lemma aggregate_step_after n rs r :
  aggregate_step (list_to_map (entries_after n rs)) r =
  list_to_map (entries_after n (rs ++ [r])).
Proof.
  unfold aggregate_step.
  rewrite fold_snippets_append.
  change (λ occurrence : Occurrence, _) with (snippet_of r).
  unfold aggregate_by_source.
  destruct (str_eqb (source_or_unknown (res_source r)) (L "school")) eqn:Es;
    [|destruct (str_eqb (source_or_unknown (res_source r)) (L "district")) eqn:Ed].
  - assert (Ed : str_eqb (source_or_unknown (res_source r)) (L "district") = false).
    { apply str_eqb_eq in Es. by rewrite Es. }
    unfold int_add, list_append, set_update.
    rewrite !alter_list_to_map. f_equal.
    unfold entries_after.
    rewrite !results_from_snoc, Es, Ed, !app_nil_r.
    rewrite !terms_of_snoc, !matches_of_snoc, !map_app, !length_app, snippets_of_snoc.
    cbn. repeat f_equal; lia.
  - unfold int_add, list_append, set_update.
    rewrite !alter_list_to_map. f_equal.
    unfold entries_after.
    rewrite !results_from_snoc, Es, Ed, !app_nil_r.
    rewrite !terms_of_snoc, !matches_of_snoc, !map_app, !length_app, snippets_of_snoc.
    cbn. repeat f_equal; lia.
  - unfold int_add, list_append, set_update.
    rewrite !alter_list_to_map. f_equal.
    unfold entries_after.
    rewrite !results_from_snoc, Es, Ed, !app_nil_r.
    rewrite !terms_of_snoc, !matches_of_snoc, !map_app, snippets_of_snoc.
    cbn. reflexivity.
Qed.

Lemma fold_aggregate_step n rs0 rs :
  fold_left aggregate_step rs (list_to_map (entries_after n rs0)) =
  list_to_map (entries_after n (rs0 ++ rs)).
Proof.
  revert rs0. induction rs as [|r rs IH]; intros rs0; cbn [fold_left].
  - by rewrite app_nil_r.
  - rewrite aggregate_step_after, IH. by rewrite <- app_assoc.
Qed.

Lemma sort_key_entries k s (l : list (str * pyval)) :
  alist_lookup k l = Some (VSet s) →
  sort_key k (list_to_map l) =
  list_to_map (alist_alter (λ _, VList (sorted (elements s))) k l).
Proof.
  intros H. unfold sort_key. rewrite lookup_list_to_map, H.
  apply insert_list_to_map. by rewrite H.
Qed.

Lemma aggregate_results_entries self rs :
  aggregate_results self rs = list_to_map (entries_final rs).
Proof.
  unfold aggregate_results.
  rewrite aggregated_init_entries, fold_aggregate_step. simpl app.
  rewrite (sort_key_entries (L "terms_found") (terms_of rs)) by reflexivity.
  rewrite (sort_key_entries (L "school_terms_found")
             (terms_of (results_from (L "school") rs))) by reflexivity.
  rewrite (sort_key_entries (L "district_terms_found")
             (terms_of (results_from (L "district") rs))) by reflexivity.
  reflexivity.
Qed.

Lemma search_school_content_aggregate pages terms :
  search_school_content pages terms =
  aggregate_results (init terms None) (search_pages (init terms None) pages).
Proof.
  unfold search_school_content. rewrite aggregate_results_entries.
  unfold setdefault. rewrite !lookup_list_to_map. reflexivity.
Qed.

Lemma rollup_combined self rs :
  rollup (aggregate_results self rs) [] = Some (expected_rollup rs).
Proof.
  rewrite aggregate_results_entries. unfold rollup.
  rewrite !lookup_list_to_map. reflexivity.
Qed.

Lemma rollup_school self rs :
  rollup (aggregate_results self rs) (L "school_") =
  Some (expected_rollup (results_from (L "school") rs)).
Proof.
  rewrite aggregate_results_entries. unfold rollup.
  rewrite !lookup_list_to_map. reflexivity.
Qed.

Lemma rollup_district self rs :
  rollup (aggregate_results self rs) (L "district_") =
  Some (expected_rollup (results_from (L "district") rs)).
Proof.
  rewrite aggregate_results_entries. unfold rollup.
  rewrite !lookup_list_to_map. reflexivity.
Qed.

Lemma dom_aggregate_results self rs :
  dom (aggregate_results self rs) = list_to_set aggregated_keys.
Proof.
  rewrite aggregate_results_entries. rewrite dom_list_to_map_L. reflexivity.
Qed.

Lemma str_leb_total a b : str_leb a b = false → str_leb b a = true.
Proof.
  revert b. induction a as [|x a IH]; intros [|y b]; simpl; try done.
  destruct (N.ltb_spec (code x) (code y)); [done|].
  destruct (N.ltb_spec (code y) (code x)); [done|]. apply IH.
Qed.

Lemma insert_sorted_HdRel y x l :
  str_le y x → HdRel str_le y l → HdRel str_le y (insert_sorted x l).
Proof.
  intros Hyx Hl. destruct l as [|z l]; simpl; [by constructor|].
  destruct (str_leb x z); constructor; [done|]. by inversion Hl.
Qed.

Lemma insert_sorted_Sorted x l :
  Sorted str_le l → Sorted str_le (insert_sorted x l).
Proof.
  induction 1 as [|y l Hs IH Hhd]; simpl; [by repeat constructor|].
  destruct (str_leb x y) eqn:E.
  - constructor; [by constructor | by constructor].
  - constructor; [done|]. apply insert_sorted_HdRel; [|done].
    by apply str_leb_total.
Qed.

Lemma sorted_Sorted l : Sorted str_le (sorted l).
Proof.
  induction l as [|x l IH]; simpl; [constructor | by apply insert_sorted_Sorted].
Qed.

Lemma insert_sorted_perm x l : insert_sorted x l ≡ₚ x :: l.
Proof.
  induction l as [|y l IH]; simpl; [done|].
  destruct (str_leb x y); [done|]. rewrite IH. apply Permutation_swap.
Qed.

Lemma sorted_perm l : sorted l ≡ₚ l.
Proof.
  induction l as [|x l IH]; simpl; [done|].
  rewrite insert_sorted_perm. by rewrite IH.
Qed.

Lemma elem_of_terms_of rs t :
  t ∈ terms_of rs ↔ ∃ r, r ∈ rs ∧ t ∈ res_terms_found r.
Proof.
  unfold terms_of. rewrite elem_of_list_to_set, list_elem_of_In, in_flat_map.
  split; intros (r & Hr & Ht); exists r; split;
    first [by apply list_elem_of_In | done].
Qed.

Lemma is_rollup_of_expected d prefix rs :
  rollup d prefix = Some (expected_rollup rs) → is_rollup_of d prefix rs.
Proof.
  intros H. exists (sorted (elements (terms_of rs))). split; [done|].
  split; [apply sorted_Sorted|]. split.
  - rewrite sorted_perm. apply NoDup_elements.
  - intros t. rewrite sorted_perm, elem_of_elements. apply elem_of_terms_of.
Qed.

(** C3, as amended.  For every list of per-page results, the empty list
    included, the dictionary returned by [aggregate_results], and by
    [search_school_content], holds three roll-ups, combined, school and
    district, each with its terms as a sorted list without duplicates, its
    page URLs, its total of occurrences and its number of pages, present
    even when empty.  Its keys are the thirteen keys of the dictionary
    literal: there is no roll-up of the results whose source is neither
    school nor district, which count in the combined roll-up only. *)
Theorem aggregate_results_rollups (self : TermSearcher.t)
    (rs : list SearchResult) :
  let d := aggregate_results self rs in
  is_rollup_of d [] rs ∧
  is_rollup_of d (L "school_") (results_from (L "school") rs) ∧
  is_rollup_of d (L "district_") (results_from (L "district") rs) ∧
  dom d = list_to_set aggregated_keys ∧
  (∀ pages terms,
     search_school_content pages terms =
     aggregate_results (init terms None)
       (search_pages (init terms None) pages)).
Proof.
  intros d. repeat split.
  - apply is_rollup_of_expected, rollup_combined.
  - apply is_rollup_of_expected, rollup_school.
  - apply is_rollup_of_expected, rollup_district.
  - apply dom_aggregate_results.
  - apply search_school_content_aggregate.
Qed.

(** C3 as stated fails: one result without a source tag is counted in the
    combined roll-up, the school and district roll-ups are empty, and no
    key of the dictionary belongs to a roll-up of the unknown source. *)
Lemma aggregate_results_no_unknown_rollup :
  let d := aggregate_results (init None None) [untagged_result] in
  rollup d [] = Some ([L "race equity"], [L "https://ex.org/a"], 1, 1) ∧
  rollup d (L "school_") = Some ([], [], 0, 0) ∧
  rollup d (L "district_") = Some ([], [], 0, 0) ∧
  rollup d (L "unknown_") = None ∧
  ∀ k, is_Some (d !! k) → contains k (L "unknown") = false.
Proof.
  intros d. subst d.
  split; [by rewrite rollup_combined|].
  split; [by rewrite rollup_school|].
  split; [by rewrite rollup_district|].
  split.
  - rewrite aggregate_results_entries. unfold rollup.
    rewrite !lookup_list_to_map. reflexivity.
  - intros k Hk. apply elem_of_dom in Hk. rewrite dom_aggregate_results in Hk.
    apply elem_of_list_to_set in Hk. unfold aggregated_keys in Hk.
    repeat (apply elem_of_cons in Hk as [->|Hk]; [reflexivity|]).
    by apply elem_of_nil in Hk.
Qed.

Lemma page_has_term_empty_text self page :
  Forall (λ t, t ≠ []) (search_terms self) →
  page_text page = [] → page_has_term self page = false.
Proof.
  intros Hne Htext. unfold page_has_term. rewrite Htext.
  induction Hne as [|t ts Ht _ IH]; simpl; [done|].
  by rewrite occurs_empty_text.
Qed.

Lemma search_pages_filter terms ctx pages :
  let self := init terms ctx in
  Forall (λ t, t ≠ []) (search_terms self) →
  search_pages self pages =
  map (result_of_page self) (List.filter (page_has_term self) pages).
Proof.
  intros self Hne. unfold search_pages.
  induction pages as [|page pages IH]; [done|].
  cbn [flat_map List.filter]. rewrite IH. clear IH.
  destruct (page_text page) as [|c text] eqn:Etext.
  - rewrite page_has_term_empty_text by done. done.
  - pose proof (search_text_found_iff terms ctx (c :: text) (page_url page)) as Hiff.
    cbn zeta in Hiff. fold self in Hiff.
    cbn [res_terms_found].
    unfold page_has_term. rewrite Etext.
    destruct (existsb (λ term, occurs term (c :: text)) (search_terms self)) eqn:Ex.
    + destruct (res_terms_found (search_text self (c :: text) (page_url page))) eqn:Ef.
      * exfalso. by apply Hiff.
      * cbn [app map]. f_equal. unfold result_of_page. rewrite Etext, Ef. done.
    + destruct (res_terms_found (search_text self (c :: text) (page_url page))) eqn:Ef.
      * done.
      * exfalso. assert (false = true) by (by apply Hiff). done.
Qed.

Lemma pages_with_terms_length self rs :
  aggregate_results self rs !! L "pages_with_terms" =
  Some (VInt (Z.of_nat (length rs))).
Proof. rewrite aggregate_results_entries, lookup_list_to_map. reflexivity. Qed.

(** The pages that [search_pages] keeps, whatever the terms are. *)
Lemma search_pages_kept terms ctx pages :
  let self := init terms ctx in
  search_pages self pages =
  map (result_of_page self) (List.filter (page_kept self) pages).
Proof.
  intros self. unfold search_pages.
  induction pages as [|page pages IH]; [done|].
  cbn [flat_map List.filter]. rewrite IH. clear IH.
  assert (Hkept : page_kept self page =
            match page_text page with
            | [] => false
            | _ => page_has_term self page
            end) by reflexivity.
  rewrite Hkept. clear Hkept.
  destruct (page_text page) as [|c text] eqn:Etext; [done|].
  pose proof (search_text_found_iff terms ctx (c :: text) (page_url page)) as Hiff.
  cbn zeta in Hiff. fold self in Hiff.
  cbn [res_terms_found].
  unfold page_has_term. rewrite Etext.
  destruct (existsb (λ term, occurs term (c :: text)) (search_terms self)) eqn:Ex.
  - destruct (res_terms_found (search_text self (c :: text) (page_url page))) eqn:Ef.
    + exfalso. by apply Hiff.
    + cbn [app map]. f_equal. unfold result_of_page. rewrite Etext, Ef. done.
  - destruct (res_terms_found (search_text self (c :: text) (page_url page))) eqn:Ef.
    + done.
    + exfalso. assert (false = true) by (by apply Hiff). done.
Qed.

Lemma page_kept_has_term self pages :
  Forall (λ t, t ≠ []) (search_terms self) →
  List.filter (page_kept self) pages = List.filter (page_has_term self) pages.
Proof.
  intros Hne. induction pages as [|page pages IH]; [done|].
  cbn [List.filter]. rewrite IH. unfold page_kept.
  destruct (page_text page) eqn:Etext; [|done].
  by rewrite page_has_term_empty_text.
Qed.

(** C9, as amended.  For a searcher built by [TermSearcher.__init__]:
    every result of [search_pages] has a non-empty [terms_found]; the
    results are those of the pages that have a text in which a configured
    term occurs, in order, the other pages (with an empty text, or without
    any term) being left out; ['pages_with_terms'] of [aggregate_results]
    is the number of input pages that have a text in which a configured
    term occurs.  When no configured term is the empty string, these are
    the input pages in which a configured term occurs. *)
Theorem search_pages_keeps_pages_with_terms (terms : option (list str))
    (ctx : option Z) (pages : list Page) :
  let self := init terms ctx in
  let results := search_pages self pages in
  Forall (λ r, res_terms_found r ≠ []) results ∧
  results = map (result_of_page self) (List.filter (page_kept self) pages) ∧
  aggregate_results self results !! L "pages_with_terms" =
    Some (VInt (Z.of_nat (length (List.filter (page_kept self) pages)))) ∧
  (Forall (λ t, t ≠ []) (search_terms self) →
   List.filter (page_kept self) pages =
   List.filter (page_has_term self) pages).
Proof.
  intros self results.
  assert (Hres : results =
            map (result_of_page self) (List.filter (page_kept self) pages))
    by apply search_pages_kept.
  split; [|split; [done|split]].
  - rewrite Hres. apply Forall_forall. intros r Hr.
    apply list_elem_of_In, in_map_iff in Hr as (page & <- & Hpage).
    apply filter_In in Hpage as [_ Hkept].
    unfold result_of_page. cbn [res_terms_found].
    apply (search_text_found_iff terms ctx).
    unfold page_kept in Hkept.
    destruct (page_text page) eqn:Etext; [done|].
    unfold page_has_term in Hkept. by rewrite Etext in Hkept.
  - rewrite pages_with_terms_length, Hres, length_map. done.
  - apply page_kept_has_term.
Qed.

Lemma search_pages_keeps_pages_with_terms_witness :
  map res_url
    (search_pages (init (Some [L "race equity"]) None)
       [ mkPage (L "https://ex.org/a") (L "About RACE Equity here") [] 200 22 None;
         mkPage (L "https://ex.org/b") [] [] 200 0 None;
         mkPage (L "https://ex.org/c") (L "Lunch menu") [] 200 10 None ]) =
  [L "https://ex.org/a"] ∧
  List.filter (page_kept (init (Some [L "race equity"]) None))
    [ mkPage (L "https://ex.org/a") (L "About RACE Equity here") [] 200 22 None;
      mkPage (L "https://ex.org/b") [] [] 200 0 None;
      mkPage (L "https://ex.org/c") (L "Lunch menu") [] 200 10 None ] =
  List.filter (page_has_term (init (Some [L "race equity"]) None))
    [ mkPage (L "https://ex.org/a") (L "About RACE Equity here") [] 200 22 None;
      mkPage (L "https://ex.org/b") [] [] 200 0 None;
      mkPage (L "https://ex.org/c") (L "Lunch menu") [] 200 10 None ].
Proof.
  pose proof (search_pages_keeps_pages_with_terms (Some [L "race equity"]) None
    [ mkPage (L "https://ex.org/a") (L "About RACE Equity here") [] 200 22 None;
      mkPage (L "https://ex.org/b") [] [] 200 0 None;
      mkPage (L "https://ex.org/c") (L "Lunch menu") [] 200 10 None ]) as H.
  cbv zeta in H. destruct H as (_ & H & _ & Hall). split.
  - rewrite H. reflexivity.
  - apply Hall. repeat constructor. discriminate.
Defined.

(** C9 as stated fails: with the empty string as the configured term, a
    page with an empty text holds an occurrence of it, the match of the
    empty pattern at position 0, and [search_pages] leaves the page out. *)
Lemma search_pages_skips_empty_text :
  search_terms (init (Some [[]]) None) = [[]] ∧
  res_total_matches (search_text (init (Some [[]]) None) [] (L "https://ex.org/e"))
    = 1 ∧
  page_has_term (init (Some [[]]) None)
    (mkPage (L "https://ex.org/e") [] [] 200 0 None) = true ∧
  search_pages (init (Some [[]]) None)
    [mkPage (L "https://ex.org/e") [] [] 200 0 None] = [] ∧
  aggregate_results (init (Some [[]]) None)
    (search_pages (init (Some [[]]) None)
       [mkPage (L "https://ex.org/e") [] [] 200 0 None])
    !! L "pages_with_terms" = Some (VInt 0).
Proof.
  split; [reflexivity|]. split; [vm_compute; reflexivity|].
  split; [vm_compute; reflexivity|]. split; [reflexivity|].
  rewrite pages_with_terms_length. reflexivity.
Qed.

(** ** The URL cache *)

Lemma set_normalizer_same c now url pages sid :
  URLCache._normalizer (URLCache.set c now url pages sid) = URLCache._normalizer c.
Proof. reflexivity. Qed.

Lemma normalize_key_set c now url pages sid url2 :
  URLCache.normalize_key (URLCache.set c now url pages sid) url2 =
  URLCache.normalize_key c url2.
Proof. reflexivity. Qed.

Lemma set_existing c now url pages' sid e :
  URLCache._cache c !! URLCache.normalize_key c url = Some e →
  URLCache._cache (URLCache.set c now url pages' sid) =
  <[URLCache.normalize_key c url :=
      {| URLCache.pages := URLCache.pages e;
         URLCache.scraped_at := URLCache.scraped_at e;
         URLCache.schools := schools_with sid (URLCache.schools e) |}]>
    (URLCache._cache c).
Proof.
  intros He. unfold URLCache.set. cbn [URLCache._cache]. rewrite He.
  destruct sid as [[|x sid]|]; cbn [schools_with].
  - symmetry. apply insert_id. rewrite He. by destruct e.
  - apply map_eq. intros i.
    destruct (decide (URLCache.normalize_key c url = i)) as [<-|Hne].
    + rewrite lookup_alter_eq, lookup_insert_eq, He. done.
    + rewrite lookup_alter_ne, lookup_insert_ne by done. done.
  - symmetry. apply insert_id. rewrite He. by destruct e.
Qed.

Lemma set_fresh c now url pages sid :
  URLCache._cache c !! URLCache.normalize_key c url = None →
  URLCache._cache (URLCache.set c now url pages sid) =
  <[URLCache.normalize_key c url :=
      {| URLCache.pages := pages;
         URLCache.scraped_at := now;
         URLCache.schools := schools_with sid ∅ |}]>
    (URLCache._cache c).
Proof.
  intros He. unfold URLCache.set. cbn [URLCache._cache]. rewrite He.
  destruct sid as [[|x sid]|]; cbn [schools_with]; try done.
  apply map_eq. intros i.
  destruct (decide (URLCache.normalize_key c url = i)) as [<-|Hne].
  - rewrite lookup_alter_eq, !lookup_insert_eq. done.
  - rewrite lookup_alter_ne, !lookup_insert_ne by done. done.
Qed.

Lemma get_after_set_existing c now url pages' sid e url2 :
  URLCache._cache c !! URLCache.normalize_key c url = Some e →
  URLCache.get (URLCache.set c now url pages' sid) url2 = URLCache.get c url2.
Proof.
  intros He. unfold URLCache.get. rewrite normalize_key_set.
  rewrite (set_existing _ _ _ _ _ e) by done.
  destruct (decide (URLCache.normalize_key c url = URLCache.normalize_key c url2)) as [Heq|Hne].
  - rewrite <- Heq, lookup_insert_eq, He. done.
  - rewrite lookup_insert_ne by done. done.
Qed.

Lemma apply_sets_get c calls url e :
  URLCache._cache c !! URLCache.normalize_key c url = Some e →
  Forall (λ k, URLCache.normalize_key c (call_url k) = URLCache.normalize_key c url) calls →
  URLCache.get (apply_sets c calls) url = Some (URLCache.pages e).
Proof.
  revert c e. induction calls as [|k calls IH]; intros c e He Hall.
  - simpl. unfold URLCache.get. by rewrite He.
  - apply Forall_cons in Hall as [Hk Hall]. cbn [apply_sets fold_left].
    change (fold_left _ calls ?c') with (apply_sets c' calls).
    set (c' := URLCache.set c (call_now k) (call_url k) (call_pages k) (call_school_id k)).
    assert (Hc' : URLCache._cache c' !! URLCache.normalize_key c' url =
              Some {| URLCache.pages := URLCache.pages e;
                      URLCache.scraped_at := URLCache.scraped_at e;
                      URLCache.schools := schools_with (call_school_id k) (URLCache.schools e) |}).
    { unfold c'. rewrite normalize_key_set.
      rewrite (set_existing _ _ _ _ _ e) by (by rewrite Hk).
      rewrite Hk. apply lookup_insert_eq. }
    rewrite (IH c' _ Hc'); [done|].
    eapply Forall_impl; [exact Hall|]. intros k' Hk'. exact Hk'.
Qed.

(** C7, as amended.  When the cache holds an entry under the canonical key
    of the URL, a call of [set] with any page list leaves the stored pages
    and their time stamp as they were; it adds the school id to the set of
    the entry when the id is neither [None] nor the empty string, and does
    nothing else.  So after any sequence of calls of [set] on URLs of that
    key, [get] still returns the pages stored first. *)
Theorem set_keeps_stored_pages (c : URLCache.t) (now url : str)
    (pages' : list Page) (sid : option str) (e : URLCache.Entry) :
  URLCache._cache c !! URLCache.normalize_key c url = Some e →
  URLCache._cache (URLCache.set c now url pages' sid) =
    <[URLCache.normalize_key c url :=
        {| URLCache.pages := URLCache.pages e;
           URLCache.scraped_at := URLCache.scraped_at e;
           URLCache.schools := schools_with sid (URLCache.schools e) |}]>
      (URLCache._cache c) ∧
  URLCache.get (URLCache.set c now url pages' sid) url =
    Some (URLCache.pages e) ∧
  ∀ calls,
    Forall (λ k, URLCache.normalize_key c (call_url k) =
                 URLCache.normalize_key c url) calls →
    URLCache.get (apply_sets c calls) url = Some (URLCache.pages e).
Proof.
  intros He. split; [by apply set_existing|]. split.
  - rewrite (get_after_set_existing _ _ _ _ _ e) by done.
    unfold URLCache.get. by rewrite He.
  - intros calls Hcalls. by apply apply_sets_get.
Qed.

Lemma set_keeps_stored_pages_witness :
  URLCache.get
    (URLCache.set
       (URLCache.set URLCache.new (L "t0") (L "HTTPS://EX.ORG/") [page_a]
          (Some (L "s1")))
       (L "t1") (L "https://ex.org") [page_b] (Some (L "s2")))
    (L "https://ex.org") = Some [page_a].
Proof.
  refine (proj1 (proj2 (set_keeps_stored_pages
            (URLCache.set URLCache.new (L "t0") (L "HTTPS://EX.ORG/") [page_a]
               (Some (L "s1")))
            (L "t1") (L "https://ex.org") [page_b] (Some (L "s2"))
            {| URLCache.pages := [page_a]; URLCache.scraped_at := L "t0";
               URLCache.schools := {[L "s1"]} ∪ ∅ |} _))).
  vm_compute. reflexivity.
Defined.

(** C7 as stated fails for the school id [""], which is not [None] and is
    not added ([if school_id:] is false for it). *)
Lemma set_empty_school_id_not_added :
  let c1 := URLCache.set URLCache.new (L "t0") (L "https://ex.org") [page_a]
              (Some (L "s1")) in
  let c2 := URLCache.set c1 (L "t1") (L "https://ex.org") [page_b] (Some []) in
  URLCache.get c2 (L "https://ex.org") = Some [page_a] ∧
  URLCache.get_schools_for_url c2 (L "https://ex.org") = {[L "s1"]} ∧
  [] ∉ URLCache.get_schools_for_url c2 (L "https://ex.org").
Proof.
  intros c1 c2.
  assert (Hs : URLCache.get_schools_for_url c2 (L "https://ex.org") = {[L "s1"]})
    by (vm_compute; reflexivity).
  split; [vm_compute; reflexivity|]. split; [exact Hs|].
  rewrite Hs. intros H. apply elem_of_singleton in H. discriminate H.
Qed.

(** C10.  On a fresh cache, with or without a normalizer, after
    [set(url, pages, sid)] the call [get(url2)] returns the stored pages
    when [url2] has the canonical key of [url], and [None] otherwise. *)
Theorem get_after_set (normalizer : option (str → str)) (now url : str)
    (pages : list Page) (sid : option str) (url2 : str) :
  let c := {| URLCache._cache := ∅; URLCache._normalizer := normalizer |} in
  URLCache.get (URLCache.set c now url pages sid) url2 =
  if decide (URLCache.normalize_key c url2 = URLCache.normalize_key c url)
  then Some pages else None.
Proof.
  intros c. subst c. unfold URLCache.get. rewrite normalize_key_set.
  rewrite set_fresh by apply lookup_empty.
  cbn [URLCache._cache]. case_decide as Heq.
  - rewrite Heq, lookup_insert_eq. done.
  - rewrite lookup_insert_ne by done. by rewrite lookup_empty.
Qed.

(** ** [normalize_url_for_cache] *)

(** ** Characters *)

Ltac by_cases_on_char c :=
  destruct c as [[] [] [] [] [] [] [] []]; vm_compute; try reflexivity; try discriminate.

Lemma lower_char_idem c : lower_char (lower_char c) = lower_char c.
Proof. by_cases_on_char c. Qed.

Lemma lower_idem s : lower (lower s) = lower s.
Proof.
  unfold lower. rewrite map_map. apply map_ext. intros c. apply lower_char_idem.
Qed.

Lemma is_netloc_delim_lower c :
  is_netloc_delim (lower_char c) = is_netloc_delim c.
Proof. by_cases_on_char c. Qed.

Lemma is_unsafe_lower c : is_unsafe (lower_char c) = is_unsafe c.
Proof. by_cases_on_char c. Qed.

Lemma is_char_lower_bracket_l c : is_char "[" (lower_char c) = is_char "[" c.
Proof. by_cases_on_char c. Qed.

Lemma is_char_lower_bracket_r c : is_char "]" (lower_char c) = is_char "]" c.
Proof. by_cases_on_char c. Qed.

Lemma has_char_lower_bracket_l s : has_char "[" (lower s) = has_char "[" s.
Proof.
  unfold has_char, lower. induction s as [|c s IH]; simpl; [done|].
  by rewrite is_char_lower_bracket_l, IH.
Qed.

Lemma has_char_lower_bracket_r s : has_char "]" (lower s) = has_char "]" s.
Proof.
  unfold has_char, lower. induction s as [|c s IH]; simpl; [done|].
  by rewrite is_char_lower_bracket_r, IH.
Qed.

Lemma is_char_eq c x : is_char c x = true ↔ x = c.
Proof. unfold is_char, char_eqb. apply Ascii.eqb_eq. Qed.

(** ** [break] *)

Lemma break_app_eq p s : (break p s).1 ++ (break p s).2 = s.
Proof.
  induction s as [|c s IH]; simpl; [done|].
  destruct (p c); simpl; [done|].
  destruct (break p s) as [a b]. simpl in *. by rewrite IH.
Qed.

Lemma break_fst_not p s : forallb (λ c, negb (p c)) (break p s).1 = true.
Proof.
  induction s as [|c s IH]; simpl; [done|].
  destruct (p c) eqn:E; simpl; [done|].
  destruct (break p s) as [a b]. simpl in *. by rewrite E, IH.
Qed.

Lemma break_snd_head p s c b : (break p s).2 = c :: b → p c = true.
Proof.
  induction s as [|x s IH]; simpl; [done|].
  destruct (p x) eqn:E; simpl; [by intros [= <- _]|].
  destruct (break p s) as [a b']. simpl in *. done.
Qed.

Lemma break_none p s :
  forallb (λ c, negb (p c)) s = true → break p s = (s, []).
Proof.
  induction s as [|c s IH]; simpl; [done|].
  intros H. apply andb_true_iff in H as [Hc Hs].
  apply negb_true_iff in Hc. rewrite Hc, IH; done.
Qed.

Lemma break_app p a b :
  forallb (λ c, negb (p c)) a = true →
  match b with [] => True | c :: _ => p c = true end →
  break p (a ++ b) = (a, b).
Proof.
  intros Ha Hb. induction a as [|c a IH]; simpl.
  - destruct b as [|c b]; simpl; [done|]. by rewrite Hb.
  - simpl in Ha. apply andb_true_iff in Ha as [Hc Ha].
    apply negb_true_iff in Hc. rewrite Hc, IH; done.
Qed.

Lemma forallb_app_l {A} (f : A → bool) a b :
  forallb f (a ++ b) = true → forallb f a = true.
Proof. rewrite forallb_app. by intros [? ?]%andb_true_iff. Qed.

Lemma forallb_app_r {A} (f : A → bool) a b :
  forallb f (a ++ b) = true → forallb f b = true.
Proof. rewrite forallb_app. by intros [? ?]%andb_true_iff. Qed.

Lemma forallb_impl {A} (f g : A → bool) l :
  (∀ x, f x = true → g x = true) → forallb f l = true → forallb g l = true.
Proof.
  intros H. induction l as [|x l IH]; simpl; [done|].
  intros [Hx Hl]%andb_true_iff. by rewrite H, IH.
Qed.

Lemma has_char_false c s :
  has_char c s = false ↔ forallb (λ x, negb (is_char c x)) s = true.
Proof.
  unfold has_char. induction s as [|x s IH]; simpl; [done|].
  destruct (is_char c x); simpl; [split; done | exact IH].
Qed.

(** ** [rstrip] of a character *)

Lemma lstrip_char_idem c s : lstrip_char c (lstrip_char c s) = lstrip_char c s.
Proof.
  induction s as [|x s IH]; simpl; [done|].
  destruct (char_eqb x c) eqn:E; [done|]. simpl. by rewrite E.
Qed.

Lemma rstrip_char_idem c s : rstrip_char c (rstrip_char c s) = rstrip_char c s.
Proof. unfold rstrip_char. by rewrite rev_involutive, lstrip_char_idem. Qed.

Lemma lstrip_char_suffix c s : ∃ k, s = replicate k c ++ lstrip_char c s.
Proof.
  induction s as [|x s [k IH]]; simpl; [by exists O|].
  destruct (char_eqb x c) eqn:E.
  - apply Ascii.eqb_eq in E as ->. exists (S k). simpl. by rewrite <- IH.
  - by exists O.
Qed.

Lemma rstrip_char_prefix c s : ∃ k, s = rstrip_char c s ++ replicate k c.
Proof.
  unfold rstrip_char. destruct (lstrip_char_suffix c (rev s)) as [k Hk].
  exists k. apply (f_equal (@rev ascii)) in Hk.
  rewrite rev_involutive, rev_app_distr in Hk.
  rewrite Hk at 1. f_equal. clear.
  induction k as [|k IH]; simpl; [done|].
  rewrite IH. clear. induction k as [|k IH]; simpl; [done|]. by rewrite IH.
Qed.

Lemma lstrip_char_head c s x s' : lstrip_char c s = x :: s' → char_eqb x c = false.
Proof.
  induction s as [|y s IH]; simpl; [done|].
  destruct (char_eqb y c) eqn:E; [done|]. by intros [= <- _].
Qed.

Lemma rstrip_char_fixed c s :
  match rev s with [] => True | x :: _ => char_eqb x c = false end →
  rstrip_char c s = s.
Proof.
  unfold rstrip_char. destruct (rev s) as [|x r] eqn:E; intros H.
  - apply (f_equal (@rev ascii)) in E. rewrite rev_involutive in E. by subst.
  - simpl. rewrite H. rewrite <- E. apply rev_involutive.
Qed.

Lemma filter_safe (s : str) :
  forallb (λ c, negb (is_unsafe c)) s = true →
  filter (λ c, negb (is_unsafe c)) s = s.
Proof.
  induction s as [|c s IH]; [done|]. simpl forallb.
  intros [Hc Hs]%andb_true_iff.
  rewrite filter_cons_True by (by apply Is_true_true). by rewrite IH.
Qed.

Lemma filter_safe_forallb (s : str) :
  forallb (λ c, negb (is_unsafe c)) (filter (λ c, negb (is_unsafe c)) s) = true.
Proof.
  induction s as [|c s IH]; [done|].
  destruct (negb (is_unsafe c)) eqn:E.
  - rewrite filter_cons_True by (by apply Is_true_true). simpl. by rewrite E, IH.
  - rewrite filter_cons_False by (by apply Is_true_false). done.
Qed.

Lemma split_once_none c s :
  forallb (λ x, negb (is_char c x)) s = true → split_once c s = (s, []).
Proof. intros H. unfold split_once. by rewrite break_none. Qed.

Lemma split_once_app c a b :
  forallb (λ x, negb (is_char c x)) a = true →
  split_once c (a ++ c :: b) = (a, b).
Proof.
  intros H. unfold split_once. rewrite break_app; [done | done |].
  by apply is_char_eq.
Qed.

Lemma urlsplit_canonical S N P q :
  S = L "http" ∨ S = L "https" →
  forallb (λ c, negb (is_netloc_delim c)) N = true →
  brackets_ok N = true →
  match P with [] => True | c :: _ => c = "/"%char end →
  forallb (λ c, negb (is_char "?" c)) P = true →
  forallb (λ c, negb (is_char "#" c)) (P ++ q) = true →
  forallb (λ c, negb (is_unsafe c)) (N ++ P ++ q) = true →
  urlsplit (S ++ L "://" ++ N ++ P ++ query_suffix q) = Some (S, N, P, q, []).
Proof.
  intros HS HN Hbr HP HPq Hhash Hsafe.
  set (rest := N ++ P ++ query_suffix q).
  assert (Hsafe' : forallb (λ c, negb (is_unsafe c)) rest = true).
  { unfold rest. rewrite !forallb_app in *.
    apply andb_true_iff in Hsafe as [H1 H2]. apply andb_true_iff in H2 as [H2 H3].
    rewrite H1, H2. simpl. destruct q; [done|]. simpl in *. done. }
  assert (Hnet : break is_netloc_delim rest = (N, P ++ query_suffix q)).
  { unfold rest. apply break_app; [done|].
    destruct P as [|c P]; simpl.
    - destruct q; [done|]. reflexivity.
    - by rewrite HP. }
  assert (Hfrag : split_once "#" (P ++ query_suffix q) = (P ++ query_suffix q, [])).
  { apply split_once_none. rewrite forallb_app in *.
    apply andb_true_iff in Hhash as [H1 H2]. rewrite H1. simpl.
    destruct q; [done|]. simpl in *. done. }
  assert (Hq : split_once "?" (P ++ query_suffix q) = (P, q)).
  { destruct q as [|c q]; simpl.
    - rewrite app_nil_r. by apply split_once_none.
    - by apply split_once_app. }
  unfold brackets_ok in Hbr. apply negb_true_iff in Hbr.
  unfold urlsplit.
  destruct HS as [-> | ->].
  - change (L "http" ++ L "://" ++ rest) with ("h" :: "t" :: "t" :: "p" :: ":" :: "/" :: "/" :: rest)%char.
    change (lstrip_c0 ("h" :: "t" :: "t" :: "p" :: ":" :: "/" :: "/" :: rest)%char)
      with ("h" :: "t" :: "t" :: "p" :: ":" :: "/" :: "/" :: rest)%char.
    rewrite filter_safe by (simpl; exact Hsafe').
    change (split_scheme ("h" :: "t" :: "t" :: "p" :: ":" :: "/" :: "/" :: rest)%char)
      with (L "http", ("/" :: "/" :: rest)%char).
    cbv beta iota.
    change (startswith ("/" :: "/" :: rest)%char (L "//")) with true.
    cbv beta iota. change (drop 2 ("/" :: "/" :: rest)%char) with rest.
    rewrite Hnet. cbv beta iota. rewrite Hbr, Hfrag. cbv beta iota.
    rewrite Hq. reflexivity.
  - change (L "https" ++ L "://" ++ rest) with ("h" :: "t" :: "t" :: "p" :: "s" :: ":" :: "/" :: "/" :: rest)%char.
    change (lstrip_c0 ("h" :: "t" :: "t" :: "p" :: "s" :: ":" :: "/" :: "/" :: rest)%char)
      with ("h" :: "t" :: "t" :: "p" :: "s" :: ":" :: "/" :: "/" :: rest)%char.
    rewrite filter_safe by (simpl; exact Hsafe').
    change (split_scheme ("h" :: "t" :: "t" :: "p" :: "s" :: ":" :: "/" :: "/" :: rest)%char)
      with (L "https", ("/" :: "/" :: rest)%char).
    cbv beta iota.
    change (startswith ("/" :: "/" :: rest)%char (L "//")) with true.
    cbv beta iota. change (drop 2 ("/" :: "/" :: rest)%char) with rest.
    rewrite Hnet. cbv beta iota. rewrite Hbr, Hfrag. cbv beta iota.
    rewrite Hq. reflexivity.
Qed.

Lemma rooted_prefix a b : rooted (a ++ b) → rooted a.
Proof. destruct a; simpl; done. Qed.

Lemma split_scheme_suffix url : ∃ pre, url = pre ++ (split_scheme url).2.
Proof.
  unfold split_scheme.
  pose proof (break_app_eq (is_char ":") url) as H.
  destruct (break (is_char ":") url) as [[|c pre] [|x rest]]; simpl in *;
    try (by exists []).
  match goal with |- context [if ?b then _ else _] => destruct b end;
    simpl; [|by exists []].
  exists (c :: pre ++ [x]). rewrite <- H. simpl. by rewrite <- app_assoc.
Qed.

Lemma split_once_spec c s a b :
  split_once c s = (a, b) →
  forallb (λ x, negb (is_char c x)) a = true ∧
  (s = a ∧ b = [] ∨ s = a ++ c :: b).
Proof.
  unfold split_once. pose proof (break_app_eq (is_char c) s) as Happ.
  pose proof (break_fst_not (is_char c) s) as Hnot.
  pose proof (break_snd_head (is_char c) s) as Hhead.
  destruct (break (is_char c) s) as [a' [|x b']]; simpl in *;
    intros [= <- <-]; (split; [done|]).
  - left. by rewrite app_nil_r in Happ.
  - right. specialize (Hhead x b' eq_refl). apply is_char_eq in Hhead. by subst.
Qed.

Lemma split_once_forallb (Q : ascii → bool) c s a b :
  split_once c s = (a, b) → forallb Q s = true → forallb Q (a ++ b) = true.
Proof.
  intros H HQ. apply split_once_spec in H as [_ [[-> ->]| ->]].
  - by rewrite app_nil_r.
  - rewrite forallb_app in *. simpl in HQ.
    apply andb_true_iff in HQ as [H1 [_ H2]%andb_true_iff]. by rewrite H1, H2.
Qed.

Lemma split_once_rooted c s a b :
  split_once c s = (a, b) → rooted s ∨ (∃ s', s = c :: s') → rooted a.
Proof.
  intros H Hs. apply split_once_spec in H as [Hnot [[-> ->]| ->]].
  - destruct Hs as [?|[s' ->]]; [done|]. simpl in Hnot.
    assert (is_char c c = true) as E by (by apply is_char_eq). by rewrite E in Hnot.
  - destruct Hs as [Hs|[s' Hs]]; [by apply rooted_prefix in Hs|].
    destruct a as [|x a]; [done|]. simpl in *. injection Hs as -> _.
    assert (is_char c c = true) as E by (by apply is_char_eq). by rewrite E in Hnot.
Qed.

(** What [urlsplit] guarantees of the parts it returns. *)
Lemma urlsplit_facts u s n p q f :
  urlsplit u = Some (s, n, p, q, f) →
  forallb (λ c, negb (is_netloc_delim c)) n = true ∧
  brackets_ok n = true ∧
  forallb (λ c, negb (is_char "?" c)) p = true ∧
  forallb (λ c, negb (is_char "#" c)) (p ++ q) = true ∧
  forallb (λ c, negb (is_unsafe c)) (n ++ p ++ q) = true ∧
  (n ≠ [] → rooted p).
Proof.
  unfold urlsplit.
  set (url0 := filter (λ c, negb (is_unsafe c)) (lstrip_c0 u)).
  pose proof (filter_safe_forallb (lstrip_c0 u)) as Hsafe0. fold url0 in Hsafe0.
  destruct (split_scheme_suffix url0) as [pre Hpre].
  destruct (split_scheme url0) as [s' url1]. simpl in Hpre.
  assert (Hsafe1 : forallb (λ c, negb (is_unsafe c)) url1 = true).
  { rewrite Hpre in Hsafe0. by apply forallb_app_r in Hsafe0. }
  set (nu := if startswith url1 (L "//") then break is_netloc_delim (drop 2 url1)
             else ([], url1)).
  assert (Hnu : forallb (λ c, negb (is_netloc_delim c)) nu.1 = true ∧
                forallb (λ c, negb (is_unsafe c)) (nu.1 ++ nu.2) = true ∧
                (nu.1 ≠ [] → match nu.2 with [] => True | c :: _ => is_netloc_delim c = true end)).
  { unfold nu. destruct (startswith url1 (L "//")).
    - split; [apply break_fst_not|]. split.
      + rewrite break_app_eq. rewrite <- (take_drop 2 url1) in Hsafe1.
        by apply forallb_app_r in Hsafe1.
      + intros _. pose proof (break_snd_head is_netloc_delim (drop 2 url1)) as Hh.
        destruct (break is_netloc_delim (drop 2 url1)).2 as [|c b]; [done|].
        by eapply Hh.
    - split; [done|]. split; [done|]. simpl. done. }
  destruct nu as [n' url2]. simpl in Hnu. destruct Hnu as (Hn & Hsafe2 & Hhead).
  destruct ((has_char "[" n' && negb (has_char "]" n')) ||
            (has_char "]" n' && negb (has_char "[" n'))) eqn:Hbr; [done|].
  destruct (split_once "#" url2) as [url3 f'] eqn:Hf.
  destruct (split_once "?" url3) as [p' q'] eqn:Hq.
  intros [= <- <- <- <- <-].
  pose proof (split_once_spec _ _ _ _ Hf) as [Hnohash Hf'].
  pose proof (split_once_spec _ _ _ _ Hq) as [Hnoq Hq'].
  assert (Hsafe3 : forallb (λ c, negb (is_unsafe c)) url3 = true).
  { apply forallb_app_r in Hsafe2.
    destruct Hf' as [[-> _]| ->]; [done | by apply forallb_app_l in Hsafe2]. }
  split; [done|]. split; [unfold brackets_ok; by rewrite Hbr|].
  split; [done|]. split; [by eapply split_once_forallb|]. split.
  - rewrite forallb_app. apply forallb_app_l in Hsafe2 as ->. simpl.
    by eapply split_once_forallb.
  - intros Hne. specialize (Hhead Hne).
    eapply split_once_rooted; [exact Hq|].
    destruct url2 as [|c url2].
    { left. destruct Hf' as [[E _]|E]; [by rewrite <- E | by destruct url3]. }
    assert (Hurl3 : url3 = [] ∨ ∃ t, url3 = c :: t).
    { destruct Hf' as [[E _]|E]; [right; by eexists|].
      destruct url3 as [|x t]; [by left|]. right. injection E as -> _. by eexists. }
    unfold is_netloc_delim in Hhead.
    destruct (is_char "/" c) eqn:E1; [|destruct (is_char "?" c) eqn:E2].
    + apply is_char_eq in E1 as ->. left.
      destruct Hurl3 as [->|[t ->]]; done.
    + apply is_char_eq in E2 as ->.
      destruct Hurl3 as [->|[t ->]]; [by left | right; by eexists].
    + simpl in Hhead. apply is_char_eq in Hhead as ->. left.
      destruct Hurl3 as [->|[t ->]]; [done|]. simpl in Hnohash. done.
Qed.

Lemma rbreak_app_eq p s : (rbreak p s).1 ++ (rbreak p s).2 = s.
Proof.
  unfold rbreak. pose proof (break_app_eq p (rev s)) as H.
  destruct (break p (rev s)) as [a b]. simpl in *.
  rewrite <- rev_app_distr, H. apply rev_involutive.
Qed.

Lemma splitparams_prefix url : ∃ rest, url = (splitparams url).1 ++ rest.
Proof.
  unfold splitparams. destruct (has_char "/" url).
  - pose proof (rbreak_app_eq (is_char "/") url) as H.
    destruct (rbreak (is_char "/") url) as [head seg]. simpl in H.
    pose proof (break_app_eq (is_char ";") seg) as H'.
    destruct (break (is_char ";") seg) as [a [|x prm]]; simpl in *.
    + exists []. by rewrite app_nil_r.
    + exists (x :: prm). rewrite <- app_assoc, H'. done.
  - pose proof (break_app_eq (is_char ";") url) as H'.
    destruct (break (is_char ";") url) as [a [|x prm]]; simpl in *.
    + exists []. done.
    + exists (x :: prm). done.
Qed.

(** What [urlparse] guarantees of the parts it returns. *)
Lemma urlparse_facts u r :
  urlparse u = Some r →
  forallb (λ c, negb (is_netloc_delim c)) (netloc r) = true ∧
  brackets_ok (netloc r) = true ∧
  forallb (λ c, negb (is_char "?" c)) (path r) = true ∧
  forallb (λ c, negb (is_char "#" c)) (path r ++ query r) = true ∧
  forallb (λ c, negb (is_unsafe c)) (netloc r ++ path r ++ query r) = true ∧
  (netloc r ≠ [] → rooted (path r)).
Proof.
  unfold urlparse. destruct (urlsplit u) as [[[[[s n] p] q] f]|] eqn:E; [|done].
  apply urlsplit_facts in E as (Hn & Hbr & Hp & Hhash & Hsafe & Hroot).
  set (pp := if existsb (str_eqb s) uses_params && has_char ";" p
             then splitparams p else (p, [])).
  assert (Hpre : ∃ rest, p = pp.1 ++ rest).
  { unfold pp. destruct (_ && _); [apply splitparams_prefix | exists []; simpl; by rewrite app_nil_r]. }
  destruct pp as [p' prm]. simpl in Hpre. destruct Hpre as [rest ->].
  intros [= <-]. simpl.
  rewrite !forallb_app in *.
  repeat match goal with H : _ && _ = true |- _ => apply andb_true_iff in H as [? ?] end.
  repeat split; try done.
  - by apply andb_true_iff.
  - repeat (apply andb_true_iff; split); done.
  - intros Hne. eapply rooted_prefix. by apply Hroot.
Qed.

(** The parts that [normalize_url_for_cache] puts together. *)
Lemma normalize_parts u r :
  u ≠ [] → urlparse u = Some r →
  ∃ S P,
    normalize_url_for_cache u =
      S ++ L "://" ++ lower (netloc r) ++ P ++ query_suffix (query r) ∧
    (S = L "http" ∨ S = L "https") ∧
    (scheme r = [] → S = L "https") ∧
    (path r = L "/" ∧ P = L "/" ∨
     path r ≠ L "/" ∧ P = rstrip_char "/" (path r)).
Proof.
  intros Hu Hr. unfold normalize_url_for_cache.
  destruct u as [|c u]; [done|]. rewrite Hr.
  set (scheme0 := match scheme r with [] => L "https" | s => lower s end).
  set (S := if str_eqb scheme0 (L "http") || str_eqb scheme0 (L "https")
            then scheme0 else L "https").
  set (P := if str_eqb (path r) (L "/") then L "/" else rstrip_char "/" (path r)).
  exists S, P. split; [|split; [|split]].
  - replace (match netloc r with [] => [] | n => lower n end)
      with (lower (netloc r)) by (by destruct (netloc r)).
    unfold query_suffix. destruct (query r); [by rewrite app_nil_r|].
    by rewrite <- !app_assoc.
  - unfold S. destruct (str_eqb scheme0 (L "http")) eqn:E1; cbn [orb].
    + left. by apply str_eqb_eq.
    + destruct (str_eqb scheme0 (L "https")) eqn:E2; right; [by apply str_eqb_eq | done].
  - intros Hs. unfold S, scheme0. rewrite Hs. reflexivity.
  - unfold P. destruct (str_eqb (path r) (L "/")) eqn:E.
    + left. by apply str_eqb_eq in E.
    + right. split; [|done]. intros H. apply str_eqb_eq in H. congruence.
Qed.

Lemma forallb_lower (f : ascii → bool) s :
  (∀ c, f (lower_char c) = f c) → forallb f (lower s) = forallb f s.
Proof.
  intros H. unfold lower. induction s as [|c s IH]; simpl; [done|].
  by rewrite H, IH.
Qed.

Lemma brackets_ok_lower n : brackets_ok (lower n) = brackets_ok n.
Proof.
  unfold brackets_ok. by rewrite has_char_lower_bracket_l, has_char_lower_bracket_r.
Qed.

Lemma rstrip_char_end c s s' : rstrip_char c s ≠ s' ++ [c].
Proof.
  unfold rstrip_char. intros H. apply (f_equal (@rev ascii)) in H.
  rewrite rev_involutive, rev_app_distr in H. simpl in H.
  apply lstrip_char_head in H. unfold char_eqb in H.
  by rewrite Ascii.eqb_refl in H.
Qed.

(** Where canonicalizing is idempotent.  For every non-empty URL that
    [urlparse] accepts, the canonical form is the scheme, [http] or [https]
    and [https] when the URL has none, the lowered netloc, the path without
    its trailing slashes (the path [/] is kept) and the query string,
    unchanged.  If moreover the path of the URL is empty or starts with a
    slash, as it does whenever the URL has a netloc, and holds no
    semicolon, canonicalizing twice gives what canonicalizing once
    gives. *)
Theorem normalize_url_for_cache_idempotent (u : str) (r : ParseResult) :
  urlparse u = Some r →
  (u ≠ [] →
   ∃ S P,
     normalize_url_for_cache u =
       S ++ L "://" ++ lower (netloc r) ++ P ++ query_suffix (query r) ∧
     (S = L "http" ∨ S = L "https") ∧
     (scheme r = [] → S = L "https") ∧
     (path r = L "/" ∧ P = L "/" ∨
      path r ≠ L "/" ∧ (∃ k, path r = P ++ replicate k "/"%char) ∧
      ∀ P', P ≠ P' ++ L "/")) ∧
  (netloc r ≠ [] ∨ rooted (path r) →
   has_char ";" (path r) = false →
   normalize_url_for_cache (normalize_url_for_cache u) =
     normalize_url_for_cache u).
Proof.
  intros Hr. split.
  { intros Hu.
    destruct (normalize_parts u r Hu Hr) as (S & P & Hn & HS & Hdef & HP).
    exists S, P. repeat split; try done.
    destruct HP as [[? ?]|[Hne ->]]; [by left|]. right.
    split; [done|]. split; [apply rstrip_char_prefix|].
    intros P'. apply rstrip_char_end. }
  intros Hroot Hsemi.
  destruct u as [|c0 u0] eqn:Eu; [reflexivity|]. rewrite <- Eu in *.
  assert (Hu : u ≠ []) by (by rewrite Eu).
  destruct (normalize_parts u r Hu Hr) as (S & P & Hn & HS & Hdef & HP).
  pose proof (urlparse_facts u r Hr) as (Hnet & Hbr & Hq & Hhash & Hsafe & Hauth).
  assert (Hrooted : rooted (path r)) by (destruct Hroot; [by apply Hauth | done]).
  assert (Hpre : ∃ k, path r = P ++ replicate k "/"%char).
  { destruct HP as [[-> ->]|[_ ->]]; [by exists O | apply rstrip_char_prefix]. }
  destruct Hpre as [k Hk].
  rewrite Hn.
  set (N := lower (netloc r)). set (q := query r).
  assert (Hsplit : urlsplit (S ++ L "://" ++ N ++ P ++ query_suffix q) =
            Some (S, N, P, q, [])).
  { apply urlsplit_canonical; try done.
    - unfold N. rewrite forallb_lower; [done|].
      intros c. by rewrite is_netloc_delim_lower.
    - unfold N. by rewrite brackets_ok_lower.
    - rewrite Hk in Hrooted. by apply rooted_prefix in Hrooted.
    - rewrite Hk in Hq. by apply forallb_app_l in Hq.
    - rewrite Hk in Hhash. rewrite !forallb_app in *.
      repeat match goal with H : _ && _ = true |- _ => apply andb_true_iff in H as [? ?] end.
      by apply andb_true_iff.
    - rewrite Hk in Hsafe. rewrite !forallb_app in *.
      repeat match goal with H : _ && _ = true |- _ => apply andb_true_iff in H as [? ?] end.
      unfold N. rewrite forallb_lower by (intros c; by rewrite is_unsafe_lower).
      repeat (apply andb_true_iff; split); done. }
  assert (HsemiP : has_char ";" P = false).
  { apply has_char_false. apply has_char_false in Hsemi. rewrite Hk in Hsemi.
    by apply forallb_app_l in Hsemi. }
  assert (Hparse : urlparse (S ++ L "://" ++ N ++ P ++ query_suffix q) =
            Some {| scheme := S; netloc := N; path := P; params := [];
                    query := q; fragment := [] |}).
  { unfold urlparse. rewrite Hsplit, HsemiP, andb_false_r. reflexivity. }
  assert (Hne : S ++ L "://" ++ N ++ P ++ query_suffix q ≠ [])
    by (destruct HS as [-> | ->]; done).
  destruct (normalize_parts _ _ Hne Hparse) as (S' & P' & Hn' & HS' & _ & HP').
  rewrite Hn'. cbn [scheme netloc path query] in *.
  assert (S' = S) as ->.
  { clear -Hn' HS HS' Hne Hparse.
    unfold normalize_url_for_cache in Hn'.
    destruct (S ++ L "://" ++ N ++ P ++ query_suffix q) eqn:E; [done|].
    rewrite <- E in *. rewrite Hparse in Hn'. cbn [scheme netloc path query] in Hn'.
    destruct HS as [-> | ->]; destruct HS' as [-> | ->]; try done;
      exfalso; revert Hn'; cbn; destruct N; destruct q; cbn; discriminate. }
  assert (P' = P) as ->.
  { destruct HP' as [[-> ->]|[Hne' ->]]; [done|].
    destruct HP as [[_ ->]|[_ ->]]; [|apply rstrip_char_idem].
    exfalso. by apply Hne'. }
  unfold N. by rewrite lower_idem.
Qed.

Lemma normalize_url_for_cache_idempotent_witness :
  normalize_url_for_cache
    (normalize_url_for_cache (L "HTTP://Ex.ORG/About/Us//?q=A")) =
  normalize_url_for_cache (L "HTTP://Ex.ORG/About/Us//?q=A").
Proof.
  refine (proj2 (normalize_url_for_cache_idempotent
                   (L "HTTP://Ex.ORG/About/Us//?q=A")
                   {| scheme := L "http"; netloc := L "Ex.ORG";
                      path := L "/About/Us//"; params := [];
                      query := L "q=A"; fragment := [] |} _) _ _).
  - vm_compute. reflexivity.
  - left. discriminate.
  - reflexivity.
Defined.

(** C6: the code does not keep the claim.  A URL without a scheme has no
    netloc for [urlparse]; its host is read as a path and is not lowered;
    the second pass reads it as a netloc and lowers it. *)
Lemma normalize_url_for_cache_not_idempotent :
  normalize_url_for_cache (L "EX.ORG") = L "https://EX.ORG" /\
  normalize_url_for_cache (normalize_url_for_cache (L "EX.ORG")) =
    L "https://ex.org" /\
  normalize_url_for_cache (normalize_url_for_cache (L "EX.ORG")) <>
    normalize_url_for_cache (L "EX.ORG").
Proof. vm_compute. repeat split; discriminate. Qed.

(** A semicolon in the last segment of the path is read as the start of
    the parameters once the trailing slash is gone. *)
Example normalize_url_for_cache_params :
  normalize_url_for_cache (L "http://ex.org/p;x/") = L "http://ex.org/p;x" /\
  normalize_url_for_cache (L "http://ex.org/p;x") = L "http://ex.org/p".
Proof. vm_compute. split; reflexivity. Qed.

(** ** [scrape_page] *)

Import Net WebScraper.

Section Guarded.

Context {W : Type} (env : Env W).

Lemma guarded_ret {A} (a : A) (Q : A → Prop) :
  Q a → guarded (W:=W) (ret a) Q.
Proof. intros H w. exact H. Qed.

Lemma guarded_return_none {A} (Q : A → Prop) :
  guarded (W:=W) (return_ None) Q.
Proof. intros w. reflexivity. Qed.

Lemma guarded_raise {A} e (Q : A → Prop) : guarded (W:=W) (raise e) Q.
Proof. intros w. exact I. Qed.

Lemma guarded_bind {A B} (m : W → Ctl A * W) (k : A → W → Ctl B * W)
    (Q : A → Prop) (Q' : B → Prop) :
  guarded m Q → (∀ a, Q a → guarded (k a) Q') → guarded (bind m k) Q'.
Proof.
  intros Hm Hk w. unfold bind. specialize (Hm w).
  destruct (m w) as [[a|r|e] w']; simpl in *; [|done|done].
  apply (Hk a Hm w').
Qed.

Lemma guarded_catch {A} (m : W → Ctl A * W) (h : Exn → W → Ctl A * W)
    (Q : A → Prop) :
  guarded m Q → (∀ e, guarded (h e) Q) → guarded (catch m h) Q.
Proof.
  intros Hm Hh w. unfold catch. specialize (Hm w).
  destruct (m w) as [[a|r|e] w']; simpl in *; [done|done|].
  apply (Hh e w').
Qed.

Lemma guarded_get client url allow verify :
  guarded (get env client url allow verify) (λ _, True).
Proof.
  intros w. unfold get.
  destruct (http_get env client url allow verify w) as [[r|e] w']; exact I.
Qed.

Lemma guarded_raise_for_status response :
  guarded (W:=W) (raise_for_status response) (λ _, True).
Proof. intros w. unfold raise_for_status. destruct (ok response); exact I. Qed.

Lemma guarded_fetch_checked client v1 v2 url base_domain :
  guarded (fetch_checked env client v1 v2 url base_domain)
    (λ r, internal base_domain r.2).
Proof.
  unfold fetch_checked.
  eapply guarded_bind; [apply guarded_get|]. intros response _.
  eapply guarded_bind with (Q := λ _, True).
  - destruct (is_redirect_status (status_code response)); [|by apply guarded_ret].
    destruct (location response) as [|c loc]; [by apply guarded_ret|].
    destruct (urljoin env url (c :: loc)) as [redirect_url|]; [|apply guarded_raise].
    destruct (is_external_redirect base_domain redirect_url);
      [apply guarded_return_none | apply guarded_get].
  - intros response' _.
    eapply guarded_bind; [apply guarded_raise_for_status|]. intros _ _.
    destruct (is_external_redirect base_domain (Net.url response')) eqn:E;
      [apply guarded_return_none | by apply guarded_ret].
Qed.

Lemma guarded_try_cloudscraper_first self url base_domain :
  guarded (try_cloudscraper_first env self url base_domain)
    (λ o, match o with
          | Some r => internal base_domain r.2
          | None => True
          end).
Proof.
  unfold try_cloudscraper_first. apply guarded_catch.
  - eapply guarded_bind; [apply guarded_fetch_checked|].
    intros r Hr. by apply guarded_ret.
  - intros [msg|response|msg].
    + destruct (from_external_domain base_domain msg); [apply guarded_return_none|].
      destruct (_ && _); [|by apply guarded_ret].
      apply guarded_catch.
      * eapply guarded_bind; [apply guarded_fetch_checked|].
        intros r Hr. by apply guarded_ret.
      * intros _. by apply guarded_ret.
    + destruct (http_error_is_external base_domain response);
        [apply guarded_return_none | by apply guarded_ret].
    + by apply guarded_ret.
Qed.

Lemma guarded_try_regular_session self url base_domain :
  guarded (try_regular_session env self url base_domain)
    (λ r, internal base_domain r.2).
Proof.
  unfold try_regular_session. apply guarded_catch.
  - apply guarded_fetch_checked.
  - intros [msg|response|msg].
    + destruct (from_external_domain base_domain msg); [apply guarded_return_none|].
      destruct (_ && _); [apply guarded_fetch_checked | apply guarded_raise].
    + destruct (http_error_is_external base_domain response);
        [apply guarded_return_none | apply guarded_raise].
    + apply guarded_raise.
Qed.

Lemma guarded_retry_unverified url base_domain response final_url :
  internal base_domain final_url →
  guarded (retry_unverified env url base_domain response final_url)
    (λ r, internal base_domain r.2).
Proof.
  intros Hint w. unfold retry_unverified, get.
  destruct (http_get env Cloudscraper url true (Some false) w) as [[r|e] w'];
    cbn [fst snd]; [|done].
  destruct (ok r); cbn [fst snd]; [|done].
  destruct (is_external_redirect base_domain (Net.url r)) eqn:E; cbn [fst snd];
    first [done | exact E].
Qed.

Lemma guarded_bot_protection_retry self url base_domain response final_url :
  internal base_domain final_url →
  guarded (bot_protection_retry env self url base_domain response final_url)
    (λ r, internal base_domain r.2).
Proof.
  intros Hint w. unfold bot_protection_retry, get.
  destruct (http_get env Cloudscraper url true None w) as [[r|e] w'];
    cbn [fst snd].
  - destruct (ok r); cbn [fst snd].
    + destruct (is_external_redirect base_domain (Net.url r)) eqn:E;
        cbn [fst snd]; first [done | exact E].
    + destruct (http_error_is_external base_domain (Some r)); cbn [fst snd]; done.
  - destruct e as [msg|r|msg]; cbn [fst snd].
    + destruct (from_external_domain base_domain msg); cbn [fst snd]; [done|].
      destruct (_ && _); cbn [fst snd]; [|done].
      by apply guarded_retry_unverified.
    + destruct (http_error_is_external base_domain r); cbn [fst snd]; done.
    + done.
Qed.

Lemma guarded_scrape_page_body self url use_cloudscraper_first base_domain :
  guarded (scrape_page_body env self url use_cloudscraper_first base_domain)
    (λ page, internal base_domain (page_url page)).
Proof.
  unfold scrape_page_body.
  eapply guarded_bind with
    (Q := λ o, match o with
               | Some r => internal base_domain r.2
               | None => True
               end).
  { destruct (_ && _); [apply guarded_try_cloudscraper_first | by apply guarded_ret]. }
  intros first Hfirst.
  eapply guarded_bind with (Q := λ r, internal base_domain r.1.2).
  { destruct first as [[response final_url]|].
    - by apply guarded_ret.
    - eapply guarded_bind; [apply guarded_try_regular_session|].
      intros r Hr. by apply guarded_ret. }
  intros [[response final_url] used] Hfinal. simpl in Hfinal.
  eapply guarded_bind with (Q := λ _, True).
  { destruct (is_external_redirect base_domain final_url);
      [apply guarded_return_none | by apply guarded_ret]. }
  intros _ _.
  eapply guarded_bind with (Q := λ r, internal base_domain r.2).
  { destruct (_ && _); [|by apply guarded_ret].
    destruct (has_cloudscraper self); [|by apply guarded_ret].
    by apply guarded_bot_protection_retry. }
  intros [response' final_url'] Hfinal'. simpl in Hfinal'.
  destruct (text response') as [html|].
  - by apply guarded_ret.
  - destruct (text_reencoded response') as [html|];
      [by apply guarded_ret | apply guarded_return_none].
Qed.

Lemma guarded_ssl_last_resort self url base_domain msg :
  guarded (ssl_last_resort env self url base_domain msg)
    (λ page, internal base_domain (page_url page)).
Proof.
  unfold ssl_last_resort.
  destruct (from_external_domain base_domain msg); [apply guarded_return_none|].
  destruct (_ && _); [|apply guarded_return_none].
  apply guarded_catch; [|intros _; apply guarded_return_none].
  eapply guarded_bind; [apply guarded_get|]. intros response _.
  eapply guarded_bind; [apply guarded_raise_for_status|]. intros _ _.
  destruct (is_external_redirect base_domain (Net.url response)) eqn:E;
    [apply guarded_return_none|].
  destruct (text response) as [html|]; [by apply guarded_ret|].
  destruct (text_reencoded response) as [html|];
    [by apply guarded_ret | apply guarded_raise].
Qed.

(** What a call of [scrape_page] does to the scraper: nothing when it
    returns [None]; when it returns a page, the page passed the domain
    check and is recorded. *)
Lemma scrape_page_result self url use_cloudscraper_first add base_domain w :
  match scrape_page env self url use_cloudscraper_first add base_domain w with
  | (None, self', _) => self' = self
  | (Some page, self', _) =>
      internal base_domain (page_url page) ∧
      self' = record_page self url add page ∧
      is_valid_url url = true ∧ url ∉ visited_urls self
  end.
Proof.
  unfold scrape_page.
  destruct (is_valid_url url) eqn:Ev; simpl; [|done].
  destruct (bool_decide (url ∈ visited_urls self)) eqn:Evis; [done|].
  apply bool_decide_eq_false in Evis.
  set (body := catch _ _).
  assert (Hbody : guarded body (λ page, internal base_domain (page_url page))).
  { unfold body. apply guarded_catch; [apply guarded_scrape_page_body|].
    intros [msg|r|msg]; [apply guarded_ssl_last_resort | | ];
      apply guarded_return_none. }
  specialize (Hbody w). destruct (body w) as [[page|r|e] w']; simpl in *.
  - done.
  - by subst.
  - done.
Qed.

End Guarded.

Lemma internal_host d final_url host :
  d ≠ [] → internal (Some d) final_url →
  netloc_of final_url = Some host → host = d.
Proof.
  intros Hd Hint Hhost. unfold internal, is_external_redirect in Hint.
  destruct d as [|c d]; [done|]. rewrite Hhost in Hint.
  apply negb_false_iff in Hint. by apply str_eqb_eq.
Qed.

(** The ['url'] of a page.  For a non-empty base domain [d], whatever the
    network answers, [scrape_page] returns [None], and then leaves the
    scraper as it was, or returns a page whose ['url'] passed the domain
    check: if [urlparse] reads a host from it, this host is [d]; the page
    appended to [scraped_pages], if any, is that page.  This is about the
    ['url'] entry of the page only: it does not say which reply the text
    and the status of the page come from. *)
Theorem scrape_page_stays_on_domain {W : Type} (env : Env W) (self : t)
    (url : str) (use_cloudscraper_first add_to_scraped_pages : bool)
    (d : str) (w : W) :
  d ≠ [] →
  match scrape_page env self url use_cloudscraper_first add_to_scraped_pages
          (Some d) w with
  | (None, self', _) => self' = self
  | (Some page, self', _) =>
      is_external_redirect (Some d) (page_url page) = false ∧
      (∀ host, netloc_of (page_url page) = Some host → host = d) ∧
      scraped_pages self' =
        (if add_to_scraped_pages then scraped_pages self ++ [page]
         else scraped_pages self)
  end.
Proof.
  intros Hd.
  pose proof (scrape_page_result env self url use_cloudscraper_first
                add_to_scraped_pages (Some d) w) as H.
  destruct (scrape_page env self url use_cloudscraper_first
              add_to_scraped_pages (Some d) w) as [[[page|] self'] w']; [|done].
  destruct H as (Hint & -> & _ & _). split; [exact Hint|]. split.
  - intros host. by apply internal_host.
  - reflexivity.
Qed.

Lemma scrape_page_stays_on_domain_witness :
  match scrape_page example_env example_scraper url_home false true
          (Some (L "ex.org")) tt with
  | (None, self', _) => self' = example_scraper
  | (Some page, self', _) =>
      is_external_redirect (Some (L "ex.org")) (page_url page) = false ∧
      (∀ host, netloc_of (page_url page) = Some host → host = L "ex.org") ∧
      scraped_pages self' = scraped_pages example_scraper ++ [page]
  end.
Proof.
  apply (scrape_page_stays_on_domain example_env example_scraper url_home
           false true (L "ex.org") tt).
  discriminate.
Defined.

(** On the small site: the home page is returned, with its own URL; the
    page that redirects to another host is not. *)
Example scrape_page_home :
  (scrape_page example_env example_scraper url_home false true
     (Some (L "ex.org")) tt).1.1 =
  Some (mkPage url_home (L "page https://ex.org") [url_files; url_c; url_b]
          200 19 None).
Proof. vm_compute. reflexivity. Qed.

Example scrape_page_external_redirect :
  (scrape_page example_env example_scraper url_r false true
     (Some (L "ex.org")) tt).1.1 = None.
Proof. vm_compute. reflexivity. Qed.

(** C1: the code does not keep the claim.  When the retry after a bot
    protection page ends on another host with an error status,
    [scrape_page] returns, and appends to [scraped_pages], a page with the
    text and the status of that host's reply, under the URL of the first
    reply. *)
Theorem scrape_page_keeps_foreign_reply :
  is_bot_protection_page protected_env (L "Just a moment...") = true ∧
  netloc_of (Net.url foreign_reply) = Some (L "evil.example") ∧
  ∃ self' w',
    scrape_page protected_env (init example_config true) url_p false true
      (Some (L "ex.org")) tt =
    (Some (mkPage url_p (L "forbidden by evil.example") [] 403 25 None),
     self', w') ∧
    scraped_pages self' =
      [mkPage url_p (L "forbidden by evil.example") [] 403 25 None].
Proof.
  split; [vm_compute; reflexivity|]. split; [vm_compute; reflexivity|].
  eexists _, _. split; [vm_compute; reflexivity|]. reflexivity.
Qed.

(** ** The loop of [scrape_site] *)

Section Loop.

Context {W : Type} (env : Env W).

(** The adaptive delay touches the delay and the two streaks only,
    whatever the product is. *)
Lemma on_success_with_frame times self :
  config (on_success_with times self) = config self ∧
  visited_urls (on_success_with times self) = visited_urls self ∧
  scraped_pages (on_success_with times self) = scraped_pages self ∧
  min_delay (on_success_with times self) = min_delay self ∧
  max_delay (on_success_with times self) = max_delay self.
Proof. unfold on_success_with. by destruct (_ && _). Qed.

Lemma on_failure_with_frame times self :
  config (on_failure_with times self) = config self ∧
  visited_urls (on_failure_with times self) = visited_urls self ∧
  scraped_pages (on_failure_with times self) = scraped_pages self ∧
  min_delay (on_failure_with times self) = min_delay self ∧
  max_delay (on_failure_with times self) = max_delay self.
Proof. unfold on_failure_with. by destruct (_ <? _)%nat. Qed.

Lemma on_success_frame self :
  config (on_success self) = config self ∧
  visited_urls (on_success self) = visited_urls self ∧
  scraped_pages (on_success self) = scraped_pages self ∧
  min_delay (on_success self) = min_delay self ∧
  max_delay (on_success self) = max_delay self.
Proof. apply on_success_with_frame. Qed.

Lemma on_failure_frame self :
  config (on_failure self) = config self ∧
  visited_urls (on_failure self) = visited_urls self ∧
  scraped_pages (on_failure self) = scraped_pages self ∧
  min_delay (on_failure self) = min_delay self ∧
  max_delay (on_failure self) = max_delay self.
Proof. apply on_failure_with_frame. Qed.

Lemma should_skip_url_config self self' link :
  config self' = config self →
  should_skip_url self' link = should_skip_url self link.
Proof. unfold should_skip_url. by intros ->. Qed.

(** The three ways through the body of the loop: the URL is skipped before
    any request; [scrape_page] returns a page; it returns [None]. *)
Lemma loop_step_with_cases times job c c' :
  loop_step_with env times job c = Some c' →
  ∃ current_url depth queue,
    url_queue c = (current_url, depth) :: queue ∧
    Z.of_nat (length (scraped_pages (scraper c))) < max_pages job ∧
    ((scraper c' = scraper c ∧ url_queue c' = queue ∧
      sleeps c' = sleeps c ∧ fetches c' = fetches c)
     ∨ (∃ page,
          let add :=
            negb (should_skip_url (scraper c) current_url && (0 <? depth)) in
          let self1 := record_page (scraper c) current_url add page in
          (current_url ∉ visited_urls (scraper c)) ∧
          internal (Some (base_domain job)) (page_url page) ∧
          scraper c' = on_success_with times self1 ∧
          sleeps c' = sleep_after (on_success_with times self1) (sleeps c) ∧
          fetches c' = (current_url, true) :: fetches c ∧
          (url_queue c' = queue ∨
           url_queue c' =
             queue ++ map (λ link, (link, depth + 1))
                          (links_to_enqueue (on_success_with times self1)
                             (page_links page))))
     ∨ ((current_url ∉ visited_urls (scraper c)) ∧
        scraper c' = on_failure_with times (scraper c) ∧ url_queue c' = queue ∧
        sleeps c' = sleeps c ∧
        (fetches c' = fetches c ∨
         fetches c' = (current_url, false) :: fetches c))).
Proof.
  unfold loop_step_with. intros H.
  destruct (url_queue c) as [|[current_url depth] queue]; [done|].
  destruct (Z.of_nat (length (scraped_pages (scraper c))) <? max_pages job)
    eqn:Elen; [|done].
  apply Z.ltb_lt in Elen. cbn [negb] in H.
  exists current_url, depth, queue. split; [done|]. split; [done|].
  destruct (bool_decide (current_url ∈ visited_urls (scraper c))) eqn:Evis;
    cbn [orb] in H.
  { left. by inversion H. }
  apply bool_decide_eq_false in Evis.
  destruct (max_depth job <? depth); [left; by inversion H|].
  destruct (netloc_of current_url) as [current_domain|];
    [|left; by inversion H].
  destruct (negb (str_eqb current_domain (base_domain job)));
    [left; by inversion H|].
  set (add := negb (should_skip_url (scraper c) current_url && (0 <? depth)))
    in *.
  set (first := (depth =? 0) && has_cloudscraper (scraper c)) in *.
  pose proof (scrape_page_result env (scraper c) current_url first add
                (Some (base_domain job)) (world c)) as Hres.
  destruct (scrape_page env (scraper c) current_url first add
              (Some (base_domain job)) (world c)) as [[[page|] self'] w'].
  - destruct Hres as (Hint & -> & Hvalid & _). rewrite Hvalid in H.
    right; left. exists page. cbn zeta.
    split; [done|]. split; [done|].
    destruct (_ && should_follow_links _ _ _); inversion H; subst c'; cbn;
      (split; [done|]); (split; [done|]); (split; [done|]); first [by left | by right].
  - subst self'. right; right. split; [done|].
    destruct (is_valid_url current_url); inversion H; subst c'; cbn;
      (split; [done|]); (split; [done|]); (split; [done|]); first [by left | by right].
Qed.

Lemma loop_step_cases job c c' :
  loop_step env job c = Some c' →
  ∃ current_url depth queue,
    url_queue c = (current_url, depth) :: queue ∧
    Z.of_nat (length (scraped_pages (scraper c))) < max_pages job ∧
    ((scraper c' = scraper c ∧ url_queue c' = queue ∧
      sleeps c' = sleeps c ∧ fetches c' = fetches c)
     ∨ (∃ page,
          let add :=
            negb (should_skip_url (scraper c) current_url && (0 <? depth)) in
          let self1 := record_page (scraper c) current_url add page in
          (current_url ∉ visited_urls (scraper c)) ∧
          internal (Some (base_domain job)) (page_url page) ∧
          scraper c' = on_success self1 ∧
          sleeps c' = sleep_after (on_success self1) (sleeps c) ∧
          fetches c' = (current_url, true) :: fetches c ∧
          (url_queue c' = queue ∨
           url_queue c' =
             queue ++ map (λ link, (link, depth + 1))
                          (links_to_enqueue (on_success self1)
                             (page_links page))))
     ∨ ((current_url ∉ visited_urls (scraper c)) ∧
        scraper c' = on_failure (scraper c) ∧ url_queue c' = queue ∧
        sleeps c' = sleeps c ∧
        (fetches c' = fetches c ∨
         fetches c' = (current_url, false) :: fetches c))).
Proof. apply loop_step_with_cases. Qed.

(** The loop run for one more iteration is the loop so far, then one
    iteration. *)
Lemma run_S job n c :
  run env job (S n) c =
  match loop_step env job (run env job n c) with
  | None => run env job n c
  | Some c' => c'
  end.
Proof.
  revert c. induction n as [|n IH]; intros c; [simpl; by destruct loop_step|].
  change (run env job (S (S n)) c)
    with (match loop_step env job c with
          | None => c
          | Some c' => run env job (S n) c'
          end).
  change (run env job (S n) c)
    with (match loop_step env job c with
          | None => c
          | Some c' => run env job n c'
          end).
  destruct (loop_step env job c) as [c1|] eqn:E1; [apply IH|].
  by rewrite E1.
Qed.

(** Once the loop is over, it stays over. *)
Lemma run_done job n c :
  loop_step env job c = None → run env job n c = c.
Proof. intros H. destruct n; simpl; [done|]. by rewrite H. Qed.

Lemma run_add job n m c :
  run env job (n + m) c = run env job m (run env job n c).
Proof.
  revert c. induction n as [|n IH]; intros c; [done|].
  simpl. destruct (loop_step env job c) as [c1|] eqn:E; [apply IH|].
  by rewrite run_done.
Qed.

End Loop.

Lemma is_valid_url_netloc url :
  is_valid_url url = true → ∃ host, netloc_of url = Some host ∧ host ≠ [].
Proof.
  unfold is_valid_url, netloc_of. destruct url as [|c url]; [done|].
  destruct (_ || _); [done|]. destruct (_ && _); [done|].
  destruct (urlparse (c :: url)) as [parsed|]; [|done].
  destruct (scheme parsed); [done|]. destruct (netloc parsed) eqn:E; [done|].
  intros _. eexists. split; [reflexivity|]. done.
Qed.

Lemma links_to_enqueue_spec self links link :
  link ∈ links_to_enqueue self links ↔
  link ∈ links ∧ (link ∉ visited_urls self) ∧
  should_skip_url self link = false.
Proof.
  unfold links_to_enqueue. rewrite list_elem_of_filter.
  rewrite andb_True, !negb_True, bool_decide_spec, Is_true_false.
  tauto.
Qed.

Lemma no_refetch_nil : no_refetch [].
Proof. intros later u earlier H. by destruct later. Qed.

Lemma no_refetch_cons log u b :
  no_refetch log → (∀ v, (v, true) ∈ log → v ≠ u) →
  no_refetch ((u, b) :: log).
Proof.
  intros Hlog Hu later v earlier Heq.
  destruct later as [|[u' b'] later]; [apply not_elem_of_nil|].
  simpl in Heq. injection Heq as <- <- ->. simpl.
  apply not_elem_of_cons. split.
  - apply Hu. apply elem_of_app. right. apply list_elem_of_here.
  - by apply (Hlog later v earlier).
Qed.

(** What [scrape_site] sets up before its loop. *)
Lemma scrape_site_start_inv {W} (self : t) (w : W) base_url depth_arg pages_arg
    job c0 :
  scrape_site_start self w base_url depth_arg pages_arg = Some (job, c0) →
  is_valid_url base_url = true ∧
  netloc_of base_url = Some (base_domain job) ∧
  max_depth job = or_default depth_arg (cfg_max_depth (config self)) ∧
  max_pages job = or_default pages_arg (cfg_max_pages_per_site (config self)) ∧
  c0 = {| scraper := {| config := config self;
                        has_cloudscraper := has_cloudscraper self;
                        visited_urls := ∅;
                        scraped_pages := [];
                        current_delay := current_delay self;
                        min_delay := min_delay self;
                        max_delay := max_delay self;
                        consecutive_errors := consecutive_errors self;
                        consecutive_successes := consecutive_successes self |};
          world := w;
          url_queue := [(base_url, 0)];
          sleeps := [];
          fetches := [] |}.
Proof.
  unfold scrape_site_start. destruct (is_valid_url base_url); [|done]. simpl.
  destruct (netloc_of base_url) as [d|]; [|done].
  intros H. injection H as <- <-. done.
Qed.

Section Crawl.

Context {W : Type} (env : Env W).

Lemma crawl_inv_start (self : t) (w : W) base_url depth_arg pages_arg job c0 :
  scrape_site_start self w base_url depth_arg pages_arg = Some (job, c0) →
  crawl_inv (config self) job c0.
Proof.
  intros H. apply scrape_site_start_inv in H as (_ & _ & _ & _ & ->).
  unfold crawl_inv. cbn.
  split; [done|]. split; [intros u Hu; by apply elem_of_nil in Hu|].
  split; [apply no_refetch_nil|].
  split; [intros page Hp; by apply elem_of_nil in Hp|].
  split; [intros page Hp; by apply elem_of_nil in Hp|].
  split; [lia|].
  intros link depth Hin. apply list_elem_of_singleton in Hin.
  injection Hin as -> ->. split; lia.
Qed.

(** In the loop, a page that [scrape_page] returns is collected: the URL
    taken from the queue is the base URL or matches no skip pattern. *)
Lemma crawl_inv_add cfg job (c : Crawl (W:=W)) current_url depth queue :
  crawl_inv cfg job c → url_queue c = (current_url, depth) :: queue →
  negb (should_skip_url (scraper c) current_url && (0 <? depth)) = true.
Proof.
  intros (_ & _ & _ & _ & _ & _ & Hq) Eq.
  destruct (Hq current_url depth) as [H0 Hskip].
  { rewrite Eq. apply list_elem_of_here. }
  destruct (0 <? depth) eqn:E.
  - apply Z.ltb_lt in E. rewrite (Hskip E). done.
  - by rewrite andb_false_r.
Qed.

Lemma crawl_inv_step cfg job c c' :
  crawl_inv cfg job c → loop_step env job c = Some c' → crawl_inv cfg job c'.
Proof.
  intros Hinv Hstep.
  destruct (loop_step_cases env job c c' Hstep)
    as (current_url & depth & queue & Eq & Hlen & Hcases).
  pose proof (crawl_inv_add cfg job c current_url depth queue Hinv Eq) as Hadd.
  destruct Hinv as (Hcfg & Hvis & Hlog & Hpages & Hint & Hbound & Hq).
  assert (Hqueue : ∀ link d, (link, d) ∈ queue →
            0 ≤ d ∧ (0 < d → should_skip_url (scraper c) link = false)).
  { intros link d Hin. apply Hq. rewrite Eq. by apply list_elem_of_further. }
  destruct (Hq current_url depth) as [Hdepth _].
  { rewrite Eq. apply list_elem_of_here. }
  destruct Hcases as [(Es & Equeue & _ & Ef)
                     |[(page & Hnew & Hinternal & Es & _ & Ef & Equeue)
                      |(Hnew & Es & Equeue & _ & Ef)]].
  - unfold crawl_inv. rewrite Es, Ef, Equeue. done.
  - cbn zeta in *. rewrite Hadd in Es.
    destruct (on_success_frame
                (record_page (scraper c) current_url true page))
      as (Ec & Ev & Ep & _ & _).
    rewrite <- Es in Ec, Ev, Ep. cbn in Ec, Ev, Ep.
    unfold crawl_inv. cbn zeta. rewrite Ec, Ev, Ep, Ef.
    split; [done|]. split.
    { intros u Hu. apply elem_of_cons in Hu as [Hu|Hu].
      - injection Hu as ->.
        apply elem_of_union; right. apply elem_of_union; left.
        by apply elem_of_singleton.
      - do 2 (apply elem_of_union; right). by apply Hvis. }
    split.
    { apply no_refetch_cons; [done|]. intros v Hv ->. by apply Hnew, Hvis. }
    split.
    { intros p Hp. apply elem_of_app in Hp as [Hp|Hp].
      - do 2 (apply elem_of_union; right). by apply Hpages.
      - apply list_elem_of_singleton in Hp as ->.
        apply elem_of_union; left. by apply elem_of_singleton. }
    split.
    { intros p Hp. apply elem_of_app in Hp as [Hp|Hp]; [by apply Hint|].
      by apply list_elem_of_singleton in Hp as ->. }
    split.
    { rewrite length_app. simpl. lia. }
    assert (Hskip : ∀ link, should_skip_url (scraper c') link =
                            should_skip_url (scraper c) link).
    { intros link. by apply should_skip_url_config. }
    intros link d Hin. rewrite Hskip.
    destruct Equeue as [Equeue|Equeue]; rewrite Equeue in Hin;
      [by apply Hqueue|].
    apply elem_of_app in Hin as [Hin|Hin]; [by apply Hqueue|].
    apply list_elem_of_fmap in Hin as (l & Hl & Hin).
    injection Hl as -> ->. split; [lia|]. intros _.
    rewrite Hadd, <- Es in Hin. apply links_to_enqueue_spec in Hin as (_ & _ & Hin).
    by rewrite <- Hskip.
  - destruct (on_failure_frame (scraper c)) as (Ec & Ev & Ep & _ & _).
    rewrite <- Es in Ec, Ev, Ep.
    unfold crawl_inv. cbn zeta. rewrite Ec, Ev, Ep, Equeue.
    assert (Hskip : ∀ link, should_skip_url (scraper c') link =
                            should_skip_url (scraper c) link).
    { intros link. by apply should_skip_url_config. }
    split; [done|].
    destruct Ef as [Ef|Ef]; rewrite Ef.
    + repeat (split; [done|]). intros link d Hin. rewrite Hskip.
      by apply Hqueue.
    + split.
      { intros u Hu. apply elem_of_cons in Hu as [Hu|Hu]; [done|].
        by apply Hvis. }
      split.
      { apply no_refetch_cons; [done|]. intros v Hv ->. by apply Hnew, Hvis. }
      repeat (split; [done|]). intros link d Hin. rewrite Hskip.
      by apply Hqueue.
Qed.

Lemma crawl_inv_run cfg job c n :
  crawl_inv cfg job c → crawl_inv cfg job (run env job n c).
Proof.
  intros Hinv. induction n as [|n IH]; [done|].
  rewrite run_S. destruct (loop_step env job (run env job n c)) eqn:E; [|done].
  by eapply crawl_inv_step.
Qed.

(** The collected pages only grow. *)
Lemma loop_step_pages cfg job c c' :
  crawl_inv cfg job c → loop_step env job c = Some c' →
  scraped_pages (scraper c) `prefix_of` scraped_pages (scraper c') ∧
  (scraped_pages (scraper c') = scraped_pages (scraper c) ∧
   (length (url_queue c') < length (url_queue c))%nat
   ∨ ∃ page, scraped_pages (scraper c') = scraped_pages (scraper c) ++ [page]).
Proof.
  intros Hinv Hstep.
  destruct (loop_step_cases env job c c' Hstep)
    as (current_url & depth & queue & Eq & Hlen & Hcases).
  pose proof (crawl_inv_add cfg job c current_url depth queue Hinv Eq) as Hadd.
  destruct Hcases as [(Es & Equeue & _ & Ef)
                     |[(page & Hnew & Hinternal & Es & _ & Ef & Equeue)
                      |(Hnew & Es & Equeue & _ & Ef)]].
  - rewrite Es, Equeue, Eq. split; [done|]. left. simpl. split; [done|lia].
  - cbn zeta in *. rewrite Hadd in Es.
    destruct (on_success_frame
                (record_page (scraper c) current_url true page))
      as (_ & _ & Ep & _ & _).
    rewrite <- Es in Ep. cbn in Ep. rewrite Ep.
    split; [by apply prefix_app_r|]. right. by exists page.
  - destruct (on_failure_frame (scraper c)) as (_ & _ & Ep & _ & _).
    rewrite <- Es in Ep. rewrite Ep, Equeue, Eq. split; [done|]. left.
    simpl. split; [done|lia].
Qed.

Lemma run_pages_prefix cfg job c n m :
  crawl_inv cfg job c → (n ≤ m)%nat →
  scraped_pages (scraper (run env job n c)) `prefix_of`
  scraped_pages (scraper (run env job m c)).
Proof.
  intros Hinv Hnm. induction Hnm as [|m Hnm IH]; [done|].
  etrans; [exact IH|]. rewrite run_S.
  destruct (loop_step env job (run env job m c)) as [c'|] eqn:E; [|done].
  eapply loop_step_pages; [|exact E]. by apply crawl_inv_run.
Qed.

(** The loop ends: an iteration collects one more page, of at most
    [max_pages], or leaves the pages alone and shortens the queue. *)
Lemma run_ends cfg job k :
  ∀ q c,
    crawl_inv cfg job c →
    max_pages job - Z.of_nat (length (scraped_pages (scraper c))) ≤ Z.of_nat k →
    (length (url_queue c) ≤ q)%nat →
    ∃ n, loop_step env job (run env job n c) = None.
Proof.
  induction k as [|k IHk]; intros q; induction q as [|q IHq];
    intros c Hinv Hk Hq;
    destruct (loop_step env job c) as [c'|] eqn:E;
    try (by exists 0%nat).
  all: destruct (loop_step_cases env job c c' E)
         as (current_url & depth & queue & Eq & Hlen & _);
       try lia.
  all: try (rewrite Eq in Hq; simpl in Hq; lia).
  all: pose proof (crawl_inv_step cfg job c c' Hinv E) as Hinv'.
  all: destruct (loop_step_pages cfg job c c' Hinv E)
         as (_ & [(Ep & Hshort)|(page & Ep)]).
  - destruct (IHq c') as [n Hn]; [done|rewrite Ep; lia|lia|].
    exists (S n). simpl. by rewrite E.
  - destruct (IHk (length (url_queue c')) c') as [n Hn]; [done| |done|].
    { rewrite Ep, length_app. simpl. lia. }
    exists (S n). simpl. by rewrite E.
Qed.

End Crawl.

(** *** What a crawl keeps true *)

(** The list of collected pages only grows during a crawl, by appending,
    and never holds more than [max_pages] pages, where [max_pages] is the
    argument of [scrape_site], or the configured value when the argument is
    [None] or [0]. *)
Theorem scrape_site_page_count {W : Type} (env : Env W) (self : t) (w : W)
    (base_url : str) (depth_arg pages_arg : option Z) (job : Job)
    (c0 : Crawl) :
  scrape_site_start self w base_url depth_arg pages_arg = Some (job, c0) →
  ∀ n m, (n ≤ m)%nat →
    scraped_pages (scraper (run env job n c0)) `prefix_of`
      scraped_pages (scraper (run env job m c0)) ∧
    Z.of_nat (length (scraped_pages (scraper (run env job m c0)))) ≤
      Z.max 0 (or_default pages_arg (cfg_max_pages_per_site (config self))).
Proof.
  intros Hstart n m Hnm.
  pose proof (crawl_inv_start self w base_url _ _ job c0 Hstart) as Hinv.
  split; [by eapply run_pages_prefix|].
  pose proof (crawl_inv_run env _ job c0 m Hinv)
    as (_ & _ & _ & _ & _ & Hbound & _).
  apply scrape_site_start_inv in Hstart as (_ & _ & _ & <- & _). done.
Qed.

Lemma scrape_site_page_count_witness :
  scraped_pages (scraper (run example_env example_job 1 example_start))
    `prefix_of`
    scraped_pages (scraper (run example_env example_job 5 example_start)) ∧
  Z.of_nat (length (scraped_pages
                      (scraper (run example_env example_job 5 example_start))))
    ≤ Z.max 0 (or_default None
                 (cfg_max_pages_per_site (config example_scraper))).
Proof.
  apply (scrape_site_page_count example_env example_scraper tt url_home
           None None example_job example_start).
  - vm_compute. reflexivity.
  - lia.
Defined.

(** Every page that [scrape_site] returns is on the host of the base URL:
    the host of its URL, as [urlparse] reads it, is the host of
    [base_url]. *)
Theorem scrape_site_pages_on_base_domain {W : Type} (env : Env W)
    (fuel : nat) (self : t) (w : W) (base_url : str)
    (depth_arg pages_arg : option Z) (pages : list Page) (c : Crawl) :
  scrape_site env fuel self w base_url depth_arg pages_arg
    = Some (pages, c) →
  ∀ page host,
    page ∈ pages → netloc_of (page_url page) = Some host →
    netloc_of base_url = Some host.
Proof.
  unfold scrape_site. intros H page host Hpage Hhost.
  destruct (scrape_site_start self w base_url depth_arg pages_arg)
    as [[job c0]|] eqn:Hstart.
  - destruct (loop_step env job (run env job fuel c0)); [done|].
    injection H as <- <-.
    pose proof (crawl_inv_run env _ job c0 fuel
                  (crawl_inv_start self w base_url _ _ job c0 Hstart))
      as (_ & _ & _ & _ & Hint & _).
    apply scrape_site_start_inv in Hstart as (Hvalid & Hbase & _).
    apply is_valid_url_netloc in Hvalid as (d & Hd & Hne).
    rewrite Hbase in Hd. injection Hd as <-. rewrite Hbase. f_equal.
    symmetry. eapply internal_host; [exact Hne| |exact Hhost].
    by apply Hint.
  - injection H as <- <-. by apply elem_of_nil in Hpage.
Qed.

Lemma scrape_site_pages_on_base_domain_witness :
  netloc_of url_home = Some (L "ex.org").
Proof.
  set (page := mkPage url_c (L "page https://ex.org/c") [url_b] 200 21 None).
  assert (H : ∃ pages c,
            scrape_site example_env 10 example_scraper tt url_home None None
              = Some (pages, c) ∧ page ∈ pages).
  { eexists _, _. split; [vm_compute; reflexivity|].
    apply list_elem_of_further, list_elem_of_here. }
  destruct H as (pages & c & H & Hin).
  apply (scrape_site_pages_on_base_domain example_env 10 example_scraper tt
           url_home None None pages c H page (L "ex.org") Hin).
  vm_compute. reflexivity.
Defined.

(** A link that matches a skip pattern is never appended to the queue: the
    queue of a crawl holds no URL that matches a skip pattern at a depth
    above 0. *)
Theorem scrape_site_skip_pattern_never_queued {W : Type} (env : Env W)
    (self : t) (w : W) (base_url : str) (depth_arg pages_arg : option Z)
    (job : Job) (c0 : Crawl) :
  scrape_site_start self w base_url depth_arg pages_arg = Some (job, c0) →
  ∀ n link depth,
    should_skip_url self link = true → 0 < depth →
    (link, depth) ∉ url_queue (run env job n c0).
Proof.
  intros Hstart n link depth Hskip Hdepth Hin.
  pose proof (crawl_inv_run env _ job c0 n
                (crawl_inv_start self w base_url _ _ job c0 Hstart))
    as (Hcfg & _ & _ & _ & _ & _ & Hq).
  destruct (Hq link depth Hin) as [_ H]. specialize (H Hdepth).
  rewrite (should_skip_url_config self _ link Hcfg) in H. congruence.
Qed.

Lemma scrape_site_skip_pattern_never_queued_witness :
  url_files ∈ page_links (mkPage url_home (L "page https://ex.org")
                            [url_files; url_c; url_b] 200 19 None) ∧
  (url_files, 1) ∉ url_queue (run example_env example_job 1 example_start).
Proof.
  split; [apply list_elem_of_here|].
  apply (scrape_site_skip_pattern_never_queued example_env example_scraper tt
           url_home None None example_job example_start).
  - vm_compute. reflexivity.
  - vm_compute. reflexivity.
  - lia.
Defined.

(** C2: the code does not keep the claim.  On the small site the home page
    links to [/files/list], which matches the skip pattern and has not been
    visited; after the home page has been fetched the queue holds the two
    other links and not this one, and the crawl ends without a fetch of
    it. *)
Theorem scrape_site_drops_skip_pattern_link :
  (scrape_page example_env example_scraper url_home false true
     (Some (L "ex.org")) tt).1.1 =
    Some (mkPage url_home (L "page https://ex.org") [url_files; url_c; url_b]
            200 19 None) ∧
  should_skip_url example_scraper url_files = true ∧
  (url_files ∉ visited_urls
                 (scraper (run example_env example_job 1 example_start))) ∧
  url_queue (run example_env example_job 1 example_start) =
    [(url_c, 1); (url_b, 1)] ∧
  ∃ pages c,
    scrape_site example_env 10 example_scraper tt url_home None None =
      Some (pages, c) ∧
    map fst (fetches c) = [url_b; url_b; url_c; url_home].
Proof.
  split; [vm_compute; reflexivity|]. split; [vm_compute; reflexivity|].
  split.
  - apply (bool_decide_eq_false_1 _). vm_compute. reflexivity.
  - split; [vm_compute; reflexivity|].
    eexists _, _. split; [vm_compute; reflexivity|]. reflexivity.
Qed.

(** [scrape_site] returns, whatever the network answers: its loop ends
    after finitely many iterations, and the result does not depend on how
    many more are allowed. *)
Theorem scrape_site_terminates {W : Type} (env : Env W) (self : t) (w : W)
    (base_url : str) (depth_arg pages_arg : option Z) :
  ∃ fuel pages c,
    ∀ fuel', (fuel ≤ fuel')%nat →
      scrape_site env fuel' self w base_url depth_arg pages_arg
        = Some (pages, c).
Proof.
  unfold scrape_site.
  destruct (scrape_site_start self w base_url depth_arg pages_arg)
    as [[job c0]|] eqn:Hstart.
  - pose proof (crawl_inv_start self w base_url _ _ job c0 Hstart) as Hinv.
    destruct (run_ends env _ job
                (Z.to_nat (max_pages job)) (length (url_queue c0)) c0 Hinv)
      as [n Hn]; [lia|done|].
    exists n, (scraped_pages (scraper (run env job n c0))), (run env job n c0).
    intros fuel' Hle.
    replace fuel' with (n + (fuel' - n))%nat by lia.
    rewrite run_add, (run_done env job _ _ Hn), Hn. done.
  - by exists 0%nat, [], {| scraper := self; world := w; url_queue := [];
                            sleeps := []; fetches := [] |}.
Qed.

(** *** The adaptive delay *)

Lemma Qgtb_true a b : Qgtb a b = true ↔ (b < a)%Q.
Proof.
  unfold Qgtb. rewrite Qgt_alt. destruct (a ?= b)%Q; split; congruence.
Qed.

Lemma Qgtb_false a b : Qgtb a b = false ↔ (a <= b)%Q.
Proof.
  unfold Qgtb. rewrite Qle_alt. destruct (a ?= b)%Q; split; congruence.
Qed.

Lemma cons_neq {A} (x : A) (l : list A) : l ≠ x :: l.
Proof. intros H. apply (f_equal length) in H. simpl in H. lia. Qed.

(** The lines after a page was returned. *)
Lemma on_success_with_spec times self :
  consecutive_errors (on_success_with times self) = 0%nat ∧
  ((5 ≤ consecutive_successes self)%nat ∧
   (min_delay self < current_delay self)%Q →
   current_delay (on_success_with times self)
     = Qmax (min_delay self) (times (current_delay self) (9 # 10)) ∧
   consecutive_successes (on_success_with times self) = 0%nat) ∧
  ((consecutive_successes self < 5)%nat ∨
   (current_delay self <= min_delay self)%Q →
   current_delay (on_success_with times self) = current_delay self ∧
   consecutive_successes (on_success_with times self)
     = S (consecutive_successes self)).
Proof.
  unfold on_success_with.
  destruct (5 <? S (consecutive_successes self))%nat eqn:E5;
    [apply Nat.ltb_lt in E5 | apply Nat.ltb_ge in E5];
    (destruct (Qgtb (current_delay self) (min_delay self)) eqn:Eq;
     [apply Qgtb_true in Eq | apply Qgtb_false in Eq]); cbn;
    (split; [done|]); split; try done.
  - intros [H|H]; [lia|]. exfalso. by apply (Qlt_not_le _ _ Eq).
  - intros [_ H]. exfalso. by apply (Qlt_not_le _ _ H).
  - intros [H _]. lia.
  - intros [H _]. lia.
Qed.

(** The lines after no page was returned. *)
Lemma on_failure_with_spec times self :
  consecutive_successes (on_failure_with times self) = 0%nat ∧
  consecutive_errors (on_failure_with times self)
    = S (consecutive_errors self) ∧
  ((2 ≤ consecutive_errors self)%nat →
   current_delay (on_failure_with times self)
     = Qmin (max_delay self) (times (current_delay self) (3 # 2))) ∧
  ((consecutive_errors self < 2)%nat →
   current_delay (on_failure_with times self) = current_delay self).
Proof.
  unfold on_failure_with.
  destruct (2 <? S (consecutive_errors self))%nat eqn:E2;
    [apply Nat.ltb_lt in E2 | apply Nat.ltb_ge in E2]; cbn;
    (split; [done|]); (split; [done|]); split; first [done | lia].
Qed.

(** C5, as amended.  One iteration of the loop of [scrape_site], for every
    network and whatever the product of two floats is.

    A fetch that returned a page clears the failure streak.  If the
    success streak was at 5 or more, so that this is the sixth page in a
    row at least, and the delay is above [min_delay], the delay becomes
    [max(min_delay, delay * 0.9)] and the success streak is cleared;
    otherwise the delay stays and the success streak grows by one.  The
    loop then sleeps for the resulting delay, if it is positive.

    A fetch that returned no page clears the success streak and makes the
    failure streak grow by one.  If the failure streak was at 2 or more, so
    that this is the third failure in a row at least, the delay becomes
    [min(max_delay, delay * 1.5)]; otherwise it stays.  The loop does not
    sleep. *)
Theorem scrape_site_adaptive_delay {W : Type} (env : Env W)
    (times : Q → Q → Q) (job : Job) (c c' : Crawl) :
  loop_step_with env times job c = Some c' →
  let self := scraper c in
  let self' := scraper c' in
  (∀ u, fetches c' = (u, true) :: fetches c →
     consecutive_errors self' = 0%nat ∧
     ((5 ≤ consecutive_successes self)%nat ∧
      (min_delay self < current_delay self)%Q →
      current_delay self'
        = Qmax (min_delay self) (times (current_delay self) (9 # 10)) ∧
      consecutive_successes self' = 0%nat) ∧
     ((consecutive_successes self < 5)%nat ∨
      (current_delay self <= min_delay self)%Q →
      current_delay self' = current_delay self ∧
      consecutive_successes self' = S (consecutive_successes self)) ∧
     ((0 < current_delay self')%Q →
      sleeps c' = current_delay self' :: sleeps c) ∧
     ((current_delay self' <= 0)%Q → sleeps c' = sleeps c)) ∧
  (∀ u, fetches c' = (u, false) :: fetches c →
     consecutive_successes self' = 0%nat ∧
     consecutive_errors self' = S (consecutive_errors self) ∧
     ((2 ≤ consecutive_errors self)%nat →
      current_delay self'
        = Qmin (max_delay self) (times (current_delay self) (3 # 2))) ∧
     ((consecutive_errors self < 2)%nat →
      current_delay self' = current_delay self) ∧
     sleeps c' = sleeps c).
Proof.
  intros Hstep.
  destruct (loop_step_with_cases env times job c c' Hstep)
    as (current_url & depth & queue & _ & _ & Hcases).
  destruct Hcases as [(Es & _ & Esl & Ef)
                     |[(page & _ & _ & Es & Esl & Ef & _)
                      |(_ & Es & _ & Esl & Ef)]]; cbn zeta in *.
  - rewrite Ef. split; intros u Hu; by apply cons_neq in Hu.
  - set (self1 := record_page _ _ _ _) in *.
    destruct (on_success_with_spec times self1) as (He & Hred & Hkeep).
    rewrite Es, Ef. split.
    + intros u _. split; [done|]. split; [exact Hred|]. split; [exact Hkeep|].
      rewrite Esl. unfold sleep_after. split; intros H.
      * apply Qgtb_true in H. by rewrite H.
      * apply Qgtb_false in H. by rewrite H.
    + intros u Hu. discriminate.
  - destruct (on_failure_with_spec times (scraper c)) as (Hs & He & Hup & Hkeep).
    rewrite Es. split.
    + intros u Hu. destruct Ef as [Ef|Ef]; rewrite Ef in Hu;
        [by apply cons_neq in Hu | discriminate].
    + intros u _. done.
Qed.

(** On the chain of pages, with the exact product: the sixth page in a row
    brings the delay of one second down. *)
Lemma scrape_site_adaptive_delay_witness :
  loop_step_with chain_env Qmult chain_job
    (run chain_env chain_job 5 chain_start) =
    Some (run chain_env chain_job 6 chain_start) ∧
  consecutive_successes (scraper (run chain_env chain_job 5 chain_start))
    = 5%nat ∧
  current_delay (scraper (run chain_env chain_job 6 chain_start))
    = Qmax (1 # 2) (1 * (9 # 10)) ∧
  consecutive_successes (scraper (run chain_env chain_job 6 chain_start))
    = 0%nat ∧
  sleeps (run chain_env chain_job 6 chain_start)
    = current_delay (scraper (run chain_env chain_job 6 chain_start))
      :: sleeps (run chain_env chain_job 5 chain_start).
Proof.
  assert (Hstep : loop_step_with chain_env Qmult chain_job
                    (run chain_env chain_job 5 chain_start) =
                  Some (run chain_env chain_job 6 chain_start)).
  { vm_compute. reflexivity. }
  destruct (scrape_site_adaptive_delay chain_env Qmult chain_job _ _ Hstep)
    as (Hok & _).
  destruct (Hok (L "https://ex.org/n/n/n/n/n"))
    as (_ & Hred & _ & Hsleep & _).
  { vm_compute. reflexivity. }
  destruct Hred as [Hdelay Hstreak].
  { split; [vm_compute; lia|]. vm_compute. reflexivity. }
  split; [exact Hstep|]. split; [vm_compute; reflexivity|].
  split; [exact Hdelay|]. split; [exact Hstreak|].
  apply Hsleep. vm_compute. reflexivity.
Defined.

(** C5 as stated fails: on the chain of pages, five pages in a row leave
    the delay of one second, which is above [min_delay], as it is, and the
    success streak is not cleared.  No product is computed on the way. *)
Lemma adaptive_delay_unchanged_after_five :
  fetches (run chain_env chain_job 5 chain_start) =
    [ (L "https://ex.org/n/n/n/n", true); (L "https://ex.org/n/n/n", true);
      (L "https://ex.org/n/n", true); (L "https://ex.org/n", true);
      (L "https://ex.org", true) ] ∧
  current_delay chain_scraper = 1%Q ∧
  min_delay chain_scraper = (1 # 2)%Q ∧
  current_delay (scraper (run chain_env chain_job 5 chain_start)) = 1%Q ∧
  consecutive_successes (scraper (run chain_env chain_job 5 chain_start))
    = 5%nat.
Proof. vm_compute. repeat split; reflexivity. Qed.

(** *** Fetches and pages *)

(** A fetch that returned no page leaves the set of visited URLs as it
    was. *)
Lemma loop_step_failed_visited {W : Type} (env : Env W) job (c c' : Crawl) u :
  loop_step env job c = Some c' →
  fetches c' = (u, false) :: fetches c →
  visited_urls (scraper c') = visited_urls (scraper c) ∧
  (u ∉ visited_urls (scraper c')).
Proof.
  intros Hstep Hf.
  destruct (loop_step_cases env job c c' Hstep)
    as (current_url & depth & queue & Eq & _ & Hcases).
  destruct Hcases as [(_ & _ & _ & Ef)
                     |[(page & _ & _ & _ & _ & Ef & _)
                      |(Hnew & Es & Equeue & _ & Ef)]].
  - rewrite Ef in Hf. by apply cons_neq in Hf.
  - rewrite Ef in Hf. discriminate.
  - destruct Ef as [Ef|Ef]; rewrite Ef in Hf; [by apply cons_neq in Hf|].
    injection Hf as <-.
    destruct (on_failure_frame (scraper c)) as (_ & Ev & _).
    rewrite Es, Ev. done.
Qed.

(** A URL that is fetched was not visited. *)
Lemma loop_step_fetch_new {W : Type} (env : Env W) job (c c' : Crawl) u b :
  loop_step env job c = Some c' →
  fetches c' = (u, b) :: fetches c →
  u ∉ visited_urls (scraper c).
Proof.
  intros Hstep Hf.
  destruct (loop_step_cases env job c c' Hstep)
    as (current_url & depth & queue & _ & _ & Hcases).
  destruct Hcases as [(_ & _ & _ & Ef)
                     |[(page & Hnew & _ & _ & _ & Ef & _)
                      |(Hnew & _ & _ & _ & Ef)]].
  - rewrite Ef in Hf. by apply cons_neq in Hf.
  - rewrite Ef in Hf. by injection Hf as <- _.
  - destruct Ef as [Ef|Ef]; rewrite Ef in Hf; [by apply cons_neq in Hf|].
    by injection Hf as <- _.
Qed.

(** C4, as amended.  Within one call of [scrape_site], whatever the
    network answers, and at every point of the loop.  A fetch is a call of
    [scrape_page] for a URL taken from the queue that went to the network;
    [fetches] holds them, latest first, each with whether a page was
    returned.

    Once a fetch of a URL has returned a page, that URL is not fetched
    again: the URLs whose fetch returned a page, and the URLs of the
    collected pages, which are the final URLs after the redirects, are in
    [visited_urls], and a URL that is fetched is not in [visited_urls]
    before.  A fetch that returns no page adds nothing to
    [visited_urls], and its URL is not in it.  The list of collected pages
    only grows, by appending, and never holds more than [max_pages] pages,
    where [max_pages] is the argument, or the configured value when the
    argument is [None] or [0].  The requests that [scrape_page] makes for
    the target of a redirect are not fetches in this sense, and the
    statement does not cover them. *)
Theorem scrape_site_fetches_and_pages {W : Type} (env : Env W) (self : t)
    (w : W) (base_url : str) (depth_arg pages_arg : option Z) (job : Job)
    (c0 : Crawl) :
  scrape_site_start self w base_url depth_arg pages_arg = Some (job, c0) →
  ∀ n,
    let c := run env job n c0 in
    let c' := run env job (S n) c0 in
    no_refetch (fetches c) ∧
    (∀ u, (u, true) ∈ fetches c → u ∈ visited_urls (scraper c)) ∧
    (∀ page, page ∈ scraped_pages (scraper c) →
             page_url page ∈ visited_urls (scraper c)) ∧
    (∀ u b, fetches c' = (u, b) :: fetches c →
            u ∉ visited_urls (scraper c)) ∧
    (∀ u, fetches c' = (u, false) :: fetches c →
          visited_urls (scraper c') = visited_urls (scraper c) ∧
          (u ∉ visited_urls (scraper c'))) ∧
    scraped_pages (scraper c) `prefix_of` scraped_pages (scraper c') ∧
    Z.of_nat (length (scraped_pages (scraper c))) ≤
      Z.max 0 (or_default pages_arg (cfg_max_pages_per_site (config self))).
Proof.
  intros Hstart n. cbn zeta.
  pose proof (crawl_inv_start self w base_url _ _ job c0 Hstart) as Hinv.
  pose proof (crawl_inv_run env _ job c0 n Hinv)
    as (_ & Hvis & Hlog & Hpages & _ & Hbound & _).
  split; [exact Hlog|]. split; [exact Hvis|]. split; [exact Hpages|].
  split; [|split; [|split]].
  - intros u b Hf. rewrite run_S in Hf.
    destruct (loop_step env job (run env job n c0)) as [c'|] eqn:E.
    + by eapply loop_step_fetch_new.
    + by apply cons_neq in Hf.
  - intros u Hf. rewrite run_S in Hf |- *.
    destruct (loop_step env job (run env job n c0)) as [c'|] eqn:E.
    + by eapply loop_step_failed_visited.
    + by apply cons_neq in Hf.
  - eapply run_pages_prefix; [exact Hinv|lia].
  - apply scrape_site_start_inv in Hstart as (_ & _ & _ & <- & _). done.
Qed.

(** On the small site, after the fetch of [/b] that failed. *)
Lemma scrape_site_fetches_and_pages_witness :
  no_refetch (fetches (run example_env example_job 2 example_start)) ∧
  (url_b ∉ visited_urls
             (scraper (run example_env example_job 3 example_start))) ∧
  scraped_pages (scraper (run example_env example_job 2 example_start))
    `prefix_of`
    scraped_pages (scraper (run example_env example_job 3 example_start)).
Proof.
  destruct (scrape_site_fetches_and_pages example_env example_scraper tt
              url_home None None example_job example_start) with (n := 2%nat)
    as (Hlog & _ & _ & _ & Hfail & Hprefix & _).
  { vm_compute. reflexivity. }
  split; [exact Hlog|]. split; [|exact Hprefix].
  apply (Hfail url_b). vm_compute. reflexivity.
Defined.

(** C4 as stated fails: on the small site, the URL [/b], linked from two
    pages, is requested twice in one call of [scrape_site]; its first
    request failed. *)
Lemma scrape_site_requests_url_twice :
  ∃ pages c,
    scrape_site (recording example_env) 10 example_scraper (tt, []) url_home
      None None = Some (pages, c) ∧
    (world c).2 = [url_b; url_b; url_c; url_home] ∧
    fetches c =
      [(url_b, false); (url_b, false); (url_c, true); (url_home, true)] ∧
    ¬ NoDup (world c).2.
Proof.
  eexists _, _. split; [vm_compute; reflexivity|].
  split; [reflexivity|]. split; [reflexivity|].
  intros H. apply NoDup_cons in H as [H _]. apply H, list_elem_of_here.
Qed.

(** The delay stays within its bounds. *)
Lemma on_success_bounds self :
  (0 <= min_delay self)%Q →
  (min_delay self <= current_delay self <= max_delay self)%Q →
  (min_delay self <= current_delay (on_success self) <= max_delay self)%Q.
Proof.
  intros H0 [Hmin Hmax]. unfold on_success, on_success_with.
  destruct (_ && _); cbn; [|done]. split.
  - apply Q.le_max_l.
  - apply Q.max_lub; lra.
Qed.

Lemma on_failure_bounds self :
  (0 <= min_delay self)%Q →
  (min_delay self <= current_delay self <= max_delay self)%Q →
  (min_delay self <= current_delay (on_failure self) <= max_delay self)%Q.
Proof.
  intros H0 [Hmin Hmax]. unfold on_failure, on_failure_with.
  destruct (_ <? _)%nat; cbn; [|done]. split.
  - apply Q.min_glb; lra.
  - apply Q.le_min_l.
Qed.

Lemma loop_step_delay_bounds {W : Type} (env : Env W) job (c c' : Crawl)
    (lo hi : Q) :
  loop_step env job c = Some c' →
  (0 <= lo)%Q →
  min_delay (scraper c) = lo ∧ max_delay (scraper c) = hi ∧
  (lo <= current_delay (scraper c) <= hi)%Q ∧
  Forall (λ s, (0 < s)%Q ∧ (lo <= s <= hi)%Q) (sleeps c) →
  min_delay (scraper c') = lo ∧ max_delay (scraper c') = hi ∧
  (lo <= current_delay (scraper c') <= hi)%Q ∧
  Forall (λ s, (0 < s)%Q ∧ (lo <= s <= hi)%Q) (sleeps c').
Proof.
  intros Hstep H0 (Emin & Emax & Hcur & Hsleeps).
  destruct (loop_step_cases env job c c' Hstep)
    as (current_url & depth & queue & _ & _ & Hcases).
  destruct Hcases as [(Es & _ & Esl & _)
                     |[(page & _ & _ & Es & Esl & _)
                      |(_ & Es & _ & Esl & _)]]; cbn zeta in *.
  - by rewrite Es, Esl.
  - set (self1 := record_page _ _ _ _) in *.
    destruct (on_success_frame self1) as (_ & _ & _ & Emin' & Emax').
    assert (Hb : (lo <= current_delay (on_success self1) <= hi)%Q).
    { rewrite <- Emin, <- Emax. apply (on_success_bounds self1); cbn.
      - by rewrite Emin.
      - by rewrite Emin, Emax. }
    rewrite Es, Esl. split; [by rewrite Emin'|]. split; [by rewrite Emax'|].
    split; [done|]. unfold sleep_after.
    destruct (Qgtb _ 0) eqn:E; [|done].
    apply Forall_cons. split; [|done]. split; [by apply Qgtb_true|done].
  - destruct (on_failure_frame (scraper c)) as (_ & _ & _ & Emin' & Emax').
    rewrite Es, Esl. split; [by rewrite Emin'|]. split; [by rewrite Emax'|].
    split; [|done]. rewrite <- Emin, <- Emax.
    apply on_failure_bounds; [by rewrite Emin|by rewrite Emin, Emax].
Qed.

(** If the scraper starts a crawl with [0 <= min_delay <= current_delay <=
    max_delay], the delay stays between [min_delay] and [max_delay] during
    the whole crawl, and every pause of the loop is positive and between
    these bounds. *)
Theorem scrape_site_delay_bounds {W : Type} (env : Env W) (self : t) (w : W)
    (base_url : str) (depth_arg pages_arg : option Z) (job : Job)
    (c0 : Crawl) :
  scrape_site_start self w base_url depth_arg pages_arg = Some (job, c0) →
  (0 <= min_delay self)%Q →
  (min_delay self <= current_delay self)%Q →
  (current_delay self <= max_delay self)%Q →
  ∀ n,
    let c := run env job n c0 in
    (min_delay self <= current_delay (scraper c) <= max_delay self)%Q ∧
    Forall (λ s, (0 < s)%Q ∧ (min_delay self <= s <= max_delay self)%Q)
           (sleeps c).
Proof.
  intros Hstart H0 Hmin Hmax n. cbn zeta.
  apply scrape_site_start_inv in Hstart as (_ & _ & _ & _ & ->).
  set (c0 := {| scraper := _ |}).
  assert (H : min_delay (scraper (run env job n c0)) = min_delay self ∧
              max_delay (scraper (run env job n c0)) = max_delay self ∧
              (min_delay self <= current_delay (scraper (run env job n c0))
               <= max_delay self)%Q ∧
              Forall (λ s, (0 < s)%Q ∧
                           (min_delay self <= s <= max_delay self)%Q)
                     (sleeps (run env job n c0))).
  { induction n as [|n IH]; [cbn; by repeat split|].
    rewrite run_S.
    destruct (loop_step env job (run env job n c0)) as [c'|] eqn:E; [|done].
    by eapply loop_step_delay_bounds. }
  by destruct H as (_ & _ & H1 & H2).
Qed.

Lemma scrape_site_delay_bounds_witness :
  let c := run chain_env chain_job 8 chain_start in
  (min_delay chain_scraper <= current_delay (scraper c)
   <= max_delay chain_scraper)%Q ∧
  Forall (λ s, (0 < s)%Q ∧
               (min_delay chain_scraper <= s <= max_delay chain_scraper)%Q)
         (sleeps c).
Proof.
  apply (scrape_site_delay_bounds chain_env chain_scraper tt url_home
           (Some 10) None chain_job chain_start).
  - vm_compute. reflexivity.
  - vm_compute. discriminate.
  - vm_compute. discriminate.
  - vm_compute. discriminate.
Defined.

(** ** More on [URLCache] *)

Lemma set_cache_insert c now url pages sid :
  ∃ e,
    URLCache._cache (URLCache.set c now url pages sid) =
      <[URLCache.normalize_key c url := e]> (URLCache._cache c) ∧
    URLCache.pages e = default pages (URLCache.get c url) ∧
    URLCache.schools e =
      schools_with sid (URLCache.get_schools_for_url c url).
Proof.
  unfold URLCache.get, URLCache.get_schools_for_url.
  destruct (URLCache._cache c !! URLCache.normalize_key c url) as [e|] eqn:He.
  - eexists. split; [by apply set_existing|]. done.
  - eexists. split; [by apply set_fresh|]. done.
Qed.

(** [set] on any cache, then [get] and [get_schools_for_url]: a URL with
    the key of the URL that was set finds the pages that were stored first
    under this key, the given ones if there were none, and the schools
    recorded so far with the given school added when it is a non-empty
    string; a URL with another key finds what it found before.  A URL
    whose key is not in the cache has no pages and no schools. *)
Theorem set_then_get (c : URLCache.t) (now url : str) (pages : list Page)
    (sid : option str) (url2 : str) :
  let c' := URLCache.set c now url pages sid in
  (URLCache.get c' url2 =
     if decide (URLCache.normalize_key c url2 = URLCache.normalize_key c url)
     then Some (default pages (URLCache.get c url))
     else URLCache.get c url2) ∧
  (URLCache.get_schools_for_url c' url2 =
     if decide (URLCache.normalize_key c url2 = URLCache.normalize_key c url)
     then schools_with sid (URLCache.get_schools_for_url c url)
     else URLCache.get_schools_for_url c url2) ∧
  (URLCache._cache c !! URLCache.normalize_key c url2 = None →
   URLCache.get c url2 = None ∧ URLCache.get_schools_for_url c url2 = ∅).
Proof.
  intros c'. subst c'.
  destruct (set_cache_insert c now url pages sid) as (e & Hc & Hp & Hs).
  split; [|split].
  - unfold URLCache.get at 1. rewrite normalize_key_set, Hc.
    case_decide as Heq.
    + rewrite Heq, lookup_insert_eq. by rewrite Hp.
    + rewrite lookup_insert_ne by done. done.
  - unfold URLCache.get_schools_for_url at 1. rewrite normalize_key_set, Hc.
    case_decide as Heq.
    + rewrite Heq, lookup_insert_eq. by rewrite Hs.
    + rewrite lookup_insert_ne by done. done.
  - intros H. unfold URLCache.get, URLCache.get_schools_for_url.
    by rewrite H.
Qed.

Lemma normalize_key_apply_sets c calls url :
  URLCache.normalize_key (apply_sets c calls) url = URLCache.normalize_key c url.
Proof.
  revert c. induction calls as [|k calls IH]; intros c; [done|].
  cbn. unfold apply_sets in IH. rewrite IH. apply normalize_key_set.
Qed.

(** The keys of the cache: after a sequence of calls of [set] they are the
    keys there were, and the keys of the URLs that were set; so [size]
    counts the distinct keys.  One call of [set] adds one to [size] when
    [get] did not find the URL, and leaves it otherwise.  After [clear] the
    cache is empty. *)
Theorem cache_keys (c : URLCache.t) :
  (∀ calls,
     dom (URLCache._cache (apply_sets c calls)) =
     dom (URLCache._cache c) ∪
     list_to_set (map (λ k, URLCache.normalize_key c (call_url k)) calls)) ∧
  (∀ now url pages sid,
     URLCache.size (URLCache.set c now url pages sid) =
     match URLCache.get c url with
     | Some _ => URLCache.size c
     | None => S (URLCache.size c)
     end) ∧
  URLCache.size (URLCache.clear c) = 0%nat ∧
  (∀ url, URLCache.get (URLCache.clear c) url = None).
Proof.
  split; [|split; [|split]].
  - intros calls. revert c.
    induction calls as [|k calls IH]; intros c.
    { cbn. by rewrite union_empty_r_L. }
    change (apply_sets c (k :: calls))
      with (apply_sets (URLCache.set c (call_now k) (call_url k)
                          (call_pages k) (call_school_id k)) calls).
    rewrite IH.
    destruct (set_cache_insert c (call_now k) (call_url k) (call_pages k)
                (call_school_id k)) as (e & -> & _).
    rewrite dom_insert_L. cbn [map list_to_set].
    erewrite map_ext; [|intros a; apply normalize_key_set].
    rewrite (comm_L (∪) {[_]} (dom _)). by rewrite <- (assoc_L (∪)).
  - intros now url pages sid. unfold URLCache.size.
    destruct (set_cache_insert c now url pages sid) as (e & -> & _).
    rewrite map_size_insert. unfold URLCache.get.
    by destruct (URLCache._cache c !! URLCache.normalize_key c url).
  - unfold URLCache.size. cbn. apply map_size_empty.
  - intros url. unfold URLCache.get. cbn. by rewrite lookup_empty.
Qed.

Import TermSearcher.

(** ** More on [TermSearcher] *)

Lemma fold_search_step_occurrences self text l acc :
  let r := fold_left (search_step self text) l acc in
  r.1.2 = acc.1.2 ++ flat_map (find_term_occurrences self text) l ∧
  r.2 = acc.2 +
        Z.of_nat (length (flat_map (find_term_occurrences self text) l)).
Proof.
  revert acc. induction l as [|t l IH]; intros [[f o] n]; cbn zeta.
  { cbn. rewrite app_nil_r. split; [done|lia]. }
  cbn [fold_left flat_map]. destruct (IH (search_step self text (f, o, n) t))
    as [IH1 IH2].
  rewrite IH1, IH2. unfold search_step.
  destruct (find_term_occurrences self text t) as [|m ms]; cbn [fst snd].
  - split; [done|]. cbn [app]. done.
  - rewrite <- app_assoc. split; [done|].
    rewrite (length_app (m :: ms)). lia.
Qed.

Lemma search_text_total_matches self text url :
  res_total_matches (search_text self text url) =
  Z.of_nat (length (res_occurrences (search_text self text url))).
Proof.
  unfold search_text.
  pose proof (fold_search_step_occurrences self text (search_terms self)
                (∅, [], 0)) as [Ho Hn].
  destruct (fold_left (search_step self text) (search_terms self) (∅, [], 0))
    as [[found occurrences] total].
  cbn [fst snd app] in *. subst occurrences. cbn. lia.
Qed.

(** What [search_text] returns, for a searcher in any state: the
    occurrences are listed term by term, in the order of [search_terms]
    (a term that is configured twice is searched twice); [total_matches]
    is their number; [terms_found] has no duplicates and holds the
    configured terms that have an occurrence; the URL is the one given and
    no source is set. *)
Theorem search_text_result (self : TermSearcher.t) (text url : str) :
  let result := search_text self text url in
  res_occurrences result =
    flat_map (find_term_occurrences self text) (search_terms self) ∧
  res_total_matches result = Z.of_nat (length (res_occurrences result)) ∧
  NoDup (res_terms_found result) ∧
  (∀ t, t ∈ res_terms_found result ↔
        t ∈ search_terms self ∧ find_term_occurrences self text t ≠ []) ∧
  (∀ o, o ∈ res_occurrences result → occ_term o ∈ res_terms_found result) ∧
  res_url result = url ∧ res_source result = None.
Proof.
  cbn zeta. unfold search_text.
  pose proof (fold_search_step_occurrences self text (search_terms self)
                (∅, [], 0)) as [Ho Hn].
  pose proof (fold_search_step_found self text (search_terms self)
                (∅, [], 0)) as Hf.
  destruct (fold_left (search_step self text) (search_terms self) (∅, [], 0))
    as [[found occurrences] total].
  cbn [fst snd app] in *. subst occurrences.
  cbn [res_occurrences res_total_matches res_terms_found res_url res_source].
  assert (Hfound : ∀ t, t ∈ elements found ↔
            t ∈ search_terms self ∧ find_term_occurrences self text t ≠ []).
  { intros t. rewrite elem_of_elements, Hf. split; [|by right].
    intros [H|H]; [by apply not_elem_of_empty in H|done]. }
  split; [done|]. split; [lia|]. split; [apply NoDup_elements|].
  split; [exact Hfound|]. split; [|done].
  intros o Ho. apply list_elem_of_In, in_flat_map in Ho as (t & Ht & Ho).
  apply list_elem_of_In in Ht.
  assert (occ_term o = t) as ->.
  { unfold find_term_occurrences in Ho.
    destruct (patterns self !! t); [|done].
    apply in_map_iff in Ho as (m & <- & _). done. }
  apply Hfound. split; [done|]. intros E. rewrite E in Ho. done.
Qed.

(** *** The matches of one term *)

Lemma match_here_nil pat : pat ≠ [] → match_here pat [] = false.
Proof. by destruct pat. Qed.

(** The matches are reported from left to right and do not overlap. *)
Lemma scan_sorted pat text pos skip :
  pat ≠ [] →
  Forall (λ m, (pos + skip ≤ fst m)%nat) (scan pat text pos skip) ∧
  spaced (length pat) (map fst (scan pat text pos skip)).
Proof.
  intros Hpat. assert (Hlen : (1 ≤ length pat)%nat).
  { destruct pat; [done|simpl; lia]. }
  revert pos skip. induction text as [|c text IH]; intros pos skip.
  - destruct skip; cbn; [|done]. by rewrite (match_here_nil pat Hpat).
  - destruct skip as [|k]; cbn [scan].
    + destruct (match_here pat (c :: text)).
      * destruct (IH (S pos) (length pat - 1)%nat) as [IH1 IH2].
        cbn [map fst spaced]. split.
        { apply Forall_cons. split; [simpl; lia|].
          eapply Forall_impl; [exact IH1|]. intros m Hm. simpl in *. lia. }
        split; [|done]. apply Forall_fmap.
        eapply Forall_impl; [exact IH1|]. intros m Hm. simpl in *. lia.
      * destruct (IH (S pos) O) as [IH1 IH2]. split; [|done].
        eapply Forall_impl; [exact IH1|]. intros m Hm. simpl in *. lia.
    + destruct (IH (S pos) k) as [IH1 IH2]. split; [|done].
      eapply Forall_impl; [exact IH1|]. intros m Hm. simpl in *. lia.
Qed.

(** Every position where the pattern matches is inside a reported match,
    unless it is still covered by the match before. *)
Lemma scan_covers pat text pos skip i :
  pat ≠ [] → (skip ≤ i)%nat →
  match_here pat (drop i text) = true →
  ∃ m, m ∈ scan pat text pos skip ∧ (fst m ≤ pos + i < snd m)%nat.
Proof.
  intros Hpat. assert (Hlen : (1 ≤ length pat)%nat).
  { destruct pat; [done|simpl; lia]. }
  revert pos skip i. induction text as [|c text IH]; intros pos skip i Hi Hm.
  { rewrite drop_nil in Hm. by rewrite (match_here_nil pat Hpat) in Hm. }
  destruct skip as [|k]; cbn [scan].
  - destruct (match_here pat (c :: text)) eqn:E.
    + destruct (decide (i < length pat)%nat) as [Hlt|Hge].
      * exists (pos, (pos + length pat)%nat).
        split; [apply list_elem_of_here|]. simpl. lia.
      * destruct i as [|i]; [lia|]. cbn [drop] in Hm.
        destruct (IH (S pos) (length pat - 1)%nat i) as (m & Hin & Hb);
          [lia|done|].
        exists m. split; [by apply list_elem_of_further|]. lia.
    + destruct i as [|i]; [cbn [drop] in Hm; congruence|]. cbn [drop] in Hm.
      destruct (IH (S pos) O i) as (m & Hin & Hb); [lia|done|].
      exists m. split; [done|]. lia.
  - destruct i as [|i]; [lia|]. cbn [drop] in Hm.
    destruct (IH (S pos) k i) as (m & Hin & Hb); [lia|done|].
    exists m. split; [done|]. lia.
Qed.

Lemma match_here_lower pat text :
  match_here pat text = true → lower (take (length pat) text) = lower pat.
Proof.
  unfold lower. revert text. induction pat as [|p pat IH]; intros text H; [done|].
  destruct text as [|c text]; [done|]. cbn in H.
  apply andb_true_iff in H as [Hc H]. apply Ascii.eqb_eq in Hc.
  cbn. rewrite (IH text H). by rewrite Hc.
Qed.

(** The occurrences that [find_term_occurrences] reports for one term.  A
    term that was not configured has none.  For a configured, non-empty
    term: each occurrence spans [len(term)] characters inside the text,
    which are the term up to the case of the letters; the occurrences come
    from left to right and do not overlap; every position at which the
    term matches lies inside one of them. *)
Theorem find_term_occurrences_spans (terms : option (list str))
    (ctx : option Z) (text term : str) :
  let self := init terms ctx in
  let os := find_term_occurrences self text term in
  (term ∉ search_terms self → os = []) ∧
  (term ∈ search_terms self → term ≠ [] →
   Forall (λ o, occ_term o = term ∧
                occ_end o = (occ_start o + length term)%nat ∧
                (occ_end o ≤ length text)%nat ∧
                occ_matched_text o =
                  take (length term) (drop (occ_start o) text) ∧
                lower (occ_matched_text o) = lower term) os ∧
   spaced (length term) (map occ_start os) ∧
   (∀ i, match_at term text i = true →
         ∃ o, o ∈ os ∧ (occ_start o ≤ i < occ_end o)%nat)).
Proof.
  cbn zeta. split.
  - intros Hnot. unfold find_term_occurrences, init. cbn [patterns].
    rewrite fold_patterns_lookup. unfold init in Hnot. cbn in Hnot.
    by rewrite decide_False, lookup_empty.
  - intros Hin Hne. rewrite (find_term_occurrences_init terms ctx text term Hin).
    split; [|split].
    + apply Forall_fmap, Forall_forall. intros m Hm. cbn.
      apply scan_sound in Hm as (i & [_ Hi] & Hmatch & ->). cbn.
      pose proof (match_here_length _ _ Hmatch) as Hlen.
      rewrite length_drop in Hlen.
      split; [done|]. split; [done|]. split; [lia|].
      rewrite slice_exact by lia. split; [done|].
      by apply match_here_lower.
    + rewrite map_map. cbn [occ_start].
      apply (proj2 (scan_sorted term text O O Hne)).
    + intros i Hi. unfold match_at in Hi.
      apply andb_true_iff in Hi as [_ Hi].
      destruct (scan_covers term text O O i Hne) as (m & Hm & Hb);
        [lia|done|].
      eexists. split; [apply list_elem_of_fmap_2, Hm|]. cbn.
      apply scan_sound in Hm as (j & _ & _ & ->). cbn in *. lia.
Qed.

Lemma find_term_occurrences_spans_witness :
  let os := find_term_occurrences (init (Some [L "race equity"]) None)
              (L "Race Equity,  RACE EQUITY;  race equity!")
              (L "race equity") in
  map occ_start os = [0; 14; 28]%nat ∧
  spaced 11 (map occ_start os) ∧
  ∃ o, o ∈ os ∧ (occ_start o ≤ 14 < occ_end o)%nat.
Proof.
  intros os. split; [vm_compute; reflexivity|].
  destruct (find_term_occurrences_spans (Some [L "race equity"]) None
              (L "Race Equity,  RACE EQUITY;  race equity!")
              (L "race equity")) as [_ H].
  destruct H as (_ & Hspaced & Hcover).
  - apply list_elem_of_here.
  - discriminate.
  - split; [exact Hspaced|]. apply (Hcover 14%nat). vm_compute. reflexivity.
Defined.

(** *** The context of an occurrence *)

Lemma lstrip_ws_length s : (length (lstrip_ws s) ≤ length s)%nat.
Proof.
  induction s as [|c s IH]; [done|]. cbn. destruct (is_space c); simpl; lia.
Qed.

Lemma strip_length s : (length (strip s) ≤ length s)%nat.
Proof.
  unfold strip, rstrip_ws. rewrite length_rev.
  etrans; [apply lstrip_ws_length|]. rewrite length_rev.
  apply lstrip_ws_length.
Qed.

Lemma split_ws_aux_length s cur :
  (length (join (L " ") (split_ws_aux s cur)) ≤ length s + length cur)%nat.
Proof.
  revert cur. induction s as [|c s IH]; intros cur.
  - destruct cur; cbn; [lia|]. rewrite length_app, length_rev. simpl. lia.
  - cbn [split_ws_aux]. destruct (is_space c).
    + destruct cur as [|x cur].
      * specialize (IH []). simpl in *. lia.
      * specialize (IH []). cbn [join].
        destruct (split_ws_aux s []) as [|w ws] eqn:E.
        { rewrite length_rev. simpl. lia. }
        rewrite !length_app, length_rev. simpl in *. lia.
    + specialize (IH (c :: cur)). simpl in *. lia.
Qed.

Lemma slice_length_le (text : str) (i j : Z) :
  0 ≤ i → 0 ≤ j → (length (slice text i j) ≤ Z.to_nat (j - i))%nat.
Proof.
  intros Hi Hj. unfold slice, slice_bound. rewrite length_take.
  destruct (i <? 0) eqn:Ei; [apply Z.ltb_lt in Ei; lia|].
  destruct (j <? 0) eqn:Ej; [apply Z.ltb_lt in Ej; lia|]. lia.
Qed.

Lemma context_of_bounded self text (p n : nat) :
  0 ≤ context_length self →
  collapsed (context_of self text p (p + n)) = true ∧
  (length (context_of self text p (p + n)) ≤
   n + Z.to_nat (context_length self))%nat.
Proof.
  intros Hctx. unfold context_of. split; [apply collapse_collapsed|].
  set (h := context_length self / 2).
  assert (0 ≤ h ∧ 2 * h ≤ context_length self) as [Hh0 Hh2].
  { split; [by apply Z.div_pos | apply Z.mul_div_le; lia]. }
  clearbody h.
  assert (H3 : (length (slice text (Z.max 0 (Z.of_nat p - h))
                          (Z.min (Z.of_nat (length text))
                                 (Z.of_nat (p + n) + h))) ≤
                Z.to_nat
                  (Z.min (Z.of_nat (length text)) (Z.of_nat (p + n) + h) -
                   Z.max 0 (Z.of_nat p - h)))%nat).
  { apply slice_length_le; lia. }
  set (w := slice text _ _) in *.
  pose proof (split_ws_aux_length (strip w) []) as H1.
  pose proof (strip_length w) as H2.
  unfold split_ws. cbn [length] in H1. lia.
Qed.

(** The context stored with an occurrence: its whitespace is collapsed, it
    neither starts nor ends with whitespace, and, for a context length that
    is not negative, it is at most [context_length] characters longer than
    the term. *)
Theorem occurrence_context_bounded (terms : option (list str))
    (ctx : option Z) (text term : str) :
  let self := init terms ctx in
  0 ≤ context_length self →
  Forall (λ o, collapsed (occ_context o) = true ∧
               (length (occ_context o) ≤
                length term + Z.to_nat (context_length self))%nat)
         (find_term_occurrences self text term).
Proof.
  cbn zeta. intros Hctx. unfold find_term_occurrences.
  destruct (patterns (init terms ctx) !! term) as [pattern|] eqn:Hp; [|done].
  assert (pattern = term) as ->.
  { unfold init in Hp. cbn [patterns] in Hp.
    rewrite fold_patterns_lookup in Hp. case_decide; [congruence|].
    by rewrite lookup_empty in Hp. }
  apply Forall_fmap, Forall_forall. intros m Hm.
  apply scan_sound in Hm as (i & _ & _ & ->).
  cbn [occ_context fst snd compose]. rewrite Nat.add_0_l.
  by apply context_of_bounded.
Qed.

Lemma occurrence_context_bounded_witness :
  Forall (λ o, collapsed (occ_context o) = true ∧
               (length (occ_context o) ≤ 11 + 200)%nat)
         (find_term_occurrences (init (Some [L "race equity"]) None)
            (L "Race Equity,  RACE EQUITY;  race equity!")
            (L "race equity")).
Proof.
  apply (occurrence_context_bounded (Some [L "race equity"]) None
           (L "Race Equity,  RACE EQUITY;  race equity!") (L "race equity")).
  vm_compute. discriminate.
Defined.

(** *** The totals of [search_school_content] *)

(** The results that [search_pages] keeps are results of [search_text],
    tagged with the source of their page. *)
Lemma search_pages_results self pages r :
  r ∈ search_pages self pages →
  ∃ page, page ∈ pages ∧
    res_occurrences r =
      res_occurrences (search_text self (page_text page) (page_url page)) ∧
    res_total_matches r =
      res_total_matches (search_text self (page_text page) (page_url page)) ∧
    res_source r = Some (source_or_unknown (page_source page)).
Proof.
  unfold search_pages. intros H.
  apply list_elem_of_In, in_flat_map in H as (page & Hpage & H).
  exists page. split; [by apply list_elem_of_In|].
  destruct (page_text page); [done|].
  destruct (res_terms_found _); [done|].
  destruct H as [<-|[]]. done.
Qed.

Lemma matches_of_snippets rs :
  Forall (λ r, res_total_matches r = Z.of_nat (length (res_occurrences r))) rs →
  matches_of rs = Z.of_nat (length (snippets_of rs)).
Proof.
  induction 1 as [|r rs Hr _ IH]; [done|].
  unfold matches_of, snippets_of in *. cbn [foldr flat_map].
  rewrite length_app, length_map, IH, Hr. lia.
Qed.

Lemma matches_of_nonneg rs :
  Forall (λ r, 0 ≤ res_total_matches r) rs → 0 ≤ matches_of rs.
Proof. induction 1; unfold matches_of in *; cbn [foldr]; lia. Qed.

Lemma matches_of_sources rs :
  Forall (λ r, 0 ≤ res_total_matches r) rs →
  matches_of (results_from (L "school") rs) +
  matches_of (results_from (L "district") rs) ≤ matches_of rs ∧
  (Forall (λ r, res_source r = Some (L "school") ∨
                res_source r = Some (L "district")) rs →
   matches_of (results_from (L "school") rs) +
   matches_of (results_from (L "district") rs) = matches_of rs).
Proof.
  induction 1 as [|r rs Hr _ [IH1 IH2]]; [done|].
  unfold results_from in *. cbn [List.filter].
  destruct (str_eqb (source_or_unknown (res_source r)) (L "school")) eqn:Es.
  - apply str_eqb_eq in Es.
    assert (str_eqb (source_or_unknown (res_source r)) (L "district") = false)
      as -> by (rewrite Es; reflexivity).
    unfold matches_of in *; cbn [foldr] in *. split; [lia|].
    intros Hall. apply Forall_cons in Hall as [_ Hall].
    specialize (IH2 Hall). lia.
  - destruct (str_eqb (source_or_unknown (res_source r)) (L "district"))
      eqn:Ed; unfold matches_of in *; cbn [foldr] in *.
    + split; [lia|]. intros Hall. apply Forall_cons in Hall as [_ Hall].
      specialize (IH2 Hall). lia.
    + split; [lia|]. intros Hall. apply Forall_cons in Hall as [Hsrc _].
      destruct Hsrc as [E|E]; rewrite E in *; cbn in *; congruence.
Qed.

(** A result with a term found has an occurrence. *)
Lemma search_text_found_positive self text url :
  res_terms_found (search_text self text url) ≠ [] →
  0 < res_total_matches (search_text self text url).
Proof.
  rewrite search_text_total_matches. unfold search_text.
  pose proof (fold_search_step_occurrences self text (search_terms self)
                (∅, [], 0)) as [Ho _].
  pose proof (fold_search_step_found self text (search_terms self)
                (∅, [], 0)) as Hf.
  destruct (fold_left (search_step self text) (search_terms self) (∅, [], 0))
    as [[found occurrences] total].
  cbn [fst snd app res_terms_found res_occurrences] in *. subst occurrences.
  intros Hne. destruct (elements found) as [|t ts] eqn:El; [done|].
  assert (Ht : t ∈ found).
  { apply elem_of_elements. rewrite El. apply list_elem_of_here. }
  apply Hf in Ht as [Ht|[Hin Hocc]]; [by apply not_elem_of_empty in Ht|].
  destruct (find_term_occurrences self text t) as [|o os] eqn:Eo; [done|].
  assert (Ho : o ∈ flat_map (find_term_occurrences self text)
                     (search_terms self)).
  { apply list_elem_of_In, in_flat_map. exists t.
    split; [by apply list_elem_of_In|]. rewrite Eo. by left. }
  destruct (flat_map _ _); [by apply elem_of_nil in Ho|]. cbn [length]. lia.
Qed.

Lemma search_pages_results_found self pages r :
  r ∈ search_pages self pages → 0 < res_total_matches r.
Proof.
  unfold search_pages. intros H.
  apply list_elem_of_In, in_flat_map in H as (page & _ & H).
  destruct (page_text page) as [|c text]; [done|].
  cbn [res_terms_found] in H.
  destruct (res_terms_found (search_text self (c :: text) (page_url page)))
    eqn:Ef; [done|].
  destruct H as [<-|[]]. cbn [res_total_matches].
  apply search_text_found_positive. by rewrite Ef.
Qed.

(** When every result counts a match, the school and district totals add
    up to the combined total only if every result is tagged. *)
Lemma matches_of_sources_tagged rs :
  Forall (λ r, 0 < res_total_matches r) rs →
  matches_of (results_from (L "school") rs) +
  matches_of (results_from (L "district") rs) = matches_of rs →
  Forall (λ r, res_source r = Some (L "school") ∨
               res_source r = Some (L "district")) rs.
Proof.
  induction 1 as [|r rs Hr Hrs IH]; [constructor|].
  assert (Hpos : Forall (λ r, 0 ≤ res_total_matches r) rs).
  { eapply Forall_impl; [exact Hrs|]. cbn. intros; lia. }
  destruct (matches_of_sources rs Hpos) as [Hle _].
  unfold results_from in *. cbn [List.filter].
  destruct (str_eqb (source_or_unknown (res_source r)) (L "school")) eqn:Es.
  - apply str_eqb_eq in Es.
    assert (str_eqb (source_or_unknown (res_source r)) (L "district") = false)
      as -> by (rewrite Es; reflexivity).
    unfold matches_of in *; cbn [foldr] in *. intros Hsum.
    constructor; [|apply IH; lia].
    left. destruct (res_source r) as [s|]; cbn in Es; [by subst|discriminate].
  - destruct (str_eqb (source_or_unknown (res_source r)) (L "district"))
      eqn:Ed; unfold matches_of in *; cbn [foldr] in *; intros Hsum.
    + apply str_eqb_eq in Ed. constructor; [|apply IH; lia].
      right. destruct (res_source r) as [s|]; cbn in Ed; [by subst|discriminate].
    + lia.
Qed.

(** The totals of the dictionary that [search_school_content] returns:
    ['total_occurrences'] is the number of entries of
    ['context_snippets']; the school and district totals are not negative
    and together at most the combined total; they add up to it exactly
    when every result, that is every page in which a term was found, is
    tagged ['school'] or ['district'], which is the case when every page
    is. *)
Theorem search_school_content_totals (pages : list Page)
    (terms : option (list str)) :
  let d := search_school_content pages terms in
  let results := search_pages (init terms None) pages in
  ∃ snippets total school district,
    d !! L "context_snippets" = Some (VSnippets snippets) ∧
    d !! L "total_occurrences" = Some (VInt total) ∧
    d !! L "school_total_occurrences" = Some (VInt school) ∧
    d !! L "district_total_occurrences" = Some (VInt district) ∧
    total = Z.of_nat (length snippets) ∧
    0 ≤ school ∧ 0 ≤ district ∧ school + district ≤ total ∧
    (school + district = total ↔
     Forall (λ r, res_source r = Some (L "school") ∨
                  res_source r = Some (L "district")) results) ∧
    (Forall (λ p, page_source p = Some (L "school") ∨
                  page_source p = Some (L "district")) pages →
     school + district = total).
Proof.
  cbn zeta. rewrite search_school_content_aggregate.
  set (self := init terms None). set (rs := search_pages self pages).
  assert (Hlen : Forall (λ r, res_total_matches r =
                              Z.of_nat (length (res_occurrences r))) rs).
  { apply Forall_forall. intros r Hr.
    apply search_pages_results in Hr as (page & _ & -> & -> & _).
    apply search_text_total_matches. }
  assert (Hpos : Forall (λ r, 0 ≤ res_total_matches r) rs).
  { eapply Forall_impl; [exact Hlen|]. intros r ->. lia. }
  assert (Hone : Forall (λ r, 0 < res_total_matches r) rs).
  { apply Forall_forall. intros r Hr. by eapply search_pages_results_found. }
  destruct (matches_of_sources rs Hpos) as [Hle Heq].
  exists (snippets_of rs), (matches_of rs),
    (matches_of (results_from (L "school") rs)),
    (matches_of (results_from (L "district") rs)).
  rewrite aggregate_results_entries, !lookup_list_to_map.
  split; [reflexivity|]. split; [reflexivity|]. split; [reflexivity|].
  split; [reflexivity|]. split; [by apply matches_of_snippets|].
  split; [apply matches_of_nonneg|].
  { apply Forall_forall. intros r Hr.
    apply list_elem_of_In, filter_In in Hr as [Hr _].
    apply list_elem_of_In in Hr. by apply (proj1 (Forall_forall _ _) Hpos). }
  split; [apply matches_of_nonneg|].
  { apply Forall_forall. intros r Hr.
    apply list_elem_of_In, filter_In in Hr as [Hr _].
    apply list_elem_of_In in Hr. by apply (proj1 (Forall_forall _ _) Hpos). }
  split; [done|]. split.
  - split; [by apply matches_of_sources_tagged | exact Heq].
  - intros Hpages. apply Heq.
    apply Forall_forall. intros r Hr.
    apply search_pages_results in Hr as (page & Hpage & _ & _ & ->).
    destruct (proj1 (Forall_forall _ _) Hpages page Hpage) as [-> | ->];
      [by left | by right].
Qed.

Lemma search_school_content_totals_witness :
  ∃ total school district,
    search_school_content
      [mkPage (L "https://ex.org/a") (L "About race equity") [] 200 17
         (Some (L "school"));
       mkPage (L "https://ex.org/d") (L "Race equity and race equity") []
         200 27 (Some (L "district"));
       mkPage (L "https://ex.org/m") (L "Lunch menu") [] 200 10 None] None
      !! L "total_occurrences" = Some (VInt total) ∧
    total = 3 ∧ school + district = total.
Proof.
  destruct (search_school_content_totals
              [mkPage (L "https://ex.org/a") (L "About race equity") [] 200 17
                 (Some (L "school"));
               mkPage (L "https://ex.org/d") (L "Race equity and race equity")
                 [] 200 27 (Some (L "district"));
               mkPage (L "https://ex.org/m") (L "Lunch menu") [] 200 10 None]
              None)
    as (snippets & total & school & district & _ & Ht & _ & _ & _ & _ & _ & _
        & Hiff & _).
  exists total, school, district. split; [exact Ht|]. split.
  - vm_compute in Ht. by injection Ht as <-.
  - apply Hiff. vm_compute.
    constructor; [by left|]. constructor; [by right|]. constructor.
Defined.

Import Net WebScraper.

(** ** The page helpers of [WebScraper] *)

Lemma str_eqb_refl a : str_eqb a a = true.
Proof. by apply str_eqb_eq. Qed.

(** Where a link of [extract_links] comes from. *)
Lemma extract_links_elem {W : Type} (env : Env W)
    (html_content base_url : str) (base_domain : option str) (link : str) :
  link ∈ extract_links env html_content base_url base_domain →
  is_valid_url link = true ∧
  (∃ href, href ∈ find_hrefs env html_content ∧ href ≠ [] ∧
           startswith href (L "mailto:") = false ∧
           startswith href (L "tel:") = false ∧
           link = normalize_url env href base_url) ∧
  match base_domain with
  | Some (c :: d) => netloc_of link = Some (c :: d)
  | _ => is_same_domain link base_url = true
  end.
Proof.
  unfold extract_links.
  destruct html_content as [|h html]; [intros H; by apply elem_of_nil in H|].
  intros Hin.
  apply elem_of_elements, elem_of_list_to_set, list_elem_of_In, in_flat_map
    in Hin as (href & Hhref & Hin).
  apply list_elem_of_In in Hhref.
  destruct href as [|x href]; [done|].
  destruct (startswith (x :: href) (L "mailto:")) eqn:Em; [done|].
  destruct (startswith (x :: href) (L "tel:")) eqn:Et; [done|].
  cbn [orb] in Hin.
  set (full_url := normalize_url env (x :: href) base_url) in *.
  destruct (is_valid_url full_url) eqn:Ev; [|done]. cbn [negb] in Hin.
  assert (Hsame : ∀ d, netloc_of full_url = Some d →
                       netloc_of base_url = Some d →
                       is_same_domain full_url base_url = true).
  { intros d H1 H2. unfold is_same_domain. rewrite H1, H2.
    apply str_eqb_refl. }
  assert (Hdomain : ∀ d : str,
            In link (match netloc_of full_url with
                     | Some link_domain =>
                         if str_eqb link_domain d then [full_url] else []
                     | None => []
                     end) →
            link = full_url ∧ netloc_of full_url = Some d).
  { intros d H. destruct (netloc_of full_url) as [n|]; [|done].
    destruct (str_eqb n d) eqn:E; [|done]. apply str_eqb_eq in E as ->.
    by destruct H as [<-|[]]. }
  destruct base_domain as [[|c d]|].
  - destruct (is_same_domain full_url base_url) eqn:E; [|done].
    destruct Hin as [<-|[]]. split; [done|]. split; [|done].
    by exists (x :: href).
  - apply Hdomain in Hin as [-> Hn]. split; [done|].
    split; [|done]. by exists (x :: href).
  - destruct (netloc_of base_url) as [[|c d]|] eqn:Eb.
    + destruct (is_same_domain full_url base_url) eqn:E; [|done].
      destruct Hin as [<-|[]]. split; [done|]. split; [|done].
      by exists (x :: href).
    + apply Hdomain in Hin as [-> Hn]. split; [done|].
      split; [by exists (x :: href)|]. by apply (Hsame (c :: d)).
    + destruct (is_same_domain full_url base_url) eqn:E; [|done].
      destruct Hin as [<-|[]]. split; [done|]. split; [|done].
      by exists (x :: href).
Qed.

Lemma extract_links_NoDup {W : Type} (env : Env W)
    (html_content base_url : str) (base_domain : option str) :
  NoDup (extract_links env html_content base_url base_domain).
Proof.
  unfold extract_links.
  destruct html_content; [apply NoDup_nil_2 | apply NoDup_elements].
Qed.

(** The links that [extract_links] returns: there are no duplicates; each
    is a valid URL obtained by [normalize_url] from a non-empty [href] of
    the page that is not a [mailto:] or [tel:] link; its host is the given
    base domain, or, when none or an empty one is given, the host of the
    base URL.  A page without content has no links. *)
Theorem extract_links_internal {W : Type} (env : Env W)
    (html_content base_url : str) (base_domain : option str) :
  let links := extract_links env html_content base_url base_domain in
  NoDup links ∧
  (html_content = [] → links = []) ∧
  ∀ link, link ∈ links →
    is_valid_url link = true ∧
    (∃ href, href ∈ find_hrefs env html_content ∧ href ≠ [] ∧
             startswith href (L "mailto:") = false ∧
             startswith href (L "tel:") = false ∧
             link = normalize_url env href base_url) ∧
    match base_domain with
    | Some (c :: d) => netloc_of link = Some (c :: d)
    | _ => is_same_domain link base_url = true
    end.
Proof.
  cbn zeta. split; [apply extract_links_NoDup|]. split.
  - intros ->. reflexivity.
  - intros link Hin.
    destruct (extract_links_elem env html_content base_url base_domain link
                Hin) as (Hvalid & Hhref & Hdomain).
    split; [exact Hvalid|]. split; [exact Hhref|exact Hdomain].
Qed.

Lemma existsb_take {A} (f : A → bool) n l :
  existsb f (take n l) = true → existsb f l = true.
Proof.
  intros H. rewrite <- (take_drop n l), existsb_app, H. done.
Qed.

(** [is_bot_protection_page] answers [True] for an empty page, and for a
    non-empty page exactly when its content, in lower case, contains one
    of the thirteen indicators: the test of short pages without links never
    changes the answer, which does not depend on the HTML parser. *)
Theorem is_bot_protection_page_indicators {W : Type} (env : Env W)
    (html_content : str) :
  is_bot_protection_page env html_content =
  match html_content with
  | [] => true
  | _ => existsb (contains (lower html_content)) bot_indicators
  end.
Proof.
  unfold is_bot_protection_page. destruct html_content as [|c html]; [done|].
  destruct (_ && _ && existsb _ (take 5 bot_indicators)) eqn:E; [|done].
  apply andb_true_iff in E as [_ E]. symmetry. by eapply existsb_take.
Qed.

(** ** The requests that a crawl makes *)

Section Requests.

Context {W : Type} (env : Env W) (P : W → Prop) (bd : option str).

(** A request for a URL that passes the domain check keeps [P]. *)
Hypothesis Hget :
  ∀ client url allow_redirects verify w,
    internal bd url → P w →
    P (http_get env client url allow_redirects verify w).2.

Lemma preserves_ret {A} (a : A) : preserves P (ret (W:=W) a).
Proof. by intros w. Qed.

Lemma preserves_return {A} r : preserves P (return_ (W:=W) (A:=A) r).
Proof. by intros w. Qed.

Lemma preserves_raise {A} e : preserves P (raise (W:=W) (A:=A) e).
Proof. by intros w. Qed.

Lemma preserves_bind {A B} (m : W → Ctl A * W) (k : A → W → Ctl B * W) :
  preserves P m → (∀ a, preserves P (k a)) → preserves P (bind m k).
Proof.
  intros Hm Hk w Hw. unfold bind. specialize (Hm w Hw).
  destruct (m w) as [[a|r|e] w']; simpl in *; [by apply Hk|done|done].
Qed.

Lemma preserves_catch {A} (m : W → Ctl A * W) (h : Exn → W → Ctl A * W) :
  preserves P m → (∀ e, preserves P (h e)) → preserves P (catch m h).
Proof.
  intros Hm Hh w Hw. unfold catch. specialize (Hm w Hw).
  destruct (m w) as [[a|r|e] w']; simpl in *; [done|done|by apply Hh].
Qed.

Lemma preserves_get client url allow verify :
  internal bd url → preserves P (get env client url allow verify).
Proof.
  intros Hint w Hw. unfold get.
  specialize (Hget client url allow verify w Hint Hw).
  by destruct (http_get env client url allow verify w) as [[r|e] w'].
Qed.

Lemma preserves_raise_for_status response :
  preserves P (raise_for_status (W:=W) response).
Proof.
  unfold raise_for_status.
  destruct (ok response); [apply preserves_ret | apply preserves_raise].
Qed.

Lemma preserves_fetch_checked client v1 v2 url :
  internal bd url → preserves P (fetch_checked env client v1 v2 url bd).
Proof.
  intros Hint. unfold fetch_checked.
  apply preserves_bind; [by apply preserves_get|]. intros response.
  apply preserves_bind.
  - destruct (is_redirect_status (status_code response));
      [|apply preserves_ret].
    destruct (location response) as [|c loc]; [apply preserves_ret|].
    destruct (urljoin env url (c :: loc)) as [redirect_url|];
      [|apply preserves_raise].
    destruct (is_external_redirect bd redirect_url) eqn:E;
      [apply preserves_return | by apply preserves_get].
  - intros response'.
    apply preserves_bind; [apply preserves_raise_for_status|]. intros _.
    destruct (is_external_redirect bd (Net.url response'));
      [apply preserves_return | apply preserves_ret].
Qed.

Lemma preserves_try_cloudscraper_first self url :
  internal bd url → preserves P (try_cloudscraper_first env self url bd).
Proof.
  intros Hint. unfold try_cloudscraper_first. apply preserves_catch.
  - apply preserves_bind; [by apply preserves_fetch_checked|].
    intros r. apply preserves_ret.
  - intros [msg|response|msg].
    + destruct (from_external_domain bd msg); [apply preserves_return|].
      destruct (_ && _); [|apply preserves_ret].
      apply preserves_catch; [|intros _; apply preserves_ret].
      apply preserves_bind; [by apply preserves_fetch_checked|].
      intros r. apply preserves_ret.
    + destruct (http_error_is_external bd response);
        [apply preserves_return | apply preserves_ret].
    + apply preserves_ret.
Qed.

Lemma preserves_try_regular_session self url :
  internal bd url → preserves P (try_regular_session env self url bd).
Proof.
  intros Hint. unfold try_regular_session. apply preserves_catch.
  - by apply preserves_fetch_checked.
  - intros [msg|response|msg].
    + destruct (from_external_domain bd msg); [apply preserves_return|].
      destruct (_ && _);
        [by apply preserves_fetch_checked | apply preserves_raise].
    + destruct (http_error_is_external bd response);
        [apply preserves_return | apply preserves_raise].
    + apply preserves_raise.
Qed.

Lemma preserves_retry_unverified url response final_url :
  internal bd url →
  preserves P (retry_unverified env url bd response final_url).
Proof.
  intros Hint w Hw. unfold retry_unverified.
  pose proof (preserves_get Cloudscraper url true (Some false) Hint w Hw) as H.
  destruct (get env Cloudscraper url true (Some false) w) as [[r|r|e] w'];
    cbn [snd] in *; [|done|done].
  destruct (ok r); [|done].
  by destruct (is_external_redirect bd (Net.url r)).
Qed.

Lemma preserves_bot_protection_retry self url response final_url :
  internal bd url →
  preserves P (bot_protection_retry env self url bd response final_url).
Proof.
  intros Hint w Hw. unfold bot_protection_retry.
  pose proof (preserves_get Cloudscraper url true None Hint w Hw) as H.
  destruct (get env Cloudscraper url true None w) as [[r|r|e] w'];
    cbn [snd] in *; [|done|].
  - destruct (ok r).
    + by destruct (is_external_redirect bd (Net.url r)).
    + by destruct (http_error_is_external bd (Some r)).
  - destruct e as [msg|r|msg].
    + destruct (from_external_domain bd msg); [done|].
      destruct (_ && _); [|done].
      by apply preserves_retry_unverified.
    + by destruct (http_error_is_external bd r).
    + done.
Qed.

Lemma preserves_scrape_page_body self url first :
  internal bd url → preserves P (scrape_page_body env self url first bd).
Proof.
  intros Hint. unfold scrape_page_body.
  apply preserves_bind.
  { destruct (_ && _);
      [by apply preserves_try_cloudscraper_first | apply preserves_ret]. }
  intros r1. apply preserves_bind.
  { destruct r1 as [[response final_url]|]; [apply preserves_ret|].
    apply preserves_bind; [by apply preserves_try_regular_session|].
    intros r. apply preserves_ret. }
  intros [[response final_url] used]. apply preserves_bind.
  { destruct (is_external_redirect bd final_url);
      [apply preserves_return | apply preserves_ret]. }
  intros _. apply preserves_bind.
  { destruct (_ && _); [|apply preserves_ret].
    destruct (has_cloudscraper self); [|apply preserves_ret].
    by apply preserves_bot_protection_retry. }
  intros [response' final_url'].
  destruct (text response') as [html|]; [apply preserves_ret|].
  destruct (text_reencoded response') as [html|];
    [apply preserves_ret | apply preserves_return].
Qed.

Lemma preserves_ssl_last_resort self url msg :
  internal bd url → preserves P (ssl_last_resort env self url bd msg).
Proof.
  intros Hint. unfold ssl_last_resort.
  destruct (from_external_domain bd msg); [apply preserves_return|].
  destruct (_ && _); [|apply preserves_return].
  apply preserves_catch; [|intros _; apply preserves_return].
  apply preserves_bind; [by apply preserves_get|]. intros response.
  apply preserves_bind; [apply preserves_raise_for_status|]. intros _.
  destruct (is_external_redirect bd (Net.url response));
    [apply preserves_return|].
  destruct (text response) as [html|]; [apply preserves_ret|].
  destruct (text_reencoded response) as [html|];
    [apply preserves_ret | apply preserves_raise].
Qed.

Lemma scrape_page_preserves self url first add w :
  internal bd url → P w → P (scrape_page env self url first add bd w).2.
Proof.
  intros Hint Hw. unfold scrape_page.
  destruct (negb (is_valid_url url)); [done|].
  destruct (bool_decide (url ∈ visited_urls self)); [done|].
  set (body := catch _ _).
  assert (Hbody : preserves P body).
  { unfold body. apply preserves_catch;
      [by apply preserves_scrape_page_body|].
    intros [msg|r|msg];
      [by apply preserves_ssl_last_resort | |]; apply preserves_return. }
  specialize (Hbody w Hw). by destruct (body w) as [[page|r|e] w'].
Qed.

End Requests.

Lemma internal_same_host d url :
  netloc_of url = Some d → internal (Some d) url.
Proof.
  intros H. unfold internal, is_external_redirect. destruct d; [done|].
  rewrite H. by rewrite (proj2 (str_eqb_eq _ _) eq_refl).
Qed.

Section CrawlRequests.

Context {W : Type} (env : Env W) (P : W → Prop).

Lemma loop_step_preserves job c c' :
  (∀ client url allow_redirects verify w,
     internal (Some (base_domain job)) url → P w →
     P (http_get env client url allow_redirects verify w).2) →
  loop_step env job c = Some c' → P (world c) → P (world c').
Proof.
  intros Hget. unfold loop_step, loop_step_with. intros H Hw.
  destruct (url_queue c) as [|[current_url depth] queue]; [done|].
  destruct (negb _); [done|].
  destruct (_ || _); [by inversion H|].
  destruct (netloc_of current_url) as [current_domain|] eqn:En;
    [|by inversion H].
  destruct (str_eqb current_domain (base_domain job)) eqn:Ed;
    cbn [negb] in H; [|by inversion H].
  apply str_eqb_eq in Ed as ->.
  set (add := negb _) in H. set (first := (depth =? 0) && _) in H.
  pose proof (scrape_page_preserves env P (Some (base_domain job)) Hget
                (scraper c) current_url first add (world c)
                (internal_same_host _ _ En) Hw) as Hp.
  destruct (scrape_page env (scraper c) current_url first add
              (Some (base_domain job)) (world c)) as [[[page|] self'] w'];
    cbn [snd] in Hp; by inversion H.
Qed.

Lemma run_preserves job n c :
  (∀ client url allow_redirects verify w,
     internal (Some (base_domain job)) url → P w →
     P (http_get env client url allow_redirects verify w).2) →
  P (world c) → P (world (run env job n c)).
Proof.
  intros Hget. revert c. induction n as [|n IH]; intros c Hw; [done|].
  simpl. destruct (loop_step env job c) as [c'|] eqn:E; [|done].
  apply IH. by eapply loop_step_preserves.
Qed.

End CrawlRequests.

(** During a crawl, every URL that [scrape_site] passes to the [get] of a
    session passed the domain check: if [urlparse] reads a host from it,
    this is the host of the base URL. *)
Theorem scrape_site_requests_on_base_domain {W : Type} (env : Env W)
    (fuel : nat) (self : t) (w : W) (base_url : str)
    (depth_arg pages_arg : option Z) (pages : list Page)
    (c : Crawl (W:=W * list str)) :
  scrape_site (recording env) fuel self (w, []) base_url depth_arg pages_arg
    = Some (pages, c) →
  ∀ url host,
    url ∈ (world c).2 → netloc_of url = Some host →
    netloc_of base_url = Some host.
Proof.
  unfold scrape_site. intros H url host Hurl Hhost.
  destruct (scrape_site_start self (w, []) base_url depth_arg pages_arg)
    as [[job c0]|] eqn:Hstart.
  - destruct (loop_step (recording env) job (run (recording env) job fuel c0));
      [done|].
    injection H as _ <-.
    apply scrape_site_start_inv in Hstart as (Hvalid & Hbase & _ & _ & Hc0).
    apply is_valid_url_netloc in Hvalid as (d & Hd & Hne).
    rewrite Hbase in Hd. injection Hd as <-.
    assert (Hall : Forall (internal (Some (base_domain job)))
                     (world (run (recording env) job fuel c0)).2).
    { apply (run_preserves (recording env)
               (λ w, Forall (internal (Some (base_domain job))) w.2)).
      - intros client u a v [w1 log] Hint Hlog. cbn.
        destruct (http_get env client u a v w1). cbn. by constructor.
      - rewrite Hc0. cbn. constructor. }
    rewrite Hbase. f_equal. symmetry.
    eapply internal_host; [exact Hne| |exact Hhost].
    by apply (proj1 (Forall_forall _ _) Hall).
  - injection H as _ <-. cbn in Hurl. by apply elem_of_nil in Hurl.
Qed.

Lemma scrape_site_requests_on_base_domain_witness :
  netloc_of url_home = Some (L "ex.org").
Proof.
  assert (H : ∃ pages c,
            scrape_site (recording example_env) 10 example_scraper (tt, [])
              url_home None None = Some (pages, c) ∧ url_b ∈ (world c).2).
  { eexists _, _. split; [vm_compute; reflexivity|].
    apply list_elem_of_here. }
  destruct H as (pages & c & H & Hin).
  apply (scrape_site_requests_on_base_domain example_env 10 example_scraper
           tt url_home None None pages c H url_b (L "ex.org") Hin).
  vm_compute. reflexivity.
Defined.

(** ** The pages that a crawl returns *)

Section Built.

Context {W : Type} (env : Env W).

Lemma guarded_scrape_page_body_built self url first base_domain :
  guarded (scrape_page_body env self url first base_domain)
    (built env base_domain).
Proof.
  unfold scrape_page_body.
  eapply guarded_bind with
    (Q := λ o, match o with
               | Some r => internal base_domain r.2
               | None => True
               end).
  { destruct (_ && _);
      [apply guarded_try_cloudscraper_first | by apply guarded_ret]. }
  intros r1 Hr1.
  eapply guarded_bind with (Q := λ r, internal base_domain r.1.2).
  { destruct r1 as [[response final_url]|].
    - by apply guarded_ret.
    - eapply guarded_bind; [apply guarded_try_regular_session|].
      intros r Hr. by apply guarded_ret. }
  intros [[response final_url] used] Hfinal. simpl in Hfinal.
  eapply guarded_bind with (Q := λ _, True).
  { destruct (is_external_redirect base_domain final_url);
      [apply guarded_return_none | by apply guarded_ret]. }
  intros _ _.
  eapply guarded_bind with (Q := λ r, internal base_domain r.2).
  { destruct (_ && _); [|by apply guarded_ret].
    destruct (has_cloudscraper self); [|by apply guarded_ret].
    by apply guarded_bot_protection_retry. }
  intros [response' final_url'] Hfinal'. simpl in Hfinal'.
  destruct (text response') as [html|].
  - apply guarded_ret. by exists response', html, final_url'.
  - destruct (text_reencoded response') as [html|];
      [|apply guarded_return_none].
    apply guarded_ret. by exists response', html, final_url'.
Qed.

Lemma guarded_ssl_last_resort_built self url base_domain msg :
  guarded (ssl_last_resort env self url base_domain msg)
    (built env base_domain).
Proof.
  unfold ssl_last_resort.
  destruct (from_external_domain base_domain msg); [apply guarded_return_none|].
  destruct (_ && _); [|apply guarded_return_none].
  apply guarded_catch; [|intros _; apply guarded_return_none].
  eapply guarded_bind; [apply guarded_get|]. intros response _.
  eapply guarded_bind; [apply guarded_raise_for_status|]. intros _ _.
  destruct (is_external_redirect base_domain (Net.url response)) eqn:E;
    [apply guarded_return_none|].
  destruct (text response) as [html|].
  - apply guarded_ret. by exists response, html, (Net.url response).
  - destruct (text_reencoded response) as [html|]; [|apply guarded_raise].
    apply guarded_ret. by exists response, html, (Net.url response).
Qed.

Lemma scrape_page_built self url first add base_domain w page :
  (scrape_page env self url first add base_domain w).1.1 = Some page →
  built env base_domain page.
Proof.
  unfold scrape_page.
  destruct (negb (is_valid_url url)); [done|].
  destruct (bool_decide (url ∈ visited_urls self)); [done|].
  set (body := catch _ _).
  assert (Hbody : guarded body (built env base_domain)).
  { unfold body. apply guarded_catch; [apply guarded_scrape_page_body_built|].
    intros [msg|r|msg]; [apply guarded_ssl_last_resort_built | | ];
      apply guarded_return_none. }
  specialize (Hbody w). destruct (body w) as [[p|r|e] w']; simpl in *.
  - by intros [= <-].
  - by subst.
  - done.
Qed.

(** What is in a page that was built. *)
Lemma built_page base_domain page :
  built env base_domain page →
  internal base_domain (page_url page) ∧
  page_content_length page = length (page_text page) ∧
  page_source page = None ∧
  NoDup (page_links page) ∧
  ∀ link, link ∈ page_links page →
    is_valid_url link = true ∧
    match base_domain with
    | Some (c :: d) => netloc_of link = Some (c :: d)
    | _ => is_same_domain link (page_url page) = true
    end.
Proof.
  intros (response & html & final_url & Hint & ->). unfold page_of. cbn.
  split; [done|]. split; [done|]. split; [done|].
  split; [apply extract_links_NoDup|].
  intros link Hin. by apply extract_links_elem in Hin as (Hv & _ & Hd).
Qed.

Lemma loop_step_built job c c' page :
  loop_step env job c = Some c' →
  page ∈ scraped_pages (scraper c') →
  page ∈ scraped_pages (scraper c) ∨ built env (Some (base_domain job)) page.
Proof.
  unfold loop_step, loop_step_with. intros H Hin.
  destruct (url_queue c) as [|[current_url depth] queue]; [done|].
  destruct (negb _); [done|].
  destruct (_ || _); [left; by inversion H; subst|].
  destruct (netloc_of current_url) as [current_domain|];
    [|left; by inversion H; subst].
  destruct (negb (str_eqb _ _)); [left; by inversion H; subst|].
  set (add := negb _) in H. set (first := (depth =? 0) && _) in H.
  pose proof (scrape_page_result env (scraper c) current_url first add
                (Some (base_domain job)) (world c)) as Hres.
  pose proof (scrape_page_built (scraper c) current_url first add
                (Some (base_domain job)) (world c)) as Hbuilt.
  destruct (scrape_page env (scraper c) current_url first add
              (Some (base_domain job)) (world c)) as [[[p|] self'] w'].
  - destruct Hres as (_ & -> & _). specialize (Hbuilt p eq_refl).
    assert (Hp : page ∈ scraped_pages
                   (record_page (scraper c) current_url add p)).
    { destruct (on_success_frame (record_page (scraper c) current_url add p))
        as (_ & _ & <- & _).
      by inversion H; subst. }
    cbn in Hp. destruct add; [|by left].
    apply elem_of_app in Hp as [Hp|Hp]; [by left|].
    apply list_elem_of_singleton in Hp as ->. by right.
  - subst self'. left.
    destruct (on_failure_frame (scraper c)) as (_ & _ & <- & _).
    by inversion H; subst.
Qed.

Lemma run_built job n c page :
  (∀ p, p ∈ scraped_pages (scraper c) →
        built env (Some (base_domain job)) p) →
  page ∈ scraped_pages (scraper (run env job n c)) →
  built env (Some (base_domain job)) page.
Proof.
  revert c. induction n as [|n IH]; intros c Hc Hin; [by apply Hc|].
  simpl in Hin. destruct (loop_step env job c) as [c'|] eqn:E; [|by apply Hc].
  apply (IH c'); [|done]. intros p Hp.
  destruct (loop_step_built job c c' p E Hp) as [H|H]; [by apply Hc|done].
Qed.

End Built.

(** A page that [scrape_page] returns: its [content_length] is the length
    of its text, it has no [source] yet, and its links have no duplicates,
    are valid URLs and are on the given non-empty base domain, or, without
    one, on the domain of the page's own URL. *)
Theorem scrape_page_page {W : Type} (env : Env W) (self : t) (url : str)
    (use_cloudscraper_first add_to_scraped_pages : bool)
    (base_domain : option str) (w : W) (page : Page) :
  (scrape_page env self url use_cloudscraper_first add_to_scraped_pages
     base_domain w).1.1 = Some page →
  page_content_length page = length (page_text page) ∧
  page_source page = None ∧
  NoDup (page_links page) ∧
  ∀ link, link ∈ page_links page →
    is_valid_url link = true ∧
    match base_domain with
    | Some (c :: d) => netloc_of link = Some (c :: d)
    | _ => is_same_domain link (page_url page) = true
    end.
Proof.
  intros H. apply scrape_page_built in H.
  apply built_page in H as (_ & Hlen & Hsrc & Hnd & Hlinks).
  split; [exact Hlen|]. split; [exact Hsrc|]. split; [exact Hnd|].
  exact Hlinks.
Qed.

Lemma scrape_page_page_witness :
  let page := mkPage url_home (L "page https://ex.org")
                [url_files; url_c; url_b] 200 19 None in
  page_content_length page = length (page_text page) ∧
  page_source page = None ∧
  NoDup (page_links page) ∧
  ∀ link, link ∈ page_links page →
    is_valid_url link = true ∧ netloc_of link = Some (L "ex.org").
Proof.
  apply (scrape_page_page example_env example_scraper url_home false true
           (Some (L "ex.org")) tt).
  vm_compute. reflexivity.
Defined.

(** Every link of every page that [scrape_site] returns is a valid URL on
    the host of the base URL, and no page lists a link twice. *)
Theorem scrape_site_links_on_base_domain {W : Type} (env : Env W)
    (fuel : nat) (self : t) (w : W) (base_url : str)
    (depth_arg pages_arg : option Z) (pages : list Page) (c : Crawl) :
  scrape_site env fuel self w base_url depth_arg pages_arg
    = Some (pages, c) →
  ∀ page, page ∈ pages →
    NoDup (page_links page) ∧
    ∀ link, link ∈ page_links page →
      is_valid_url link = true ∧ netloc_of link = netloc_of base_url.
Proof.
  unfold scrape_site. intros H page Hpage.
  destruct (scrape_site_start self w base_url depth_arg pages_arg)
    as [[job c0]|] eqn:Hstart.
  - destruct (loop_step env job (run env job fuel c0)); [done|].
    injection H as <- <-.
    apply scrape_site_start_inv in Hstart as (Hvalid & Hbase & _ & _ & Hc0).
    apply is_valid_url_netloc in Hvalid as (d & Hd & Hne).
    rewrite Hbase in Hd. injection Hd as <-.
    assert (Hb : built env (Some (base_domain job)) page).
    { apply (run_built env job fuel c0); [|done].
      intros p Hp. rewrite Hc0 in Hp. by apply elem_of_nil in Hp. }
    apply built_page in Hb as (_ & _ & _ & Hnd & Hlinks).
    split; [exact Hnd|]. intros link Hlink.
    destruct (Hlinks link Hlink) as [Hv Hhost]. split; [exact Hv|].
    rewrite Hbase. by destruct (base_domain job).
  - injection H as <- <-. by apply elem_of_nil in Hpage.
Qed.

Lemma scrape_site_links_on_base_domain_witness :
  NoDup [url_files; url_c; url_b] ∧
  ∀ link, link ∈ [url_files; url_c; url_b] →
    is_valid_url link = true ∧ netloc_of link = netloc_of url_home.
Proof.
  set (page := mkPage url_home (L "page https://ex.org")
                 [url_files; url_c; url_b] 200 19 None).
  assert (H : ∃ pages c,
            scrape_site example_env 10 example_scraper tt url_home None None
              = Some (pages, c) ∧ page ∈ pages).
  { eexists _, _. split; [vm_compute; reflexivity|]. apply list_elem_of_here. }
  destruct H as (pages & c & H & Hin).
  apply (scrape_site_links_on_base_domain example_env 10 example_scraper tt
           url_home None None pages c H page Hin).
Defined.

(** ** Cache keys of valid URLs *)

Lemma is_char_at_lower c : is_char "@" (lower_char c) = is_char "@" c.
Proof. by destruct c as [[] [] [] [] [] [] [] []]. Qed.

Lemma has_char_at_lower s : has_char "@" (lower s) = has_char "@" s.
Proof.
  unfold has_char, lower. induction s as [|c s IH]; [done|].
  cbn [map existsb]. by rewrite is_char_at_lower, IH.
Qed.

Lemma startswith_bracket_lower s :
  startswith (lower s) (L "[") = startswith s (L "[").
Proof. destruct s as [|c s]; [done|]. by destruct c as [[] [] [] [] [] [] [] []]. Qed.

(** The parts that [urlsplit] reads back from a cache key. *)
Lemma normalize_urlsplit u r :
  u ≠ [] → urlparse u = Some r → netloc r ≠ [] →
  ∃ S P,
    normalize_url_for_cache u =
      S ++ L "://" ++ lower (netloc r) ++ P ++ query_suffix (query r) ∧
    (S = L "http" ∨ S = L "https") ∧
    urlsplit (normalize_url_for_cache u) =
      Some (S, lower (netloc r), P, query r, []).
Proof.
  intros Hu Hr Hnet0.
  destruct (normalize_parts u r Hu Hr) as (S & P & Hn & HS & _ & HP).
  pose proof (urlparse_facts u r Hr)
    as (Hnet & Hbr & Hq & Hhash & Hsafe & Hauth).
  specialize (Hauth Hnet0).
  assert (Hpre : ∃ k, path r = P ++ replicate k "/"%char).
  { destruct HP as [[-> ->]|[_ ->]]; [by exists O | apply rstrip_char_prefix]. }
  destruct Hpre as [k Hk].
  exists S, P. split; [done|]. split; [done|]. rewrite Hn.
  apply urlsplit_canonical; try done.
  - rewrite forallb_lower; [done|]. intros c. by rewrite is_netloc_delim_lower.
  - by rewrite brackets_ok_lower.
  - rewrite Hk in Hauth. by apply rooted_prefix in Hauth.
  - rewrite Hk in Hq. by apply forallb_app_l in Hq.
  - rewrite Hk in Hhash. rewrite !forallb_app in *.
    repeat match goal with
           | H : _ && _ = true |- _ => apply andb_true_iff in H as [? ?]
           end.
    by apply andb_true_iff.
  - rewrite Hk in Hsafe. rewrite !forallb_app in *.
    repeat match goal with
           | H : _ && _ = true |- _ => apply andb_true_iff in H as [? ?]
           end.
    rewrite forallb_lower by (intros c; by rewrite is_unsafe_lower).
    repeat (apply andb_true_iff; split); done.
Qed.

(** The cache key of a valid URL is a valid URL again, with the host in
    lower case: [normalize_url_for_cache] keeps [is_valid_url]. *)
Theorem normalize_url_for_cache_valid (url : str) :
  is_valid_url url = true →
  is_valid_url (normalize_url_for_cache url) = true ∧
  ∃ host, netloc_of url = Some host ∧
          netloc_of (normalize_url_for_cache url) = Some (lower host).
Proof.
  intros Hvalid.
  assert (Hu : url ≠ []) by (by destruct url).
  assert (Hparts : ∃ r, urlparse url = Some r ∧ netloc r ≠ [] ∧
                        (has_char "@" (netloc r) &&
                         negb (startswith (netloc r) (L "["))) = false).
  { unfold is_valid_url in Hvalid. destruct url as [|c0 u0]; [done|].
    destruct (_ || _); [done|]. destruct (_ && _); [done|].
    destruct (urlparse (c0 :: u0)) as [r|]; [|done]. exists r.
    split; [done|]. destruct (scheme r); [done|].
    destruct (netloc r) eqn:En; [done|].
    destruct (negb (_ || _)); [done|].
    split; [done|]. by destruct (_ && _). }
  destruct Hparts as (r & Hr & Hnet & Hat).
  destruct (normalize_urlsplit url r Hu Hr Hnet) as (S & P & Hn & HS & Hsplit).
  assert (Hparse : ∃ r', urlparse (normalize_url_for_cache url) = Some r' ∧
                         scheme r' = S ∧ netloc r' = lower (netloc r)).
  { unfold urlparse. rewrite Hsplit.
    destruct (existsb (str_eqb S) uses_params && has_char ";" P);
      [destruct (splitparams P) as [p1 p2]|];
      eexists; (split; [reflexivity|]); split; reflexivity. }
  destruct Hparse as (r' & Hr' & Hs' & Hn').
  split.
  - assert (Hat' : has_char "@" (lower (netloc r)) &&
                   negb (startswith (lower (netloc r)) (L "[")) = false).
    { by rewrite has_char_at_lower, startswith_bracket_lower. }
    assert (Hlow : lower (netloc r) ≠ []) by (by destruct (netloc r)).
    unfold is_valid_url. rewrite Hr', Hs', Hn'. rewrite Hn.
    destruct (lower (netloc r)) as [|a n] eqn:El; [done|]. rewrite Hat'.
    destruct HS as [-> | ->]; cbn; by rewrite ?andb_false_r.
  - exists (netloc r). unfold netloc_of. by rewrite Hr, Hr', Hn'.
Qed.

Lemma normalize_url_for_cache_valid_witness :
  is_valid_url (normalize_url_for_cache (L "HTTP://Ex.ORG/a/?x=1")) = true ∧
  ∃ host, netloc_of (L "HTTP://Ex.ORG/a/?x=1") = Some host ∧
          netloc_of (normalize_url_for_cache (L "HTTP://Ex.ORG/a/?x=1"))
            = Some (lower host).
Proof.
  apply (normalize_url_for_cache_valid (L "HTTP://Ex.ORG/a/?x=1")).
  vm_compute. reflexivity.
Defined.

(** ** [scrape_school_urls] and the lists it shares *)

Lemma shared_get_set c now url l sid url2 :
  Shared.get (Shared.set c now url l sid) url2 =
  if decide (Shared.normalize_key c url2 = Shared.normalize_key c url)
  then Some (default l (Shared.get c url))
  else Shared.get c url2.
Proof.
  unfold Shared.get, Shared.set.
  change (Shared.normalize_key {| Shared._cache := _; Shared._normalizer := _ |} url2)
    with (Shared.normalize_key c url2).
  cbn [Shared._cache].
  set (key := Shared.normalize_key c url).
  set (key2 := Shared.normalize_key c url2).
  assert (H : ∀ (m : gmap str Shared.Entry) f,
            (∀ e, Shared.pages (f e) = Shared.pages e) →
            match alter f key m !! key2 with
            | Some e => Some (Shared.pages e)
            | None => None
            end =
            match m !! key2 with
            | Some e => Some (Shared.pages e)
            | None => None
            end).
  { intros m f Hf. destruct (decide (key = key2)) as [<-|Hne].
    - rewrite lookup_alter_eq. destruct (m !! key); cbn; [by rewrite Hf|done].
    - by rewrite lookup_alter_ne. }
  assert (H1 : match (match Shared._cache c !! key with
                      | Some _ => Shared._cache c
                      | None => <[key := {| Shared.pages := l;
                                            Shared.scraped_at := now;
                                            Shared.schools := ∅ |}]>
                                  (Shared._cache c)
                      end) !! key2 with
               | Some e => Some (Shared.pages e)
               | None => None
               end =
               if decide (key2 = key)
               then Some (default l
                            match Shared._cache c !! key with
                            | Some e => Some (Shared.pages e)
                            | None => None
                            end)
               else match Shared._cache c !! key2 with
                    | Some e => Some (Shared.pages e)
                    | None => None
                    end).
  { case_decide as E.
    - rewrite E. destruct (Shared._cache c !! key) eqn:Ek.
      + by rewrite Ek.
      + by rewrite lookup_insert_eq.
    - destruct (Shared._cache c !! key); [done|].
      by rewrite lookup_insert_ne. }
  destruct sid as [[|x sid]|]; [exact H1| |exact H1].
  rewrite H; [exact H1|done].
Qed.

Lemma fold_alter_seq {A} (f : A → A) (b a c : list A) :
  fold_left (λ objs p, alter f p objs) (seq (length a) (length b))
    (a ++ b ++ c) = a ++ map f b ++ c.
Proof.
  revert a. induction b as [|x b IH]; intros a; [done|].
  cbn [length seq fold_left map].
  replace (alter f (length a) (a ++ (x :: b) ++ c))
    with ((a ++ [f x]) ++ b ++ c).
  - replace (S (length a)) with (length (a ++ [f x]))
      by (rewrite length_app; simpl; lia).
    rewrite IH. by rewrite <- app_assoc.
  - rewrite <- app_assoc. cbn [app].
    rewrite (alter_app_r_alt f a _ (length a)) by lia.
    by rewrite Nat.sub_diag.
Qed.

Lemma omap_lookup_seq {A} (b a c : list A) :
  omap (λ p, (a ++ b ++ c) !! p) (seq (length a) (length b)) = b.
Proof.
  revert a. induction b as [|x b IH]; intros a; [done|].
  cbn [length seq omap list_omap].
  rewrite (lookup_app_r a) by lia. rewrite Nat.sub_diag. cbn.
  replace (S (length a)) with (length (a ++ [x]))
    by (rewrite length_app; simpl; lia).
  specialize (IH (a ++ [x])). rewrite <- app_assoc in IH. cbn [app] in IH.
  by rewrite IH.
Qed.

Section SharedLists.

Context {W : Type} (env : Net.Env W) (clock : W → str).

Lemma scrape_site_start_valid (self : WebScraper.t) (w : W) url d p :
  is_valid_url url = true →
  WebScraper.scrape_site_start self w url d p ≠ None.
Proof.
  intros Hv. unfold WebScraper.scrape_site_start. rewrite Hv. cbn [negb].
  apply is_valid_url_netloc in Hv as (host & -> & _). done.
Qed.

Lemma shared_scrape_site_valid fuel self l url st pages c :
  is_valid_url url = true →
  WebScraper.scrape_site env fuel self (Shared.net st) url None None
    = Some (pages, c) →
  Shared.scrape_site env fuel self l url st =
  Some (l, WebScraper.scraper c,
        {| Shared.mem :=
             {| Shared.page_objs := Shared.page_objs (Shared.mem st) ++ pages;
                Shared.list_objs :=
                  <[l := seq (length (Shared.page_objs (Shared.mem st)))
                             (length pages)]>
                    (Shared.list_objs (Shared.mem st)) |};
           Shared.cache := Shared.cache st;
           Shared.net := WebScraper.world c |}).
Proof.
  intros Hv H. unfold Shared.scrape_site. rewrite H.
  pose proof (scrape_site_start_valid self (Shared.net st) url None None Hv).
  by destruct (WebScraper.scrape_site_start self (Shared.net st) url None None).
Qed.

Lemma from_cache_miss source url sid st cached_pages urls_to_scrape :
  Shared.get (Shared.cache st) url = None →
  Shared.from_cache clock source url sid (st, cached_pages, urls_to_scrape) =
  (st, cached_pages, urls_to_scrape ++ [(source, url)]).
Proof. intros H. unfold Shared.from_cache. by rewrite H. Qed.

End SharedLists.

Lemma read_list_written P lists l refs :
  (l < length lists)%nat →
  Shared.read_list {| Shared.page_objs := P;
                      Shared.list_objs := <[l := refs]> lists |} l = refs.
Proof.
  intros H. unfold Shared.read_list. cbn. by rewrite list_lookup_insert_eq.
Qed.

Lemma set_sources_new source P ps lists :
  Shared.set_sources source (seq (length P) (length ps))
    {| Shared.page_objs := P ++ ps; Shared.list_objs := lists |} =
  {| Shared.page_objs := P ++ map (Shared.with_source source) ps;
     Shared.list_objs := lists |}.
Proof.
  unfold Shared.set_sources. cbn. f_equal.
  pose proof (fold_alter_seq (Shared.with_source source) ps P []) as H.
  by rewrite !app_nil_r in H.
Qed.

Lemma deref_new P ps rest lists :
  Shared.deref {| Shared.page_objs := P ++ ps ++ rest;
                  Shared.list_objs := lists |}
    (seq (length P) (length ps)) = ps.
Proof. unfold Shared.deref. cbn. apply omap_lookup_seq. Qed.

Lemma deref_app m refs1 refs2 :
  Shared.deref m (refs1 ++ refs2) = Shared.deref m refs1 ++ Shared.deref m refs2.
Proof. unfold Shared.deref. apply omap_app. Qed.

Lemma get_with_normalizer c f url :
  Shared.get (Shared.set_normalizer c f) url =
  match Shared._cache c !! f url with
  | Some e => Some (Shared.pages e)
  | None => None
  end.
Proof. reflexivity. Qed.

(** [scrape_school_urls] for a school URL and a district URL that are both
    valid, differ, and are not in the cache: the pages returned are the
    pages of the school's site, tagged ['school'], then those of the
    district's site, tagged ['district']; but the cache entries of the two
    URLs hold the same list, the scraper's [scraped_pages], which the
    second crawl has cleared and filled again: the pages cached for the
    school URL are the pages of the district's site. *)
Theorem scrape_school_urls_shares_list {W : Type} (env : Net.Env W)
    (clock : W → str) (cfg : WebScraper.Config) (cloudscraper_ok : bool)
    (fuel : nat) (school_url district_url : str) (school_id : option str)
    (st : Shared.State) (school_pages district_pages : list Page)
    (c1 c2 : WebScraper.Crawl) :
  is_valid_url school_url = true →
  is_valid_url district_url = true →
  lower (rstrip_char "/" district_url) ≠ lower (rstrip_char "/" school_url) →
  normalize_url_for_cache district_url ≠ normalize_url_for_cache school_url →
  Shared._cache (Shared.cache st) !! normalize_url_for_cache school_url
    = None →
  Shared._cache (Shared.cache st) !! normalize_url_for_cache district_url
    = None →
  WebScraper.scrape_site env fuel (WebScraper.init cfg cloudscraper_ok)
    (Shared.net st) school_url None None = Some (school_pages, c1) →
  WebScraper.scrape_site env fuel (WebScraper.scraper c1)
    (WebScraper.world c1) district_url None None
    = Some (district_pages, c2) →
  ∃ refs st' l,
    Shared.scrape_school_urls env clock cfg cloudscraper_ok fuel
      (Some school_url) (Some district_url) school_id st = Some (refs, st') ∧
    Shared.deref (Shared.mem st') refs =
      map (Shared.with_source (L "school")) school_pages ++
      map (Shared.with_source (L "district")) district_pages ∧
    Shared.get (Shared.cache st') school_url = Some l ∧
    Shared.get (Shared.cache st') district_url = Some l ∧
    Shared.deref (Shared.mem st') (Shared.read_list (Shared.mem st') l) =
      map (Shared.with_source (L "district")) district_pages.
Proof.
  intros Hvs Hvd Hnorm Hkeys Hs Hd Hcrawl1 Hcrawl2.
  destruct st as [[P0 L0] cache0 w0]. cbn [Shared.mem Shared.cache Shared.net] in *.
  unfold Shared.scrape_school_urls.
  destruct school_url as [|s0 s]; [done|].
  destruct district_url as [|d0 d]; [done|].
  set (su := s0 :: s) in *. set (du := d0 :: d) in *.
  cbn [Shared.new_list Shared.mem Shared.cache Shared.net Shared.page_objs
       Shared.list_objs Shared.normalize_url].
  rewrite bool_decide_eq_true_2; [|intros [= E]; exact (Hnorm E)].
  set (cache1 := Shared.set_normalizer cache0 normalize_url_for_cache).
  rewrite (from_cache_miss clock (L "school") su school_id); last first.
  { cbn [Shared.cache]. unfold cache1. by rewrite get_with_normalizer, Hs. }
  rewrite (from_cache_miss clock (L "district") du school_id); last first.
  { cbn [Shared.cache]. unfold cache1. by rewrite get_with_normalizer, Hd. }
  cbn [app]. unfold su at 1. unfold du at 1.
  cbn [Shared.scrape_all].
  fold su. fold du.
  erewrite shared_scrape_site_valid; [|exact Hvs|exact Hcrawl1].
  cbn [Shared.mem Shared.cache Shared.net Shared.page_objs Shared.list_objs].
  assert (Hl0 : (length L0 < length (L0 ++ [[]]))%nat)
    by (rewrite length_app; simpl; lia).
  rewrite read_list_written by done. rewrite set_sources_new.
  change (str_eqb (L "school") (L "district")) with false. cbn iota.
  set (cache2 := Shared.set cache1 _ su (length L0) school_id).
  set (tagged := map (Shared.with_source (L "school")) school_pages).
  erewrite shared_scrape_site_valid; [|exact Hvd|exact Hcrawl2].
  cbn [Shared.mem Shared.cache Shared.net Shared.page_objs Shared.list_objs].
  rewrite read_list_written by (by rewrite length_insert).
  rewrite set_sources_new.
  set (cache3 := Shared.set cache2 _ du (length L0) school_id).
  set (tagged' := map (Shared.with_source (L "district")) district_pages).
  cbn [app].
  eexists _, _, (length L0). split; [reflexivity|].
  cbn [Shared.mem Shared.cache].
  assert (Hget1 : ∀ url, Shared.get cache1 url =
            match Shared._cache cache0 !! normalize_url_for_cache url with
            | Some e => Some (Shared.pages e)
            | None => None
            end) by done.
  assert (Hget2 : Shared.get cache2 su = Some (length L0) ∧
                  Shared.get cache2 du = None).
  { unfold cache2. rewrite !shared_get_set.
    change (Shared.normalize_key cache1 su) with (normalize_url_for_cache su).
    change (Shared.normalize_key cache1 du) with (normalize_url_for_cache du).
    rewrite decide_True by done. rewrite decide_False by done.
    by rewrite !Hget1, Hs, Hd. }
  destruct Hget2 as [Hget2s Hget2d].
  assert (Hlen1 : length school_pages = length tagged)
    by (unfold tagged; by rewrite length_map).
  assert (Hlen2 : length district_pages = length tagged')
    by (unfold tagged'; by rewrite length_map).
  rewrite Hlen1, Hlen2.
  assert (Hderef2 : ∀ lists,
            Shared.deref {| Shared.page_objs := (P0 ++ tagged) ++ tagged';
                            Shared.list_objs := lists |}
              (seq (length (P0 ++ tagged)) (length tagged')) = tagged').
  { intros lists. pose proof (deref_new (P0 ++ tagged) tagged' [] lists) as H.
    by rewrite app_nil_r in H. }
  split; [|split; [|split]].
  - rewrite deref_app, Hderef2. f_equal.
    rewrite <- app_assoc. apply deref_new.
  - unfold cache3. rewrite shared_get_set.
    change (Shared.normalize_key cache2 su) with (normalize_url_for_cache su).
    change (Shared.normalize_key cache2 du) with (normalize_url_for_cache du).
    rewrite decide_False by done. exact Hget2s.
  - unfold cache3. rewrite shared_get_set.
    rewrite decide_True by done. by rewrite Hget2d.
  - rewrite read_list_written by (by rewrite length_insert).
    apply Hderef2.
Qed.

Lemma scrape_school_urls_shares_list_witness :
  ∃ refs st' l,
    Shared.scrape_school_urls example_env (λ _, L "2025-01-01T00:00:00")
      example_config false 10 (Some url_home) (Some url_c) (Some (L "s1"))
      {| Shared.mem := {| Shared.page_objs := []; Shared.list_objs := [] |};
         Shared.cache := {| Shared._cache := ∅; Shared._normalizer := None |};
         Shared.net := tt |} = Some (refs, st') ∧
    Shared.get (Shared.cache st') url_home = Some l ∧
    Shared.get (Shared.cache st') url_c = Some l ∧
    map page_url (Shared.deref (Shared.mem st')
                    (Shared.read_list (Shared.mem st') l)) = [url_c].
Proof.
  set (st := {| Shared.mem := {| Shared.page_objs := [];
                                 Shared.list_objs := [] |};
                Shared.cache := {| Shared._cache := ∅;
                                   Shared._normalizer := None |};
                Shared.net := tt |}).
  assert (H1 : ∃ ps c1,
            WebScraper.scrape_site example_env 10
              (WebScraper.init example_config false) (Shared.net st) url_home
              None None = Some (ps, c1)).
  { eexists _, _. vm_compute. reflexivity. }
  destruct H1 as (ps & c1 & H1).
  assert (H2 : ∃ c2,
            WebScraper.scrape_site example_env 10 (WebScraper.scraper c1)
              (WebScraper.world c1) url_c None None
            = Some ([mkPage url_c (L "page https://ex.org/c") [url_b] 200 21
                       None], c2)).
  { vm_compute in H1. injection H1 as _ <-. eexists. vm_compute. reflexivity. }
  destruct H2 as (c2 & H2).
  destruct (scrape_school_urls_shares_list example_env
              (λ _, L "2025-01-01T00:00:00") example_config false 10
              url_home url_c (Some (L "s1")) st ps
              [mkPage url_c (L "page https://ex.org/c") [url_b] 200 21 None]
              c1 c2)
    as (refs & st' & l & Hrun & _ & Hs & Hd & Hl).
  - vm_compute. reflexivity.
  - vm_compute. reflexivity.
  - vm_compute. discriminate.
  - vm_compute. discriminate.
  - vm_compute. reflexivity.
  - vm_compute. reflexivity.
  - exact H1.
  - exact H2.
  - exists refs, st', l. split; [exact Hrun|]. split; [exact Hs|].
    split; [exact Hd|]. rewrite Hl. reflexivity.
Defined.

(** *** A URL that is in the cache *)

Lemma fold_alter_lookup {A} (f : A → A) (refs : list nat) (objs : list A)
    (p : nat) :
  (∀ x, f (f x) = f x) →
  fold_left (λ objs p, alter f p objs) refs objs !! p =
  if bool_decide (p ∈ refs) then f <$> objs !! p else objs !! p.
Proof.
  intros Hf. revert objs. induction refs as [|q refs IH]; intros objs; [done|].
  cbn [fold_left]. rewrite IH.
  destruct (decide (q = p)) as [->|Hne].
  - rewrite list_lookup_alter_eq.
    rewrite (bool_decide_eq_true_2 (p ∈ p :: refs)) by apply list_elem_of_here.
    destruct (bool_decide (p ∈ refs)); [|done].
    destruct (objs !! p); cbn; [by rewrite Hf|done].
  - rewrite list_lookup_alter_ne by done.
    destruct (bool_decide_reflect (p ∈ refs)) as [Hin|Hnot].
    + by rewrite bool_decide_eq_true_2 by (by apply list_elem_of_further).
    + rewrite bool_decide_eq_false_2; [done|].
      intros [E|E]%elem_of_cons; [by apply Hne|by apply Hnot].
Qed.

Lemma deref_set_sources source refs m :
  Shared.deref (Shared.set_sources source refs m) refs =
  map (Shared.with_source source) (Shared.deref m refs).
Proof.
  unfold Shared.deref, Shared.set_sources. cbn [Shared.page_objs].
  assert (H : ∀ sub, sub ⊆ refs →
            omap (λ p, fold_left
                         (λ objs p, alter (Shared.with_source source) p objs)
                         refs (Shared.page_objs m) !! p) sub =
            map (Shared.with_source source)
                (omap (λ p, Shared.page_objs m !! p) sub)).
  { induction sub as [|p sub IH]; intros Hsub; [done|].
    cbn [omap list_omap]. rewrite fold_alter_lookup by done.
    rewrite bool_decide_eq_true_2 by (apply Hsub, list_elem_of_here).
    rewrite IH by (intros x Hx; by apply Hsub, list_elem_of_further).
    by destruct (Shared.page_objs m !! p). }
  by apply H.
Qed.

(** [scrape_school_urls] for a school URL whose cache entry holds a list
    with pages, and no district URL: there is no request, the network is
    as before; the pages returned are those of the cached list; their
    dictionaries now carry the source ['school'], also for whoever got them
    earlier; the lists in memory are as before. *)
Theorem scrape_school_urls_cache_hit {W : Type} (env : Net.Env W)
    (clock : W → str) (cfg : WebScraper.Config) (cloudscraper_ok : bool)
    (fuel : nat) (school_url : str) (school_id : option str)
    (st : Shared.State) (e : Shared.Entry) :
  school_url ≠ [] →
  Shared._cache (Shared.cache st) !! normalize_url_for_cache school_url
    = Some e →
  Shared.read_list (Shared.mem st) (Shared.pages e) ≠ [] →
  ∃ st',
    Shared.scrape_school_urls env clock cfg cloudscraper_ok fuel
      (Some school_url) None school_id st
      = Some (Shared.read_list (Shared.mem st) (Shared.pages e), st') ∧
    Shared.net st' = Shared.net st ∧
    Shared.deref (Shared.mem st')
      (Shared.read_list (Shared.mem st) (Shared.pages e)) =
      map (Shared.with_source (L "school"))
        (Shared.deref (Shared.mem st)
           (Shared.read_list (Shared.mem st) (Shared.pages e))) ∧
    (∀ l, (l < length (Shared.list_objs (Shared.mem st)))%nat →
          Shared.read_list (Shared.mem st') l =
          Shared.read_list (Shared.mem st) l) ∧
    Shared.get (Shared.cache st') school_url = Some (Shared.pages e).
Proof.
  intros Hne He Hrefs.
  destruct st as [[P0 L0] cache0 w0].
  cbn [Shared.mem Shared.cache Shared.net] in *.
  destruct school_url as [|s0 s]; [done|]. set (su := s0 :: s) in *.
  assert (Hread : Shared.read_list
                    {| Shared.page_objs := P0; Shared.list_objs := L0 ++ [[]] |}
                    (Shared.pages e) =
                  Shared.read_list
                    {| Shared.page_objs := P0; Shared.list_objs := L0 |}
                    (Shared.pages e)).
  { unfold Shared.read_list in *. cbn in *.
    destruct (L0 !! Shared.pages e) as [refs|] eqn:E; [|done].
    by rewrite (lookup_app_l_Some _ _ _ _ E). }
  unfold Shared.scrape_school_urls.
  cbn [Shared.new_list Shared.mem Shared.cache Shared.net Shared.page_objs
       Shared.list_objs Shared.normalize_url].
  unfold Shared.from_cache. cbn [Shared.cache Shared.mem Shared.net].
  rewrite get_with_normalizer. fold su. rewrite He, Hread.
  destruct (Shared.read_list
              {| Shared.page_objs := P0; Shared.list_objs := L0 |}
              (Shared.pages e)) as [|r refs] eqn:Er; [done|].
  cbn [app]. eexists. split; [reflexivity|].
  cbn [Shared.net Shared.mem Shared.cache]. split; [done|]. split.
  - pose proof (deref_set_sources (L "school") (r :: refs)
                  {| Shared.page_objs := P0;
                     Shared.list_objs := L0 ++ [[]] |}) as H.
    exact H.
  - split.
    + intros l Hl. unfold Shared.read_list, Shared.set_sources. cbn.
      by rewrite lookup_app_l.
    + rewrite shared_get_set. rewrite decide_True by done.
      by rewrite get_with_normalizer, He.
Qed.

Lemma scrape_school_urls_cache_hit_witness :
  let st :=
    {| Shared.mem := {| Shared.page_objs := [page_a]; Shared.list_objs := [[0%nat]] |};
       Shared.cache :=
         {| Shared._cache :=
              {[ L "https://ex.org/a" :=
                   {| Shared.pages := 0%nat;
                      Shared.scraped_at := L "2025-01-01T00:00:00";
                      Shared.schools := {[ L "s1" ]} |} ]};
            Shared._normalizer := None |};
       Shared.net := tt |} in
  ∃ st',
    Shared.scrape_school_urls example_env (λ _, L "2025-01-02T00:00:00")
      example_config false 10 (Some (L "HTTPS://EX.ORG/a/")) None
      (Some (L "s2")) st = Some ([0%nat], st') ∧
    Shared.net st' = tt ∧
    Shared.deref (Shared.mem st') [0%nat] =
      [Shared.with_source (L "school") page_a].
Proof.
  intros st.
  destruct (scrape_school_urls_cache_hit example_env
              (λ _, L "2025-01-02T00:00:00") example_config false 10
              (L "HTTPS://EX.ORG/a/") (Some (L "s2")) st
              {| Shared.pages := 0%nat;
                 Shared.scraped_at := L "2025-01-01T00:00:00";
                 Shared.schools := {[ L "s1" ]} |})
    as (st' & Hrun & Hnet & Hderef & _).
  - discriminate.
  - vm_compute. reflexivity.
  - vm_compute. discriminate.
  - exists st'. split; [exact Hrun|]. split; [exact Hnet|]. exact Hderef.
Defined.

(** ** The order of a crawl *)

Lemma StronglySorted_snoc_replicate (l : list Z) (d : Z) (n : nat) :
  StronglySorted Z.le l → Forall (λ x, x ≤ d) l →
  StronglySorted Z.le (l ++ replicate n d).
Proof.
  induction 1 as [|x l Hl IH Hx]; intros Hall.
  - cbn [app]. induction n as [|n IHn]; cbn; constructor; [done|].
    apply Forall_replicate. lia.
  - apply Forall_cons in Hall as [Hxd Hall]. cbn. constructor; [by apply IH|].
    apply Forall_app. split; [done|]. apply Forall_replicate. done.
Qed.

Section Queue.

Context {W : Type} (env : Env W).

(** The queue after one iteration: the head is gone, and links may have
    been appended one level below the head, if the head is above the
    maximal depth. *)
Lemma loop_step_queue job c c' :
  loop_step env job c = Some c' →
  ∃ current_url depth queue links,
    url_queue c = (current_url, depth) :: queue ∧
    url_queue c' = queue ++ map (λ link, (link, depth + 1)) links ∧
    (links ≠ [] → depth < max_depth job).
Proof.
  unfold loop_step, loop_step_with. intros H.
  destruct (url_queue c) as [|[current_url depth] queue]; [done|].
  destruct (negb _); [done|].
  exists current_url, depth, queue.
  assert (Hskip : ∀ c1, Some c1 = Some c' → url_queue c1 = queue →
            ∃ links, (current_url, depth) :: queue = (current_url, depth) :: queue ∧
                     url_queue c' = queue ++ map (λ link, (link, depth + 1)) links ∧
                     (links ≠ [] → depth < max_depth job)).
  { intros c1 [= <-] Hq. exists []. by rewrite app_nil_r. }
  destruct (_ || _); [by eapply Hskip|].
  destruct (netloc_of current_url); [|by eapply Hskip].
  destruct (negb (str_eqb _ _)); [by eapply Hskip|].
  destruct (scrape_page _ _ _ _ _ _ _) as [[[page|] self'] w'];
    [|by eapply Hskip].
  destruct (depth <? max_depth job) eqn:Ed; cbn [andb] in H;
    [|by eapply Hskip].
  apply Z.ltb_lt in Ed.
  destruct (should_follow_links _ _ _); [|by eapply Hskip].
  injection H as <-. cbn [url_queue]. eexists. split; [done|]. by split.
Qed.

Lemma loop_step_breadth_first job c c' bound :
  loop_step env job c = Some c' →
  max_depth job ≤ bound → 0 ≤ bound →
  breadth_first (url_queue c) ∧
  Forall (λ d, 0 ≤ d ≤ bound) (map snd (url_queue c)) →
  breadth_first (url_queue c') ∧
  Forall (λ d, 0 ≤ d ≤ bound) (map snd (url_queue c')).
Proof.
  intros Hstep Hmax Hb [[Hsorted (lo & Hlo)] Hbound].
  destruct (loop_step_queue job c c' Hstep)
    as (current_url & depth & queue & links & Eq & -> & Hlinks).
  rewrite Eq in *. cbn [map snd] in *.
  apply StronglySorted_inv in Hsorted as [Hsorted Hhead].
  apply Forall_cons in Hlo as [Hd Hlo].
  apply Forall_cons in Hbound as [Hd0 Hbound].
  unfold breadth_first. rewrite map_app, map_map. cbn [snd].
  assert (Hrep : map (λ _ : str, depth + 1) links =
                 replicate (length links) (depth + 1)).
  { clear. induction links as [|x links IH]; [done|]. cbn. by rewrite IH. }
  rewrite Hrep.
  assert (Hrest : Forall (λ d, depth ≤ d ≤ depth + 1) (map snd queue)).
  { apply Forall_forall. intros d Hin.
    pose proof (proj1 (Forall_forall _ _) Hhead d Hin).
    pose proof (proj1 (Forall_forall _ _) Hlo d Hin). cbn in *. lia. }
  split; [split|].
  - apply StronglySorted_snoc_replicate; [done|].
    eapply Forall_impl; [exact Hrest|]. intros d Hd'. cbn in Hd'. lia.
  - exists depth. apply Forall_app. split; [done|].
    apply Forall_replicate. lia.
  - apply Forall_app. split; [done|].
    destruct links as [|x links]; [constructor|].
    apply Forall_replicate. specialize (Hlinks ltac:(done)). lia.
Qed.

End Queue.

(** [scrape_site] crawls breadth first and not deeper than [max_depth]: at
    every point of the crawl the depths in the queue do not go down along
    the queue, are all one of two consecutive depths, and lie between 0
    and [max_depth], where [max_depth] is the argument, or the configured
    value when the argument is [None] or [0]. *)
Theorem scrape_site_breadth_first {W : Type} (env : Env W) (self : t) (w : W)
    (base_url : str) (depth_arg pages_arg : option Z) (job : Job)
    (c0 : Crawl) :
  scrape_site_start self w base_url depth_arg pages_arg = Some (job, c0) →
  ∀ n,
    breadth_first (url_queue (run env job n c0)) ∧
    ∀ link depth,
      (link, depth) ∈ url_queue (run env job n c0) →
      0 ≤ depth ≤
        Z.max 0 (or_default depth_arg (cfg_max_depth (config self))).
Proof.
  intros Hstart n.
  apply scrape_site_start_inv in Hstart as (_ & _ & Hdepth & _ & Hc0).
  rewrite <- Hdepth.
  assert (H : breadth_first (url_queue (run env job n c0)) ∧
              Forall (λ d, 0 ≤ d ≤ Z.max 0 (max_depth job))
                     (map snd (url_queue (run env job n c0)))).
  { induction n as [|n IH].
    - rewrite Hc0. cbn. split; [split|].
      + apply SSorted_cons; [apply SSorted_nil|apply Forall_nil; exact I].
      + exists 0. apply Forall_cons. split; [cbn [snd]; lia|].
        by apply Forall_nil.
      + apply Forall_cons. split; [cbn [snd]; lia|]. by apply Forall_nil.
    - rewrite run_S.
      destruct (loop_step env job (run env job n c0)) as [c'|] eqn:E;
        [|done].
      eapply loop_step_breadth_first; [exact E|lia|lia|exact IH]. }
  destruct H as [Hbf Hall]. split; [exact Hbf|].
  intros link depth Hin.
  apply (proj1 (Forall_forall _ _) Hall).
  apply list_elem_of_In, in_map_iff. exists (link, depth). split; [done|].
  by apply list_elem_of_In.
Qed.

Lemma scrape_site_breadth_first_witness :
  breadth_first (url_queue (run example_env example_job 1 example_start)) ∧
  ∀ link depth,
    (link, depth) ∈ url_queue (run example_env example_job 1 example_start) →
    0 ≤ depth ≤ Z.max 0 (or_default None (cfg_max_depth (config example_scraper))).
Proof.
  apply (scrape_site_breadth_first example_env example_scraper tt url_home
           None None example_job example_start).
  vm_compute. reflexivity.
Defined.

(** A request that gives no page leaves [visited_urls] and the collected
    pages as they were: the URL is not marked as visited, and is requested
    again if it comes off the queue again. *)
Theorem loop_step_failed_request {W : Type} (env : Env W) (job : Job)
    (c c' : Crawl) (url : str) :
  loop_step env job c = Some c' →
  fetches c' = (url, false) :: fetches c →
  visited_urls (scraper c') = visited_urls (scraper c) ∧
  scraped_pages (scraper c') = scraped_pages (scraper c) ∧
  (url ∉ visited_urls (scraper c')) ∧
  ∃ depth, url_queue c = (url, depth) :: url_queue c'.
Proof.
  intros Hstep Hf.
  destruct (loop_step_cases env job c c' Hstep)
    as (current_url & depth & queue & Eq & _ & Hcases).
  destruct Hcases as [(_ & _ & _ & Ef)
                     |[(page & _ & _ & _ & _ & Ef & _)
                      |(Hnew & Es & Equeue & _ & Ef)]].
  - rewrite Ef in Hf. by apply cons_neq in Hf.
  - rewrite Ef in Hf. discriminate.
  - destruct Ef as [Ef|Ef]; rewrite Ef in Hf; [by apply cons_neq in Hf|].
    injection Hf as <-.
    destruct (on_failure_frame (scraper c)) as (_ & Ev & Ep & _ & _).
    rewrite Es, Ev, Ep. split; [done|]. split; [done|]. split; [done|].
    exists depth. by rewrite Eq, Equeue.
Qed.

Lemma loop_step_failed_request_witness :
  loop_step example_env example_job
    (run example_env example_job 2 example_start) =
    Some (run example_env example_job 3 example_start) ∧
  (url_b ∉ visited_urls
             (scraper (run example_env example_job 3 example_start))) ∧
  fetches (run example_env example_job 4 example_start) =
    [(url_b, false); (url_b, false); (url_c, true); (url_home, true)].
Proof.
  assert (Hstep : loop_step example_env example_job
                    (run example_env example_job 2 example_start) =
                  Some (run example_env example_job 3 example_start)).
  { vm_compute. reflexivity. }
  split; [exact Hstep|]. split; [|vm_compute; reflexivity].
  destruct (loop_step_failed_request example_env example_job _ _ url_b Hstep)
    as (_ & _ & H & _); [|exact H].
  vm_compute. reflexivity.
Defined.
